(** * libutap: the type checker (typechecker.cpp) and statement analysis

    A shallow embedding of the semantic-analysis core of libutap:

    - [kind_t], [type_t], [expression_t]: the data consumed by the checker;
    - the static predicates of typechecker.cpp ([isInteger], [isBound], ...);
    - the compatibility relations ([isSameScalarType], [areEquivalent],
      [areAssignmentCompatible], [isParameterCompatible]);
    - [checkExpression] (the operator algebra), [checkInitialiser],
      [RateDecomposer::decompose] and [visitState];
    - the l-value analyses [isModifiableLValue], [isLValue],
      [isUniqueReference];
    - [Statement::returns] of statement.cpp.

    Expressions are reference-counted handles in the C++ code and
    [setType] mutates the node in place; here a checking function returns
    the annotated copy of the tree it was given, together with the updated
    diagnostics of the system. *)

From Stdlib Require Import ZArith Lia Bool String List.
From stdpp Require Import base list.
Import ListNotations.
Local Open Scope string_scope.
Local Open Scope list_scope.
Local Open Scope Z_scope.

(** ** Kinds

    [Constants::kind_t] is one enumeration shared by expressions and types
    (so [CONSTANT] is both the kind of a literal and the const prefix, and
    [RATE], [ARRAY], [FRACTION] name an operator and a type).  The
    enumeration below lists the kinds of the embedded fragment. *)

Inductive kind_t : Set :=
  (* arithmetic and logic *)
  | PLUS | MINUS | MULT | DIV | MOD
  | BIT_AND | BIT_OR | BIT_XOR | BIT_LSHIFT | BIT_RSHIFT
  | AND | OR | XOR | MIN | MAX
  | RATE | FRACTION
  (* relational *)
  | LT | LE | EQ | NEQ | GE | GT
  (* unary *)
  | NOT | UNARY_MINUS
  (* assignment *)
  | ASSIGN | ASSPLUS | ASSMINUS | ASSDIV | ASSMOD | ASSMULT
  | ASSAND | ASSOR | ASSXOR | ASSLSHIFT | ASSRSHIFT
  | POSTINCREMENT | PREINCREMENT | POSTDECREMENT | PREDECREMENT
  (* structure *)
  | INLINEIF | COMMA | FUNCALL | ARRAY | DOT
  | IDENTIFIER | CONSTANT | LIST
  | FORALL | EXISTS | SUM
  (* properties *)
  | AF | AG | EF | EG | SIMULATE | SIMULATEREACH
  (* types *)
  | UNKNOWN | VOID_TYPE | CLOCK | INT | DOUBLE | BOOL | SCALAR
  | CHANNEL | COST | INVARIANT | INVARIANT_WR | GUARD | DIFF
  | CONSTRAINT | FORMULA | RECORD | PROCESS | PROCESSVAR | FUNCTION
  | RANGE | REF | LABEL | DOUBLEINVGUARD
  (* prefixes *)
  | URGENT | BROADCAST | COMMITTED | HYBRID | SYSTEM_META.

Definition kind_code (k : kind_t) : positive :=
  match k with
  | PLUS => 1 | MINUS => 2 | MULT => 3 | DIV => 4 | MOD => 5
  | BIT_AND => 6 | BIT_OR => 7 | BIT_XOR => 8 | BIT_LSHIFT => 9
  | BIT_RSHIFT => 10 | AND => 11 | OR => 12 | XOR => 13 | MIN => 14
  | MAX => 15 | RATE => 16 | FRACTION => 17 | LT => 18 | LE => 19
  | EQ => 20 | NEQ => 21 | GE => 22 | GT => 23 | NOT => 24
  | UNARY_MINUS => 25 | ASSIGN => 26 | ASSPLUS => 27 | ASSMINUS => 28
  | ASSDIV => 29 | ASSMOD => 30 | ASSMULT => 31 | ASSAND => 32
  | ASSOR => 33 | ASSXOR => 34 | ASSLSHIFT => 35 | ASSRSHIFT => 36
  | POSTINCREMENT => 37 | PREINCREMENT => 38 | POSTDECREMENT => 39
  | PREDECREMENT => 40 | INLINEIF => 41 | COMMA => 42 | FUNCALL => 43
  | ARRAY => 44 | DOT => 45 | IDENTIFIER => 46 | CONSTANT => 47
  | LIST => 48 | FORALL => 49 | EXISTS => 50 | SUM => 51 | AF => 52
  | AG => 53 | EF => 54 | EG => 55 | SIMULATE => 56
  | SIMULATEREACH => 57 | UNKNOWN => 58 | VOID_TYPE => 59 | CLOCK => 60
  | INT => 61 | DOUBLE => 62 | BOOL => 63 | SCALAR => 64 | CHANNEL => 65
  | COST => 66 | INVARIANT => 67 | INVARIANT_WR => 68 | GUARD => 69
  | DIFF => 70 | CONSTRAINT => 71 | FORMULA => 72 | RECORD => 73
  | PROCESS => 74 | PROCESSVAR => 75 | FUNCTION => 76 | RANGE => 77
  | REF => 78 | LABEL => 79 | DOUBLEINVGUARD => 80 | URGENT => 81
  | BROADCAST => 82 | COMMITTED => 83 | HYBRID => 84 | SYSTEM_META => 85
  end%positive.

(** [k1 == k2] on kinds. *)
Definition kind_eqb (k1 k2 : kind_t) : bool :=
  Pos.eqb (kind_code k1) (kind_code k2).

Infix "=k" := kind_eqb (at level 70, no associativity).

(** ** Types

    type.cpp is not part of the checked sources; the type API the checker
    calls is modelled below from the data model of the specification. *)

(** Modelled from the spec: the two expressions of an integer range.  Range
    end points are compared by expression equality, not by value, so an end
    point is a literal or a named constant. *)
Inductive bound_t : Set :=
  | bound_const (value : Z)
  | bound_ident (name : string).

(** Modelled from the spec: [expression_t::equal] on range end points. *)
Definition bound_equal (a b : bound_t) : bool :=
  match a, b with
  | bound_const x, bound_const y => Z.eqb x y
  | bound_ident x, bound_ident y => String.eqb x y
  | _, _ => false
  end.

(** Modelled from the spec: [type_t], "an algebraic tree with a root kind
    and zero or more subtypes", each subtype with an optional label, and an
    optional range.  [type_null] is the default constructed [type_t()]. *)
#[warnings="-register-all"]
Inductive type_t : Type :=
  | type_null
  | type_data (kind : kind_t) (range : option (bound_t * bound_t))
              (children : list (string * type_t)).

Module Ty.

(** Modelled from the spec: constructors of types. *)
Definition createPrimitive (k : kind_t) : type_t := type_data k None [].

(** Modelled from the spec: [type_t::createPrefix]. *)
Definition createPrefix (k : kind_t) (t : type_t) : type_t :=
  type_data k None [("", t)].

(** Modelled from the spec: [type_t::createRange]. *)
Definition createRange (t : type_t) (lower upper : bound_t) : type_t :=
  type_data RANGE (Some (lower, upper)) [("", t)].

(** Modelled from the spec: [type_t::createArray]. *)
Definition createArray (sub size : type_t) : type_t :=
  type_data ARRAY None [("", sub); ("", size)].

(** Modelled from the spec: [type_t::createRecord]. *)
Definition createRecord (fields : list (string * type_t)) : type_t :=
  type_data RECORD None fields.

(** Modelled from the spec: [type_t::createFunction]. *)
Definition createFunction (ret : type_t) (params : list (string * type_t))
  : type_t := type_data FUNCTION None (("", ret) :: params).

(** Modelled from the spec: [type_t::createLabel]. *)
Definition createLabel (name : string) (t : type_t) : type_t :=
  type_data LABEL None [(name, t)].

(** Modelled from the spec: [getKind], [size], [operator[]], [getLabel]. *)
Definition getKind (t : type_t) : kind_t :=
  match t with type_null => UNKNOWN | type_data k _ _ => k end.

(** Modelled from the spec: [type_t::children]. *)
Definition children (t : type_t) : list (string * type_t) :=
  match t with type_null => [] | type_data _ _ cs => cs end.

(** Modelled from the spec: [type_t::size]. *)
Definition size (t : type_t) : nat := length (children t).

(** Modelled from the spec: [type_t::get]. *)
Definition get (t : type_t) (i : nat) : type_t :=
  match children t !! i with Some (_, c) => c | None => type_null end.

(** Modelled from the spec: [type_t::getLabel]. *)
Definition getLabel (t : type_t) (i : nat) : string :=
  match children t !! i with Some (l, _) => l | None => "" end.

(** Modelled from the spec: [type_t::unknown]. *)
Definition unknown (t : type_t) : bool := getKind t =k UNKNOWN.

(** Modelled from the spec: the prefixes "urgent, broadcast, committed,
    hybrid, const, system-meta, ref". *)
Definition isPrefix (k : kind_t) : bool :=
  match k with
  | URGENT | BROADCAST | COMMITTED | HYBRID | CONSTANT | SYSTEM_META
  | REF => true
  | _ => false
  end.

(** Modelled from the spec: prefixes "wrap a subtype and are transparent
    to most predicates"; so are the range and label wrappers (a ranged
    integer is an integer, a named scalar set is a scalar). *)
Definition transparent (k : kind_t) : bool :=
  isPrefix k || (k =k RANGE) || (k =k LABEL).

(** Modelled from the spec: [type_t::is] ([is] is reserved, hence [is_]). *)
Fixpoint is_ (t : type_t) (k : kind_t) : bool :=
  match t with
  | type_null => UNKNOWN =k k
  | type_data k' _ cs =>
      (k' =k k)
      || (transparent k'
          && match cs with (_, c) :: _ => is_ c k | [] => false end)
  end.

(** Modelled from the spec: the node of kind [k] below the transparent
    wrappers of [t] ("we have to strip any prefixes and labels"). *)
Fixpoint strip (k : kind_t) (t : type_t) : type_t :=
  match t with
  | type_null => type_null
  | type_data k' _ cs =>
      if k' =k k then t
      else if transparent k'
           then match cs with (_, c) :: _ => strip k c | [] => type_null end
           else type_null
  end.

(** Modelled from the spec: [type_t::isInteger]. *)
Definition isInteger (t : type_t) : bool := is_ t INT.

(** Modelled from the spec: [type_t::isBoolean]. *)
Definition isBoolean (t : type_t) : bool := is_ t BOOL.

(** Modelled from the spec: [type_t::isIntegral]. *)
Definition isIntegral (t : type_t) : bool := isInteger t || isBoolean t.

(** Modelled from the spec: [type_t::isClock]. *)
Definition isClock (t : type_t) : bool := is_ t CLOCK.

(** Modelled from the spec: [type_t::isDouble]. *)
Definition isDouble (t : type_t) : bool := is_ t DOUBLE.

(** Modelled from the spec: [type_t::isDiff]. *)
Definition isDiff (t : type_t) : bool := is_ t DIFF.

(** Modelled from the spec: [type_t::isVoid]. *)
Definition isVoid (t : type_t) : bool := is_ t VOID_TYPE.

(** Modelled from the spec: [type_t::isScalar]. *)
Definition isScalar (t : type_t) : bool := is_ t SCALAR.

(** Modelled from the spec: [type_t::isChannel]. *)
Definition isChannel (t : type_t) : bool := is_ t CHANNEL.

(** Modelled from the spec: [type_t::isRecord]. *)
Definition isRecord (t : type_t) : bool := is_ t RECORD.

(** Modelled from the spec: [type_t::isArray]. *)
Definition isArray (t : type_t) : bool := is_ t ARRAY.

(** Modelled from the spec: [type_t::isProcess]. *)
Definition isProcess (t : type_t) : bool := is_ t PROCESS.

(** Modelled from the spec: [type_t::isFunction]. *)
Definition isFunction (t : type_t) : bool := is_ t FUNCTION.

(** Modelled from the spec: the semantic categories overlap, an integral
    expression is a valid invariant, an invariant a valid guard, a guard
    a valid constraint and a constraint a valid formula. *)
Definition isInvariant (t : type_t) : bool := is_ t INVARIANT || isIntegral t.

(** Modelled from the spec: [type_t::isGuard]. *)
Definition isGuard (t : type_t) : bool := is_ t GUARD || isInvariant t.

(** Modelled from the spec: [type_t::isConstraint]. *)
Definition isConstraint (t : type_t) : bool :=
  is_ t CONSTRAINT || isGuard t.

(** Modelled from the spec: [type_t::isFormula]. *)
Definition isFormula (t : type_t) : bool := is_ t FORMULA || isConstraint t.

(** Modelled from the spec: a type is constant when it carries the const
    prefix. *)
Definition isConstant (t : type_t) : bool := is_ t CONSTANT.

(** Modelled from the spec: [type_t::isNonConstant]. *)
Definition isNonConstant (t : type_t) : bool := negb (isConstant t).

(** Modelled from the spec: [getRange] of a ranged type. *)
Definition getRange (t : type_t) : option (bound_t * bound_t) :=
  match strip RANGE t with
  | type_data _ r _ => r
  | type_null => None
  end.

(** Modelled from the spec: end points of two ranges are equal. *)
Definition rangeEqual (a b : type_t) : bool :=
  match getRange a, getRange b with
  | Some (l1, u1), Some (l2, u2) => bound_equal l1 l2 && bound_equal u1 u2
  | None, None => true
  | _, _ => false
  end.

(** Modelled from the spec: accessors of records and arrays. *)
Definition getRecordSize (t : type_t) : nat := size (strip RECORD t).

(** Modelled from the spec: [type_t::getRecordLabel]. *)
Definition getRecordLabel (t : type_t) (i : nat) : string :=
  getLabel (strip RECORD t) i.

(** Modelled from the spec: [type_t::getField]. *)
Definition getField (t : type_t) (i : nat) : type_t :=
  get (strip RECORD t) i.

(** Modelled from the spec: [type_t::getSub]. *)
Definition getSub (t : type_t) : type_t := get (strip ARRAY t) 0.

(** Modelled from the spec: [type_t::getArraySize]. *)
Definition getArraySize (t : type_t) : type_t := get (strip ARRAY t) 1.

(** Modelled from the spec: [type_t::indexOf]. *)
Fixpoint indexOf (label : string) (fields : list (string * type_t))
         (i : Z) : Z :=
  match fields with
  | [] => -1
  | (l, _) :: rest =>
      if String.eqb l label then i else indexOf label rest (i + 1)
  end.

(** Modelled from the spec: [findIndexOf], the index of the field with
    the given label, or -1. *)
Definition findIndexOf (t : type_t) (label : string) : Z :=
  indexOf label (children (strip RECORD t)) 0.

End Ty.

(** The height of a type tree, the measure of the recursions over types. *)
Fixpoint type_height (t : type_t) : nat :=
  match t with
  | type_null => O
  | type_data _ _ cs =>
      S (fold_right (fun c h => Nat.max (type_height (snd c)) h) O cs)
  end.

(** ** Expressions

    expression.cpp is not part of the checked sources either. *)

(** Modelled from the spec: a source position. *)
Definition position_t : Set := (nat * nat)%type.

(** Modelled from the spec: a symbol, "a named entity with an attached
    type"; [symbol_null] is the default constructed [symbol_t()]. *)
Inductive symbol_t : Type :=
  | symbol_null
  | symbol_data (name : string) (type : type_t).

(** Modelled from the spec: an expression, "a kind tag, an ordered sequence
    of child expressions, an optional attached symbol, an optional value,
    an optional position, and a type field assigned by the checker".
    [expression_null] is the empty expression [expression_t()]. *)
#[warnings="-register-all"]
Inductive expression_t : Type :=
  | expression_null
  | expression_data (kind : kind_t) (position : position_t) (value : Z)
                    (symbol : symbol_t) (type : type_t)
                    (sub : list expression_t).

Module Expr.

(** Modelled from the spec: the accessors of [expression_t].  On the
    empty expression the C++ accessors fail an assertion; here they
    return the default value of their result type. *)
Definition empty (e : expression_t) : bool :=
  match e with expression_null => true | _ => false end.

(** Modelled from the spec: [expression_t::getKind]. *)
Definition getKind (e : expression_t) : kind_t :=
  match e with expression_null => UNKNOWN | expression_data k _ _ _ _ _ => k end.

(** Modelled from the spec: [expression_t::getPosition]. *)
Definition getPosition (e : expression_t) : position_t :=
  match e with
  | expression_null => (O, O)
  | expression_data _ p _ _ _ _ => p
  end.

(** Modelled from the spec: [expression_t::getValue]. *)
Definition getValue (e : expression_t) : Z :=
  match e with expression_null => 0 | expression_data _ _ v _ _ _ => v end.

(** Modelled from the spec: [expression_t::getSymbol]. *)
Definition getSymbol (e : expression_t) : symbol_t :=
  match e with
  | expression_null => symbol_null
  | expression_data _ _ _ s _ _ => s
  end.

(** Modelled from the spec: [expression_t::getType]. *)
Definition getType (e : expression_t) : type_t :=
  match e with
  | expression_null => type_null
  | expression_data _ _ _ _ t _ => t
  end.

(** Modelled from the spec: [expression_t::sub]. *)
Definition sub (e : expression_t) : list expression_t :=
  match e with expression_null => [] | expression_data _ _ _ _ _ cs => cs end.

(** Modelled from the spec: [expression_t::getSize]. *)
Definition getSize (e : expression_t) : nat := length (sub e).

(** [expr[i]]; out of range the C++ code fails an assertion. *)
Definition get (e : expression_t) (i : nat) : expression_t :=
  match sub e !! i with Some c => c | None => expression_null end.

(** Modelled from the spec: [expression_t::setType]. *)
Definition setType (e : expression_t) (t : type_t) : expression_t :=
  match e with
  | expression_null => expression_null
  | expression_data k p v s _ cs => expression_data k p v s t cs
  end.

(** The node [e] with its children replaced (the children of a node are
    annotated in place by the checker). *)
Definition setSub (e : expression_t) (cs : list expression_t)
  : expression_t :=
  match e with
  | expression_null => expression_null
  | expression_data k p v s t _ => expression_data k p v s t cs
  end.

(** Modelled from the spec: [expression_t::createConstant]. *)
Definition createConstant (v : Z) : expression_t :=
  expression_data CONSTANT (O, O) v symbol_null (Ty.createPrimitive INT) [].

(** Modelled from the spec: [expression_t::createIdentifier]. *)
Definition createIdentifier (s : symbol_t) (p : position_t) : expression_t :=
  expression_data IDENTIFIER p 0 s
    (match s with symbol_null => type_null | symbol_data _ t => t end) [].

(** Modelled from the spec: [expression_t::createUnary]. *)
Definition createUnary (k : kind_t) (e : expression_t) (p : position_t)
           (t : type_t) : expression_t :=
  expression_data k p 0 symbol_null t [e].

(** Modelled from the spec: [expression_t::createBinary]. *)
Definition createBinary (k : kind_t) (l r : expression_t) (p : position_t)
           (t : type_t) : expression_t :=
  expression_data k p 0 symbol_null t [l; r].

(** Modelled from the spec: [expression_t::createNary]. *)
Definition createNary (k : kind_t) (cs : list expression_t)
           (p : position_t) (t : type_t) : expression_t :=
  expression_data k p 0 symbol_null t cs.

End Expr.

Notation "e .[ i ]" := (Expr.get e i)
  (at level 1, left associativity, format "e .[ i ]").

Fixpoint expression_height (e : expression_t) : nat :=
  match e with
  | expression_null => O
  | expression_data _ _ _ _ _ cs =>
      S (fold_right (fun c h => Nat.max (expression_height c) h) O cs)
  end.

(** ** The system: diagnostics and recorders

    system.cpp is not part of the checked sources. *)

(** Modelled from the spec: a diagnostic, "a position + message + tag";
    the category of the checker's diagnostics is always "(typechecking)". *)
Record error_t : Set := mkError {
  errPosition : position_t;
  errMessage : string;
  errContext : string
}.

(** Modelled from the spec: the part of [TimedAutomataSystem] the checker
    writes to, the buffers of errors and warnings and the flags set by the
    recorders. *)
Record system_t : Set := mkSystem {
  errors : list error_t;
  warnings : list error_t;
  stopWatch : bool;
  strictInvariant : bool
}.

(** Modelled from the spec: [addError(position, message, category)]
    appends to the buffer of errors. *)
Definition addError (p : position_t) (msg ctx : string) (s : system_t)
  : system_t :=
  mkSystem (errors s ++ [mkError p msg ctx]) (warnings s)
           (stopWatch s) (strictInvariant s).

(** Modelled from the spec: [addWarning]. *)
Definition addWarning (p : position_t) (msg ctx : string) (s : system_t)
  : system_t :=
  mkSystem (errors s) (warnings s ++ [mkError p msg ctx])
           (stopWatch s) (strictInvariant s).

(** Modelled from the spec: [recordStopWatch]. *)
Definition recordStopWatch (s : system_t) : system_t :=
  mkSystem (errors s) (warnings s) true (strictInvariant s).

(** Modelled from the spec: [recordStrictInvariant]. *)
Definition recordStrictInvariant (s : system_t) : system_t :=
  mkSystem (errors s) (warnings s) (stopWatch s) true.

(** [TypeChecker::handleError] and [TypeChecker::handleWarning]. *)
Definition handleError (expr : expression_t) (msg : string) (s : system_t)
  : system_t :=
  addError (Expr.getPosition expr) msg "(typechecking)" s.

Definition handleWarning (expr : expression_t) (msg : string) (s : system_t)
  : system_t :=
  addWarning (Expr.getPosition expr) msg "(typechecking)" s.

(** The messages of the errors of a system, in the order of emission. *)
Definition errorMessages (s : system_t) : list string :=
  map errMessage (errors s).

(** ** Static helper predicates of typechecker.cpp *)

Definition isCost (expr : expression_t) : bool :=
  Ty.is_ (Expr.getType expr) COST.
Definition isVoid (expr : expression_t) : bool :=
  Ty.isVoid (Expr.getType expr).
Definition isDouble (expr : expression_t) : bool :=
  Ty.isDouble (Expr.getType expr).
Definition isInteger (expr : expression_t) : bool :=
  Ty.isInteger (Expr.getType expr).
Definition isBound (expr : expression_t) : bool :=
  Ty.isInteger (Expr.getType expr) || Ty.isDouble (Expr.getType expr).
Definition isIntegral (expr : expression_t) : bool :=
  Ty.isIntegral (Expr.getType expr).
Definition isClock (expr : expression_t) : bool :=
  Ty.isClock (Expr.getType expr).
Definition isDiff (expr : expression_t) : bool :=
  Ty.isDiff (Expr.getType expr).
Definition isDoubleValue (expr : expression_t) : bool :=
  isDouble expr || isClock expr || isDiff expr.
Definition isNumber (expr : expression_t) : bool :=
  isDoubleValue expr || isIntegral expr.
Definition isConstantInteger (expr : expression_t) : bool :=
  (Expr.getKind expr =k CONSTANT) && isInteger expr.
Definition isConstantDouble (expr : expression_t) : bool :=
  (Expr.getKind expr =k CONSTANT) && isDouble expr.
Definition isInvariant (expr : expression_t) : bool :=
  Ty.isInvariant (Expr.getType expr).
Definition isGuard (expr : expression_t) : bool :=
  Ty.isGuard (Expr.getType expr).
Definition isConstraint (expr : expression_t) : bool :=
  Ty.isConstraint (Expr.getType expr).
Definition isFormula (expr : expression_t) : bool :=
  Ty.isFormula (Expr.getType expr).

(** Returns true iff type is a valid invariant. *)
Definition isInvariantWR (expr : expression_t) : bool :=
  isInvariant expr || Ty.is_ (Expr.getType expr) INVARIANT_WR.

(** Returns true if values of this type can be assigned. *)
Fixpoint isAssignable (type : type_t) : bool :=
  match type with
  | type_null => false
  | type_data k _ cs =>
      match k with
      | INT | BOOL | DOUBLE | CLOCK | COST | SCALAR => true
      | ARRAY =>
          match cs with (_, c) :: _ => isAssignable c | [] => false end
      | RECORD => forallb (fun c => isAssignable (snd c)) cs
      | _ => match cs with (_, c) :: _ => isAssignable c | [] => false end
      end
  end.

(** ** Compatibility of types *)

(** Returns a value indicating the capabilities of a channel. *)
Definition channelCapability (type : type_t) : Z :=
  if Ty.is_ type URGENT then 0
  else if Ty.is_ type BROADCAST then 1
  else 2.

(** Returns true if two scalar types are name-equivalent.  The recursion
    is on the two types together; [fuel] bounds its depth. *)
Fixpoint isSameScalarType_rec (fuel : nat) (t1 t2 : type_t) : bool :=
  match fuel with
  | O => false
  | S fuel =>
      let k1 := Ty.getKind t1 in
      let k2 := Ty.getKind t2 in
      if (k1 =k REF) || (k1 =k CONSTANT) || (k1 =k SYSTEM_META)
      then isSameScalarType_rec fuel (Ty.get t1 0) t2
      else if (k2 =k EF) || (k2 =k CONSTANT) || (k2 =k SYSTEM_META)
      then isSameScalarType_rec fuel t1 (Ty.get t2 0)
      else if (k1 =k LABEL) && (k2 =k LABEL)
      then String.eqb (Ty.getLabel t1 0) (Ty.getLabel t2 0)
           && isSameScalarType_rec fuel (Ty.get t1 0) (Ty.get t2 0)
      else if (k1 =k SCALAR) && (k2 =k SCALAR)
      then true
      else if (k1 =k RANGE) && (k2 =k RANGE)
      then isSameScalarType_rec fuel (Ty.get t1 0) (Ty.get t2 0)
           && Ty.rangeEqual t1 t2
      else false
  end.

Definition isSameScalarType (t1 t2 : type_t) : bool :=
  isSameScalarType_rec (S (type_height t1 + type_height t2)) t1 t2.

(** Returns true iff [a] and [b] are structurally equivalent; [fuel] bounds
    the depth of the recursion into record fields and array elements. *)
Fixpoint areEquivalent_rec (fuel : nat) (a b : type_t) : bool :=
  match fuel with
  | O => false
  | S fuel =>
      if Ty.isInteger a && Ty.isInteger b
      then negb (Ty.is_ a RANGE) || negb (Ty.is_ b RANGE) || Ty.rangeEqual a b
      else if Ty.isBoolean a && Ty.isBoolean b then true
      else if Ty.isClock a && Ty.isClock b then true
      else if Ty.isChannel a && Ty.isChannel b
      then Z.eqb (channelCapability a) (channelCapability b)
      else if Ty.isRecord a && Ty.isRecord b
      then
        let aSize := Ty.getRecordSize a in
        let bSize := Ty.getRecordSize b in
        if Nat.eqb aSize bSize
        then forallb
               (fun i =>
                  String.eqb (Ty.getRecordLabel a i) (Ty.getRecordLabel b i)
                  && areEquivalent_rec fuel (Ty.getField a i) (Ty.getField b i))
               (seq 0 aSize)
        else false
      else if Ty.isArray a && Ty.isArray b
      then
        let asize := Ty.getArraySize a in
        let bsize := Ty.getArraySize b in
        if Ty.isInteger asize && Ty.isInteger bsize
        then Ty.rangeEqual asize bsize
             && areEquivalent_rec fuel (Ty.getSub a) (Ty.getSub b)
        else if Ty.isScalar asize && Ty.isScalar bsize
        then isSameScalarType asize bsize
             && areEquivalent_rec fuel (Ty.getSub a) (Ty.getSub b)
        else false
      else if Ty.isScalar a && Ty.isScalar b then isSameScalarType a b
      else if Ty.isDouble a && Ty.isDouble b then true
      else false
  end.

Definition areEquivalent (a b : type_t) : bool :=
  areEquivalent_rec (type_height a) a b.

(** Returns true if lvalue and rvalue are assignment compatible. *)
Definition areAssignmentCompatible (lvalue rvalue : type_t) (init : bool)
  : bool :=
  if (if init
      then Ty.isClock lvalue && Ty.isDouble rvalue
      else (Ty.isClock lvalue || Ty.isDouble lvalue)
           && (Ty.isIntegral rvalue || Ty.isDouble rvalue
               || Ty.isClock rvalue))
  then true
  else if Ty.isIntegral lvalue && Ty.isIntegral rvalue then true
  else areEquivalent lvalue rvalue.

(** Returns true if two types are compatible for comparison using the
    equality operator. *)
Definition areEqCompatible (t1 t2 : type_t) : bool :=
  if Ty.isIntegral t1 && Ty.isIntegral t2 then true
  else if Ty.is_ t1 PROCESSVAR && Ty.is_ t2 PROCESSVAR then true
  else areEquivalent t1 t2.

(** Returns true if arguments of an inline if are compatible. *)
Definition areInlineIfCompatible (t1 t2 : type_t) : bool :=
  if Ty.isIntegral t1 && Ty.isIntegral t2 then true
  else areEquivalent t1 t2.

(** ** Statements (statement.cpp) *)

#[warnings="-register-all"]
Inductive Statement : Type :=
  | EmptyStatement
  | ExprStatement (expr : expression_t)
  | AssertStatement (expr : expression_t)
  | ForStatement (init cond step : expression_t) (stat : Statement)
  | IterationStatement (symbol : symbol_t) (stat : Statement)
  | WhileStatement (cond : expression_t) (stat : Statement)
  | DoWhileStatement (stat : Statement) (cond : expression_t)
  | BlockStatement (frame : list symbol_t) (stats : list Statement)
  | SwitchStatement (frame : list symbol_t) (cond : expression_t)
                    (stats : list Statement)
  | CaseStatement (frame : list symbol_t) (cond : expression_t)
                  (stats : list Statement)
  | DefaultStatement (frame : list symbol_t) (stats : list Statement)
  | IfStatement (cond : expression_t) (trueCase : Statement)
                (falseCase : option Statement)
  | BreakStatement
  | ContinueStatement
  | ReturnStatement (value : expression_t).

(** [Statement::returns]; [falseCase] of an if statement is a pointer that
    may be NULL, here an option. *)
Fixpoint returns (stat : Statement) : bool :=
  match stat with
  | EmptyStatement => false
  | ExprStatement _ => false
  | AssertStatement _ => false
  | ForStatement _ _ _ _ => false
  | IterationStatement _ _ => false
  | WhileStatement _ _ => false
  | DoWhileStatement stat _ => returns stat
  | BlockStatement _ stats =>
      (* begin() != end() && back()->returns() *)
      (fix back (l : list Statement) : bool :=
         match l with
         | [] => false
         | [last] => returns last
         | _ :: rest => back rest
         end) stats
  | SwitchStatement _ _ _ => false
  | CaseStatement _ _ _ => false
  | DefaultStatement _ _ => false
  | IfStatement _ trueCase falseCase =>
      returns trueCase
      && match falseCase with
         | Some stat => returns stat
         | None => false
         end
  | BreakStatement => false
  | ContinueStatement => false
  | ReturnStatement _ => true
  end.

(** ** The checker *)

Module RateDecomposer.
Record t : Type := mk {
  costRate : expression_t;
  invariant : expression_t;
  hasStrictInvariant : bool;
  hasClockRates : bool;
  countCostRates : nat
}.

(** The constructor [RateDecomposer()]. *)
Definition init : t :=
  mk expression_null (Expr.createConstant 1) false false O.
End RateDecomposer.

(** The fields of [state_t] the checker reads and writes. *)
Record state_t : Type := mkState {
  invariant : expression_t;
  exponentialRate : expression_t;
  costRate : expression_t
}.

(** The result of the dispatch on the kind of an expression: the switch
    either leaves through [break] with the local [type] (possibly still
    unknown), or returns at once. *)
Inductive outcome : Type :=
  | Break (type : type_t)
  | Return (ok : bool).

Section TypeChecker.

(** Parts of the library outside typechecker.cpp, taken as parameters:
    the side-effect analysis and the read set of an expression
    (expression.cpp), the set of compile-time computable symbols filled
    by the pre-pass, the validation of declared types, which walks range
    expressions, and the pretty printer of types. *)
Variable changesAnyVariable : expression_t -> bool.
Variable collectPossibleReads : expression_t -> list symbol_t.
Variable compileTimeComputableValues : symbol_t -> bool.
Variable checkType : type_t -> system_t -> system_t.
Variable toString : type_t -> string.

(** This method issues warnings for expressions, which do not change
    any variables.  (The test [expr.getKind() != EXIT] of the source
    always holds here: EXIT belongs to the dynamic-template constructs,
    which are outside the embedded fragment.) *)
Fixpoint checkIgnoredValue (expr : expression_t) (s : system_t)
  : system_t :=
  if negb (changesAnyVariable expr)
  then handleWarning expr "$Expression_does_not_have_any_effect" s
  else match expr with
       | expression_data COMMA _ _ _ _ (_ :: e1 :: _) =>
           checkIgnoredValue e1 s
       | _ => s
       end.

Definition isCompileTimeComputable (expr : expression_t) : bool :=
  forallb
    (fun sym =>
       match sym with
       | symbol_null => false
       | symbol_data _ type =>
           negb (negb (Ty.isFunction type)
                 && negb (compileTimeComputableValues sym))
       end)
    (collectPossibleReads expr).

(** Returns true if expression evaluates to a modifiable l-value. *)
Fixpoint isModifiableLValue (expr : expression_t) : bool :=
  match expr with
  | expression_null => false
  | expression_data k _ _ _ type cs =>
      match k with
      | IDENTIFIER => Ty.isNonConstant type
      | DOT =>
          match cs with
          | e0 :: _ =>
              if Ty.isProcess (Expr.getType e0) then false
              else isModifiableLValue e0
          | [] => false
          end
      | ARRAY =>
          match cs with e0 :: _ => isModifiableLValue e0 | [] => false end
      | PREINCREMENT | PREDECREMENT | ASSIGN | ASSPLUS | ASSMINUS
      | ASSDIV | ASSMOD | ASSMULT | ASSAND | ASSOR | ASSXOR
      | ASSLSHIFT | ASSRSHIFT => true
      | INLINEIF =>
          match cs with
          | _ :: e1 :: e2 :: _ =>
              isModifiableLValue e1 && isModifiableLValue e2
              && areEquivalent (Expr.getType e1) (Expr.getType e2)
          | _ => false
          end
      | COMMA =>
          match cs with
          | _ :: e1 :: _ => isModifiableLValue e1
          | _ => false
          end
      | _ => false
      end
  end.

(** Returns true iff [expr] evaluates to an lvalue. *)
Fixpoint isLValue (expr : expression_t) : bool :=
  match expr with
  | expression_null => false
  | expression_data k _ _ _ _ cs =>
      match k with
      | IDENTIFIER | PREINCREMENT | PREDECREMENT | ASSIGN | ASSPLUS
      | ASSMINUS | ASSDIV | ASSMOD | ASSMULT | ASSAND | ASSOR | ASSXOR
      | ASSLSHIFT | ASSRSHIFT => true
      | DOT | ARRAY =>
          match cs with e0 :: _ => isLValue e0 | [] => false end
      | INLINEIF =>
          match cs with
          | _ :: e1 :: e2 :: _ =>
              isLValue e1 && isLValue e2
              && areEquivalent (Expr.getType e1) (Expr.getType e2)
          | _ => false
          end
      | COMMA =>
          match cs with _ :: e1 :: _ => isLValue e1 | _ => false end
      | _ => false
      end
  end.

(** Returns true if expression is a reference to a unique variable. *)
Fixpoint isUniqueReference (expr : expression_t) : bool :=
  match expr with
  | expression_null => false
  | expression_data k _ _ _ _ cs =>
      match k with
      | IDENTIFIER => true
      | DOT =>
          match cs with e0 :: _ => isUniqueReference e0 | [] => false end
      | ARRAY =>
          match cs with
          | e0 :: rest =>
              isUniqueReference e0
              && isCompileTimeComputable
                   (match rest with e1 :: _ => e1 | [] => expression_null end)
          | [] => false
          end
      | PREINCREMENT | PREDECREMENT | ASSIGN | ASSPLUS | ASSMINUS
      | ASSDIV | ASSMOD | ASSMULT | ASSAND | ASSOR | ASSXOR
      | ASSLSHIFT | ASSRSHIFT =>
          match cs with e0 :: _ => isUniqueReference e0 | [] => false end
      | INLINEIF => false
      | COMMA =>
          match cs with
          | _ :: e1 :: _ => isUniqueReference e1
          | _ => false
          end
      | _ => false
      end
  end.

(** Returns true iff argument type is compatible with parameter type. *)
Definition isParameterCompatible (paramType : type_t) (arg : expression_t)
  : bool :=
  let ref := Ty.is_ paramType REF in
  let constant := Ty.isConstant paramType in
  let lvalue := isModifiableLValue arg in
  let argType := Expr.getType arg in
  if ref && negb constant && negb lvalue then false
  else if Ty.isChannel paramType && Ty.isChannel argType
  then channelCapability paramType <=? channelCapability argType
  else if ref && lvalue then areEquivalent argType paramType
  else areAssignmentCompatible paramType argType false.

(** Checks whether argument type is compatible with parameter type. *)
Definition checkParameterCompatible (paramType : type_t)
           (arg : expression_t) (s : system_t) : bool * system_t :=
  if negb (isParameterCompatible paramType arg)
  then (false, handleError arg "$Incompatible_argument" s)
  else (true, s).

(** *** Initialisers *)

Definition initResult : Type := option (expression_t * system_t).

(** The loop of the array branch of [checkInitialiser]: [n] iterations
    are left, [i] is the loop index. *)
Fixpoint arrayInitialiser
         (rec : type_t -> expression_t -> system_t -> initResult)
         (subtype : type_t) (init : expression_t) (n i : nat)
         (result : list expression_t) (s : system_t)
  : option (list expression_t * system_t) :=
  match n with
  | O => Some (result, s)
  | S n =>
      let s1 :=
        if negb (String.eqb (Ty.getLabel (Expr.getType init) i) "")
        then handleError init.[i]
               "$Field_name_not_allowed_in_array_initialiser" s
        else s in
      match rec subtype init.[i] s1 with
      | None => None
      | Some (r, s2) =>
          arrayInitialiser rec subtype init n (S i) (<[i := r]> result) s2
      end
  end.

(** The loop of the record branch: [current] is the index of the field
    the next positional entry initialises. *)
Fixpoint recordInitialiser
         (rec : type_t -> expression_t -> system_t -> initResult)
         (type : type_t) (init : expression_t) (n i : nat) (current : Z)
         (result : list expression_t) (s : system_t)
  : option (list expression_t * system_t) :=
  match n with
  | O => Some (result, s)
  | S n =>
      let label := Ty.getLabel (Expr.getType init) i in
      let labelled := negb (String.eqb label "") in
      let current := if labelled then Ty.findIndexOf type label
                     else current in
      if labelled && (current =? -1)
      then Some (result, handleError init.[i] "$Unknown_field" s)
      else if Z.of_nat (Ty.getRecordSize type) <=? current
      then Some (result,
                 handleError init.[i] "$Too_many_elements_in_initialiser" s)
      else if negb (Expr.empty
                      (default expression_null
                               (result !! Z.to_nat current)))
      then recordInitialiser rec type init n (S i) (current + 1) result
             (handleError init.[i] "$Multiple_initialisers_for_field" s)
      else
        match rec (Ty.getField type (Z.to_nat current)) init.[i] s with
        | None => None
        | Some (r, s1) =>
            recordInitialiser rec type init n (S i) (current + 1)
                              (<[Z.to_nat current := r]> result) s1
        end
  end.

(** Checks whether init is a valid initialiser for a variable or
    constant of the given type.  For record types, the initialiser is
    reordered to fit the order of the fields and the new initialiser is
    returned.  [None]: the recursion is deeper than [fuel]. *)
Fixpoint checkInitialiser (fuel : nat) (type : type_t)
         (init : expression_t) (s : system_t) : initResult :=
  match fuel with
  | O => None
  | S fuel =>
      if areAssignmentCompatible type (Expr.getType init) true
      then Some (init, s)
      else if Ty.isArray type && (Expr.getKind init =k LIST)
      then
        match arrayInitialiser (checkInitialiser fuel) (Ty.getSub type)
                init (Ty.size (Expr.getType init)) O
                (replicate (Expr.getSize init) expression_null) s with
        | None => None
        | Some (result, s1) =>
            Some (Expr.createNary LIST result (Expr.getPosition init) type,
                  s1)
        end
      else if Ty.isRecord type || (Expr.getKind init =k LIST)
      then
        match recordInitialiser (checkInitialiser fuel) type init
                (Ty.size (Expr.getType init)) O 0
                (replicate (Ty.getRecordSize type) expression_null) s with
        | None => None
        | Some (result, s1) =>
            (* Check that all fields do have an initialiser. *)
            let s2 := if existsb Expr.empty result
                      then handleError init "$Incomplete_initialiser" s1
                      else s1 in
            Some (Expr.createNary LIST result (Expr.getPosition init) type,
                  s2)
        end
      else Some (init, handleError init "$Invalid_initialiser" s)
  end.

(** *** Operands of statistical queries *)

Definition checkNrOfRuns (runs : expression_t) (s : system_t)
  : bool * system_t :=
  if negb (isCompileTimeComputable runs)
  then (false, handleError runs "$Must_be_computable_at_compile_time" s)
  else if negb (isConstantInteger runs)
  then (false, handleError runs "$Integer_expected" s)
  else (true, s).

Definition checkBoundTypeOrBoundedExpr (boundTypeOrExpr : expression_t)
           (s : system_t) : bool * system_t :=
  if negb (isConstantInteger boundTypeOrExpr)
     && negb (isClock boundTypeOrExpr)
  then (false, handleError boundTypeOrExpr "$Clock_expected" s)
  else (true, s).

Definition checkBound (bound : expression_t) (s : system_t)
  : bool * system_t :=
  if negb (isCompileTimeComputable bound)
  then (false, handleError bound "$Must_be_computable_at_compile_time" s)
  else if negb (isIntegral bound)
  then (false, handleError bound "$Integer_expected" s)
  else (true, s).

Definition checkPredicate (predicate : expression_t) (s : system_t)
  : bool * system_t :=
  if negb (isIntegral predicate) && negb (isConstraint predicate)
  then (false, handleError predicate "$Boolean_expected" s)
  else if changesAnyVariable predicate
  then (false, handleError predicate "$Property_must_be_side-effect_free" s)
  else (true, s).

Definition checkMonitoredExpr (expr : expression_t) (s : system_t)
  : bool * system_t :=
  if negb (isIntegral expr) && negb (isClock expr)
     && negb (isDoubleValue expr)
     && negb (Ty.is_ (Expr.getType expr) DOUBLEINVGUARD)
     && negb (isConstraint expr)
  then (false, handleError expr "$Integer_or_clock_expected" s)
  else if changesAnyVariable expr
  then (false, handleError expr "$Property_must_be_side-effect_free" s)
  else (true, s).

(** [for (int i = 3; i < nb; ++i) if (!checkMonitoredExpr(expr[i]))
    return false;] over the expressions [expr[3] .. expr[nb-1]]. *)
Fixpoint checkMonitoredExprs (exprs : list expression_t) (s : system_t)
  : bool * system_t :=
  match exprs with
  | [] => (true, s)
  | e :: rest =>
      let (ok, s1) := checkMonitoredExpr e s in
      if ok then checkMonitoredExprs rest s1 else (false, s1)
  end.

(** *** Expressions *)

Definition checkResult : Type := option (bool * expression_t * system_t).

Definition primitive (k : kind_t) : type_t := Ty.createPrimitive k.

(** The loop of the FUNCALL case: [result &= checkParameterCompatible
    (type[i + 1], expr[i + 1])] for [i] from [i] on, [n] iterations. *)
Fixpoint checkArguments (type : type_t) (expr : expression_t) (n i : nat)
         (result : bool) (s : system_t) : bool * system_t :=
  match n with
  | O => (result, s)
  | S n =>
      let (ok, s1) :=
        checkParameterCompatible (Ty.get type (S i)) expr.[S i] s in
      checkArguments type expr n (S i) (result && ok) s1
  end.

(** The switch of [checkExpression] on the kind of [expr], whose
    sub-expressions are checked.  [recheck] is [checkExpression] itself
    (the FUNCALL case checks [expr[0]] once more).  The result is the
    way the switch is left, the expression (annotated further by the
    FUNCALL case) and the system.  The cases are those of the kinds of
    [kind_t]; the cases of the source for the dynamic templates (SPAWN,
    NUMOF, EXIT, SUMDYNAMIC), the mathematical functions, the games and
    refinement properties and the other statistical queries are not part
    of the embedding. *)
Definition checkKind (recheck : expression_t -> system_t -> checkResult)
           (expr : expression_t) (s : system_t)
  : option (outcome * expression_t * system_t) :=
  let e0 := expr.[0] in
  let e1 := expr.[1] in
  let e2 := expr.[2] in
  let break (type : type_t) := Some (Break type, expr, s) in
  let fail (e : expression_t) (msg : string) :=
    Some (Return false, expr, handleError e msg s) in
  match Expr.getKind expr with
  | FRACTION =>
      break (if isIntegral e0 && isIntegral e1 then primitive FRACTION
             else type_null)
  | PLUS =>
      break (if isIntegral e0 && isIntegral e1 then primitive INT
             else if (isInteger e0 && isClock e1)
                     || (isClock e0 && isInteger e1)
             then primitive CLOCK
             else if (isDiff e0 && isInteger e1)
                     || (isInteger e0 && isDiff e1)
             then primitive DIFF
             else if isNumber e0 && isNumber e1 then primitive DOUBLE
             else type_null)
  | MINUS =>
      break (if isIntegral e0 && isIntegral e1 then primitive INT
             else if isClock e0 && isInteger e1 then primitive CLOCK
             else if (isDiff e0 && isInteger e1)
                     || (isInteger e0 && isDiff e1)
                     || (isClock e0 && isClock e1)
             then primitive DIFF
             else if isNumber e0 && isNumber e1 then primitive DOUBLE
             else type_null)
  | AND =>
      break (if isIntegral e0 && isIntegral e1 then primitive BOOL
             else if isInvariant e0 && isInvariant e1
             then primitive INVARIANT
             else if isInvariantWR e0 && isInvariantWR e1
             then primitive INVARIANT_WR
             else if isGuard e0 && isGuard e1 then primitive GUARD
             else if isConstraint e0 && isConstraint e1
             then primitive CONSTRAINT
             else if isFormula e0 && isFormula e1 then primitive FORMULA
             else type_null)
  | OR =>
      break (if isIntegral e0 && isIntegral e1 then primitive BOOL
             else if isIntegral e0 && isInvariant e1
             then primitive INVARIANT
             else if isInvariant e0 && isIntegral e1
             then primitive INVARIANT
             else if isIntegral e0 && isInvariantWR e1
             then primitive INVARIANT_WR
             else if isInvariantWR e0 && isIntegral e1
             then primitive INVARIANT_WR
             else if isIntegral e0 && isGuard e1 then primitive GUARD
             else if isGuard e0 && isIntegral e1 then primitive GUARD
             else if isConstraint e0 && isConstraint e1
             then primitive CONSTRAINT
             else type_null)
  | XOR =>
      break (if isIntegral e0 && isIntegral e1 then primitive BOOL
             else type_null)
  | EQ =>
      break (if (isClock e0 && isClock e1)
                || (isClock e0 && isInteger e1)
                || (isInteger e0 && isClock e1)
                || (isDiff e0 && isInteger e1)
                || (isInteger e0 && isDiff e1)
             then primitive GUARD
             else if areEqCompatible (Expr.getType e0) (Expr.getType e1)
             then primitive BOOL
             else if (Ty.is_ (Expr.getType e0) RATE
                      && (isIntegral e1 || isDoubleValue e1))
                     || ((isIntegral e0 || isDoubleValue e0)
                         && Ty.is_ (Expr.getType e1) RATE)
             then primitive INVARIANT_WR
             else if isNumber e0 && isNumber e1 then primitive BOOL
             else type_null)
  | NEQ =>
      break (if areEqCompatible (Expr.getType e0) (Expr.getType e1)
             then primitive BOOL
             else if (isClock e0 && isClock e1)
                     || (isClock e0 && isInteger e1)
                     || (isInteger e0 && isClock e1)
                     || (isDiff e0 && isInteger e1)
                     || (isInteger e0 && isDiff e1)
             then primitive CONSTRAINT
             else if isNumber e0 && isNumber e1 then primitive BOOL
             else type_null)
  | GE | GT | LE | LT =>
      break (if isIntegral e0 && isIntegral e1 then primitive BOOL
             else if (isClock e0 && isClock e1)
                     || (isClock e0 && isBound e1)
                     || (isClock e1 && isBound e0)
                     || (isDiff e0 && isBound e1)
                     || (isDiff e1 && isBound e0)
             then primitive INVARIANT
             else if (isClock e0 && isInteger e1)
                     || (isInteger e0 && isClock e1)
             then primitive GUARD
             else if isNumber e0 && isNumber e1 then primitive BOOL
             else type_null)
  | MULT | DIV | MIN | MAX =>
      break (if isIntegral e0 && isIntegral e1 then primitive INT
             else if isNumber e0 && isNumber e1 then primitive DOUBLE
             else type_null)
  | MOD | BIT_AND | BIT_OR | BIT_XOR | BIT_LSHIFT | BIT_RSHIFT =>
      break (if isIntegral e0 && isIntegral e1 then primitive INT
             else type_null)
  | NOT =>
      break (if isIntegral e0 then primitive BOOL
             else if isConstraint e0 then primitive CONSTRAINT
             else type_null)
  | UNARY_MINUS =>
      break (if isIntegral e0 then primitive INT
             else if isNumber e0 then primitive DOUBLE
             else type_null)
  | RATE =>
      break (if isCost e0 || isClock e0 then primitive RATE
             else type_null)
  | ASSIGN =>
      if negb (areAssignmentCompatible (Expr.getType e0) (Expr.getType e1)
                                       false)
      then fail expr "$Incompatible_types"
      else if negb (isModifiableLValue e0)
      then fail e0 "$Left_hand_side_value_expected"
      else break (Expr.getType e0)
  | ASSPLUS =>
      let s1 :=
        if (negb (isInteger e0) && negb (isCost e0)) || negb (isIntegral e1)
        then handleError expr
               "$Increment_operator_can_only_be_used_for_integers_and_cost_variables"
               s
        else if negb (isModifiableLValue e0)
        then handleError e0 "$Left_hand_side_value_expected" s
        else s in
      Some (Break (Expr.getType e0), expr, s1)
  | ASSMINUS | ASSDIV | ASSMOD | ASSMULT | ASSAND | ASSOR | ASSXOR
  | ASSLSHIFT | ASSRSHIFT =>
      if negb (isIntegral e0) || negb (isIntegral e1)
      then fail expr
             "$Non-integer_types_must_use_regular_assignment_operator"
      else if negb (isModifiableLValue e0)
      then fail e0 "$Left_hand_side_value_expected"
      else break (Expr.getType e0)
  | POSTINCREMENT | PREINCREMENT | POSTDECREMENT | PREDECREMENT =>
      if negb (isModifiableLValue e0)
      then fail e0 "$Left_hand_side_value_expected"
      else if negb (isInteger e0)
      then fail expr "$Integer_expected"
      else break (primitive INT)
  | INLINEIF =>
      if negb (isIntegral e0)
      then fail expr "$First_argument_of_inline_if_must_be_an_integer"
      else if negb (areInlineIfCompatible (Expr.getType e1)
                                          (Expr.getType e2))
      then fail expr "$Incompatible_arguments_to_inline_if"
      else break (Expr.getType e1)
  | COMMA =>
      if negb (isAssignable (Expr.getType e0)) && negb (isVoid e0)
      then fail e0 "$Incompatible_type_for_comma_expression"
      else if negb (isAssignable (Expr.getType e1)) && negb (isVoid e1)
      then fail e1 "$Incompatible_type_for_comma_expression"
      else Some (Break (Expr.getType e1), expr, checkIgnoredValue e0 s)
  | FUNCALL =>
      match recheck e0 s with
      | None => None
      | Some (_, e0', s1) =>
          let expr := Expr.setSub expr (<[O := e0']> (Expr.sub expr)) in
          let type := Expr.getType expr.[0] in
          match Ty.size type with
          | O =>
              (* [type.size() - 1] wraps around and [type[1]] fails its
                 assertion: the call does not return. *)
              None
          | S parameters =>
              let (result, s2) :=
                checkArguments type expr parameters O true s1 in
              Some (Return result, expr, s2)
          end
      end
  | ARRAY =>
      let arg1 := Expr.getType e0 in
      let arg2 := Expr.getType e1 in
      if negb (Ty.isArray arg1) then fail e0 "$Array_expected"
      else
        let type := Ty.getSub arg1 in
        if Ty.isInteger (Ty.getArraySize arg1) && Ty.isIntegral arg2
        then break type
        else if Ty.isScalar (Ty.getArraySize arg1) && Ty.isScalar arg2
        then if negb (isSameScalarType (Ty.getArraySize arg1) arg2)
             then fail e1 "$Incompatible_type"
             else break type
        else Some (Break type, expr, handleError e1 "$Incompatible_type" s)
  | FORALL =>
      let s1 :=
        checkType (match Expr.getSymbol e0 with
                   | symbol_null => type_null
                   | symbol_data _ t => t
                   end) s in
      let (type, s2) :=
        if isIntegral e1 then (primitive BOOL, s1)
        else if isInvariant e1 then (primitive INVARIANT, s1)
        else if isInvariantWR e1 then (primitive INVARIANT_WR, s1)
        else if isGuard e1 then (primitive GUARD, s1)
        else if isConstraint e1 then (primitive CONSTRAINT, s1)
        else (type_null, handleError e1 "$Boolean_expected" s1) in
      Some (Break type, expr,
            if changesAnyVariable e1
            then handleError e1 "$Expression_must_be_side-effect_free" s2
            else s2)
  | EXISTS =>
      let s1 :=
        checkType (match Expr.getSymbol e0 with
                   | symbol_null => type_null
                   | symbol_data _ t => t
                   end) s in
      let (type, s2) :=
        if isIntegral e1 then (primitive BOOL, s1)
        else if isConstraint e1 then (primitive CONSTRAINT, s1)
        else (type_null, handleError e1 "$Boolean_expected" s1) in
      Some (Break type, expr,
            if changesAnyVariable e1
            then handleError e1 "$Expression_must_be_side-effect_free" s2
            else s2)
  | SUM =>
      let s1 :=
        checkType (match Expr.getSymbol e0 with
                   | symbol_null => type_null
                   | symbol_data _ t => t
                   end) s in
      let (type, s2) :=
        if isIntegral e1 then (primitive INT, s1)
        else if isNumber e1 then (primitive DOUBLE, s1)
        else (type_null, handleError e1 "$Number_expected" s1) in
      Some (Break type, expr,
            if changesAnyVariable e1
            then handleError e1 "$Expression_must_be_side-effect_free" s2
            else s2)
  | AF | AG | EF | EG =>
      break (if isFormula e0 then primitive FORMULA else type_null)
  | SIMULATEREACH | SIMULATE =>
      let (ok0, s0) := checkNrOfRuns e0 s in
      let (ok1, s1) :=
        if ok0 && (Expr.getValue e0 <=? 0)
        then (false, handleError e0 "$Invalid_run_count" s0)
        else (ok0, s0) in
      let (ok2, s2) := checkBoundTypeOrBoundedExpr e1 s1 in
      let (ok3, s3) := checkBound e2 s2 in
      if negb (ok1 && ok2 && ok3) then Some (Return false, expr, s3)
      else
        let nb : Z := Z.of_nat (Expr.getSize expr) in
        let reach := Expr.getKind expr =k SIMULATEREACH in
        let nb := if reach then nb - 2 else nb in
        let (okr, s4) :=
          if reach
          then let (ok4, s4) := checkPredicate expr.[Z.to_nat nb] s3 in
               let (ok5, s5) := checkNrOfRuns expr.[Z.to_nat (nb + 1)] s4 in
               (ok4 && ok5, s5)
          else (true, s3) in
        if negb okr then Some (Return false, expr, s4)
        else
          let monitored :=
            take (Z.to_nat (nb - 3)) (drop 3 (Expr.sub expr)) in
          let (okm, s5) := checkMonitoredExprs monitored s4 in
          if negb okm then Some (Return false, expr, s5)
          else Some (Break (primitive FORMULA), expr, s5)
  | _ => Some (Return true, expr, s)
  end.

(** [ok &= checkExpression(expr[i])] for the sub-expressions [cs]. *)
Fixpoint checkSubExpressions
         (rec : expression_t -> system_t -> checkResult)
         (cs : list expression_t) (s : system_t)
  : option (bool * list expression_t * system_t) :=
  match cs with
  | [] => Some (true, [], s)
  | c :: rest =>
      match rec c s with
      | None => None
      | Some (ok, c', s1) =>
          match checkSubExpressions rec rest s1 with
          | None => None
          | Some (oks, rest', s2) => Some (ok && oks, c' :: rest', s2)
          end
      end
  end.

(** Type check the expression: assigns a type to every subexpression
    and reports errors by [handleError].  The result is the value
    returned (true if no type errors were found), the annotated
    expression and the system; [None]: the recursion is deeper than
    [fuel], or the C++ call does not return. *)
Fixpoint checkExpression (fuel : nat) (expr : expression_t) (s : system_t)
  : checkResult :=
  if Expr.empty expr then Some (true, expr, s)
  else
    match fuel with
    | O => None
    | S fuel =>
        match checkSubExpressions (checkExpression fuel)
                                  (Expr.sub expr) s with
        | None => None
        | Some (ok, cs, s1) =>
            let expr := Expr.setSub expr cs in
            if negb ok then Some (false, expr, s1)
            else
              match checkKind (checkExpression fuel) expr s1 with
              | None => None
              | Some (Return ok, expr, s2) => Some (ok, expr, s2)
              | Some (Break type, expr, s2) =>
                  if Ty.unknown type
                  then Some (false, expr, handleError expr "$Type_error" s2)
                  else Some (true, Expr.setType expr type, s2)
              end
        end
    end.

(** *** Rate decomposition and states *)

(** [invariant = invariant.empty() ? expr : createBinary(AND, invariant,
    expr, expr.getPosition(), createPrimitive(kind))]. *)
Definition conjoin (invariant expr : expression_t) (kind : kind_t)
  : expression_t :=
  if Expr.empty invariant then expr
  else Expr.createBinary AND invariant expr (Expr.getPosition expr)
                         (primitive kind).

(** [RateDecomposer::decompose]; the decomposer object is threaded
    through the calls.  [None]: an assertion of the source fails. *)
Fixpoint decompose (expr : expression_t) (inforall : bool)
         (d : RateDecomposer.t) : option RateDecomposer.t :=
  if negb (isInvariantWR expr) then None
  else if isInvariant expr
  then
    Some (RateDecomposer.mk
            (RateDecomposer.costRate d)
            (if negb inforall
             then conjoin (RateDecomposer.invariant d) expr INVARIANT
             else RateDecomposer.invariant d)
            (if Expr.getKind expr =k LT then true
             else RateDecomposer.hasStrictInvariant d)
            (RateDecomposer.hasClockRates d)
            (RateDecomposer.countCostRates d))
  else
    match expr with
    | expression_null => None
    | expression_data k _ _ _ type cs =>
        if k =k AND
        then
          match cs with
          | e0 :: e1 :: _ =>
              match decompose e0 inforall d with
              | None => None
              | Some d1 => decompose e1 inforall d1
              end
          | _ => None
          end
        else if k =k EQ
        then
          let r0 := Ty.getKind (Expr.getType expr.[0]) =k RATE in
          let r1 := Ty.getKind (Expr.getType expr.[1]) =k RATE in
          if negb (xorb r0 r1) then None
          else
            let left := if r0 then expr.[0].[0] else expr.[1].[0] in
            let right := if r0 then expr.[1] else expr.[0] in
            if isCost left
            then
              Some (RateDecomposer.mk
                      right
                      (RateDecomposer.invariant d)
                      (RateDecomposer.hasStrictInvariant d)
                      (RateDecomposer.hasClockRates d)
                      (S (RateDecomposer.countCostRates d)))
            else
              Some (RateDecomposer.mk
                      (RateDecomposer.costRate d)
                      (if negb inforall
                       then conjoin (RateDecomposer.invariant d) expr
                                    INVARIANT_WR
                       else RateDecomposer.invariant d)
                      (RateDecomposer.hasStrictInvariant d)
                      true
                      (RateDecomposer.countCostRates d))
        else if negb (Ty.is_ type INVARIANT_WR) || negb (k =k FORALL)
        then None
        else
          (* Enter the forall to look for clock rates but don't record
             them, rather the forall expression. *)
          match cs with
          | _ :: e1 :: _ =>
              match decompose e1 true d with
              | None => None
              | Some d1 =>
                  Some (RateDecomposer.mk
                          (RateDecomposer.costRate d1)
                          (conjoin (RateDecomposer.invariant d1) expr
                                   INVARIANT_WR)
                          (RateDecomposer.hasStrictInvariant d1)
                          (RateDecomposer.hasClockRates d1)
                          (RateDecomposer.countCostRates d1))
              end
          | _ => None
          end
    end.

(** The invariant part of [visitState], once [checkExpression] has
    accepted the invariant. *)
Definition visitInvariant (state : state_t) (s : system_t)
  : option (state_t * system_t) :=
  let inv := invariant state in
  if negb (isInvariantWR inv)
  then Some (state,
             handleError inv
               ("$Expression_of_type " ++ toString (Expr.getType inv)
                ++ " $cannot_be_used_as_an_invariant")%string s)
  else if changesAnyVariable inv
  then Some (state, handleError inv "$Invariant_must_be_side-effect_free" s)
  else
    match decompose inv false RateDecomposer.init with
    | None => None
    | Some decomposer =>
        let state :=
          mkState (RateDecomposer.invariant decomposer)
                  (exponentialRate state)
                  (RateDecomposer.costRate decomposer) in
        let s1 :=
          if (1 <? RateDecomposer.countCostRates decomposer)%nat
          then handleError (invariant state)
                           "$Only_one_cost_rate_is_allowed" s
          else s in
        let s2 :=
          if RateDecomposer.hasClockRates decomposer
          then recordStopWatch s1 else s1 in
        let s3 :=
          if RateDecomposer.hasStrictInvariant decomposer
          then recordStrictInvariant s2 else s2 in
        Some (state, s3)
    end.

(** The first statement of [visitState]: the invariant is checked and
    decomposed. *)
Definition visitStateInvariant (fuel : nat) (state : state_t) (s : system_t)
  : option (state_t * system_t) :=
  if negb (Expr.empty (invariant state))
  then
    match checkExpression fuel (invariant state) s with
    | None => None
    | Some (ok, inv, s1) =>
        let state := mkState inv (exponentialRate state)
                             (costRate state) in
        if ok then visitInvariant state s1 else Some (state, s1)
    end
  else Some (state, s).

(** The second statement of [visitState]: the exponential rate. *)
Definition visitStateExponentialRate (fuel : nat) (state : state_t)
           (s : system_t) : option (state_t * system_t) :=
  if negb (Expr.empty (exponentialRate state))
  then
    match checkExpression fuel (exponentialRate state) s with
    | None => None
    | Some (ok, rate, s1) =>
        let state := mkState (invariant state) rate (costRate state) in
        if ok
           && negb (isIntegral rate)
           && negb (Expr.getKind rate =k FRACTION)
           && negb (Ty.isDouble (Expr.getType rate))
        then Some (state, handleError rate "$Number_expected" s1)
        else Some (state, s1)
    end
  else Some (state, s).

(** [TypeChecker::visitState]. *)
Definition visitState (fuel : nat) (state : state_t) (s : system_t)
  : option (state_t * system_t) :=
  match visitStateInvariant fuel state s with
  | None => None
  | Some (state, s1) => visitStateExponentialRate fuel state s1
  end.

End TypeChecker.

Arguments checkKind changesAnyVariable collectPossibleReads
  compileTimeComputableValues checkType recheck expr s : simpl never.

(** ** Examples: the scenarios of the specification *)

Module Scenario.

(** No expression of the scenarios has side effects or reads a
    variable whose value is not fixed at compile time. *)
Definition noChange (_ : expression_t) : bool := false.
Definition noReads (_ : expression_t) : list symbol_t := [].
Definition noValues (_ : symbol_t) : bool := false.
Definition typesOk (_ : type_t) (s : system_t) : system_t := s.
Definition kindName (_ : type_t) : string := "type".

Definition system0 : system_t := mkSystem [] [] false false.

Definition ident (name : string) (t : type_t) : expression_t :=
  Expr.createIdentifier (symbol_data name t) (O, O).
Definition const (v : Z) : expression_t := Expr.createConstant v.
Definition unary (k : kind_t) (e : expression_t) : expression_t :=
  Expr.createUnary k e (O, O) type_null.
Definition binary (k : kind_t) (l r : expression_t) : expression_t :=
  Expr.createBinary k l r (O, O) type_null.

Definition check (fuel : nat) (e : expression_t) (s : system_t)
  : checkResult :=
  checkExpression noChange noReads noValues typesOk fuel e s.

Definition x : expression_t := ident "x" (primitive CLOCK).
Definition c : expression_t := ident "c" (primitive COST).
Definition i : expression_t := ident "i" (primitive INT).

(** [x <= 3 && c' == 2] *)
Definition invariant2 : expression_t :=
  binary AND (binary LE x (const 3)) (binary EQ (unary RATE c) (const 2)).


(** [x < 3], a clock compared with an integer. *)
Definition clockBound : expression_t := binary LT x (const 3).

(** [x += 1] on a clock and [i += 1] on an integer. *)
Definition clockIncrement : expression_t := binary ASSPLUS x (const 1).
Definition intIncrement : expression_t := binary ASSPLUS i (const 1).

(** [int f(int a)] and the call [f(1, 2)]. *)
Definition f : expression_t :=
  ident "f" (Ty.createFunction (primitive INT) [("a", primitive INT)]).
Definition call2 : expression_t :=
  Expr.createNary FUNCALL [f; const 1; const 2] (O, O) type_null.

(** [simulate[<=10; runs] { x }]: the operands are the number of runs,
    the kind of bound, the bound and the monitored expressions. *)
Definition simulate (runs : Z) : expression_t :=
  Expr.createNary SIMULATE [const runs; const 0; const 10; x] (O, O)
                  type_null.

(** [struct { int x; int y; }], [void], the scalar set
    [typedef scalar[3] S] and a reference to it. *)
Definition point : type_t :=
  Ty.createRecord [("x", primitive INT); ("y", primitive INT)].
Definition void : type_t := primitive VOID_TYPE.
Definition scalars : type_t :=
  Ty.createLabel "S" (Ty.createRange (primitive SCALAR)
                                     (bound_const 0) (bound_const 2)).
Definition scalarsRef : type_t := Ty.createPrefix REF scalars.

(** The initialiser [{ y = 1, x = 2 }]. *)
Definition init9 : expression_t :=
  Expr.createNary LIST [const 1; const 2] (O, O)
    (Ty.createRecord [("y", primitive INT); ("x", primitive INT)]).

Definition visit (fuel : nat) (inv : expression_t)
  : option (state_t * system_t) :=
  visitState noChange noReads noValues typesOk kindName fuel
             (mkState inv expression_null expression_null) system0.

End Scenario.

(** ** Notions used to state the properties *)

(** The relational operators [<], [<=], [>=], [>]. *)
Definition relational (k : kind_t) : bool :=
  match k with GE | GT | LE | LT => true | _ => false end.

(** The compound assignments other than [+=]. *)
Definition compoundAssignment (k : kind_t) : bool :=
  match k with
  | ASSMINUS | ASSDIV | ASSMOD | ASSMULT | ASSAND | ASSOR | ASSXOR
  | ASSLSHIFT | ASSRSHIFT => true
  | _ => false
  end.

(** *** Invariants with rates *)

(** In a rate equation [rate(x) == e] or [e == rate(x)], the variable [x]
    and the value [e]. *)
Definition rateOperand (e : expression_t) : expression_t :=
  if Ty.getKind (Expr.getType e.[0]) =k RATE then e.[0].[0] else e.[1].[0].

Definition rateValue (e : expression_t) : expression_t :=
  if Ty.getKind (Expr.getType e.[0]) =k RATE then e.[1] else e.[0].

(** An equation between a rate and a value that is not itself a rate. *)
Definition isRateEquation (e : expression_t) : bool :=
  isInvariantWR e && negb (isInvariant e) && (Expr.getKind e =k EQ)
  && xorb (Ty.getKind (Expr.getType e.[0]) =k RATE)
          (Ty.getKind (Expr.getType e.[1]) =k RATE).

(** A cost-rate equation [rate(c) == e] with [c] of type cost, and a
    clock-rate equation. *)
Definition isCostRateEquation (e : expression_t) : bool :=
  isRateEquation e && isCost (rateOperand e).

Definition isClockRateEquation (e : expression_t) : bool :=
  isRateEquation e && negb (isCost (rateOperand e)).

(** [conjunction e ps rs]: the invariant [e] is a conjunction of the pure
    invariants [ps] and of cost-rate equations with the values [rs], both
    in the order of the text. *)
Inductive conjunction
  : expression_t -> list expression_t -> list expression_t -> Prop :=
  | conjunction_invariant e :
      isInvariant e = true -> conjunction e [e] []
  | conjunction_costRate e :
      isCostRateEquation e = true -> conjunction e [] [rateValue e]
  | conjunction_and p v sy t e0 e1 ps0 rs0 ps1 rs1 :
      isInvariantWR (expression_data AND p v sy t [e0; e1]) = true ->
      isInvariant (expression_data AND p v sy t [e0; e1]) = false ->
      conjunction e0 ps0 rs0 ->
      conjunction e1 ps1 rs1 ->
      conjunction (expression_data AND p v sy t [e0; e1])
                  (ps0 ++ ps1) (rs0 ++ rs1).

(** [decomposition inforall e residual rs]: the invariant with rates [e]
    is a conjunction of pure invariants, rate equations and universally
    quantified invariants; [residual] lists the conjuncts that stay in
    the invariant, each with the kind of the conjunction that adds it,
    and [rs] the values of the cost-rate equations, those under a
    quantifier included. *)
Inductive decomposition
  : bool -> expression_t -> list (expression_t * kind_t)
    -> list expression_t -> Prop :=
  | decomposition_invariant inforall e :
      isInvariant e = true ->
      decomposition inforall e
                    (if inforall then [] else [(e, INVARIANT)]) []
  | decomposition_costRate inforall e :
      isCostRateEquation e = true ->
      decomposition inforall e [] [rateValue e]
  | decomposition_clockRate inforall e :
      isClockRateEquation e = true ->
      decomposition inforall e
                    (if inforall then [] else [(e, INVARIANT_WR)]) []
  | decomposition_and inforall p v sy t e0 e1 res0 rs0 res1 rs1 :
      isInvariantWR (expression_data AND p v sy t [e0; e1]) = true ->
      isInvariant (expression_data AND p v sy t [e0; e1]) = false ->
      decomposition inforall e0 res0 rs0 ->
      decomposition inforall e1 res1 rs1 ->
      decomposition inforall (expression_data AND p v sy t [e0; e1])
                    (res0 ++ res1) (rs0 ++ rs1)
  | decomposition_forall inforall p v sy t e0 e1 res rs :
      Ty.is_ t INVARIANT_WR = true ->
      isInvariant (expression_data FORALL p v sy t [e0; e1]) = false ->
      decomposition true e1 res rs ->
      decomposition inforall (expression_data FORALL p v sy t [e0; e1])
                    (res ++ [(expression_data FORALL p v sy t [e0; e1],
                              INVARIANT_WR)])
                    rs.

(** The conjunction [inv && c1 && ... && cn], nested to the left, each
    node at the position of its right operand. *)
Definition conjoinAll (inv : expression_t)
           (conjuncts : list (expression_t * kind_t)) : expression_t :=
  fold_left
    (fun inv c =>
       Expr.createBinary AND inv (fst c) (Expr.getPosition (fst c))
                         (primitive (snd c)))
    conjuncts inv.

(** *** Equivalence of types *)

(** No node of the type has the kind [REF] or [EF]. *)
Fixpoint refFree (t : type_t) : bool :=
  match t with
  | type_null => true
  | type_data k _ cs =>
      negb (k =k REF) && negb (k =k EF)
      && forallb (fun c => refFree (snd c)) cs
  end.

(** A scalar set: [scalar], possibly ranged, named and prefixed by const
    or meta. *)
Inductive scalarSet : type_t -> Prop :=
  | scalarSet_scalar r cs : scalarSet (type_data SCALAR r cs)
  | scalarSet_label r l c cs :
      scalarSet c -> scalarSet (type_data LABEL r ((l, c) :: cs))
  | scalarSet_range r l c cs :
      scalarSet c -> scalarSet (type_data RANGE r ((l, c) :: cs))
  | scalarSet_prefix k r l c cs :
      k = CONSTANT \/ k = SYSTEM_META ->
      scalarSet c -> scalarSet (type_data k r ((l, c) :: cs)).

(** The types [areEquivalent] compares: integers, booleans, clocks,
    doubles, channels, scalar sets, records of such types and arrays of
    such types over an integer range or a scalar set. *)
Inductive comparable : type_t -> Prop :=
  | comparable_basic t :
      Ty.isInteger t || Ty.isBoolean t || Ty.isClock t || Ty.isDouble t
      || Ty.isChannel t = true ->
      comparable t
  | comparable_scalar t : scalarSet t -> comparable t
  | comparable_record t :
      Ty.isRecord t = true ->
      (forall i, (i < Ty.getRecordSize t)%nat ->
                 comparable (Ty.getField t i)) ->
      comparable t
  | comparable_array t :
      Ty.isArray t = true ->
      Ty.isInteger (Ty.getArraySize t) = true
      \/ scalarSet (Ty.getArraySize t) ->
      comparable (Ty.getSub t) ->
      comparable t.

(** No scalar set that [areEquivalent] compares in the type carries a
    reference prefix: a scalar type has no [REF] (nor [EF]) node, and
    neither has a scalar set found in the fields of a record, in the
    elements of an array or as the index set of an array.  Integers,
    booleans, clocks, channels and doubles may carry any prefix. *)
Inductive plainScalars : type_t -> Prop :=
  | plainScalars_scalar t :
      Ty.isScalar t = true -> refFree t = true -> plainScalars t
  | plainScalars_record t :
      Ty.isRecord t = true ->
      (forall i, (i < Ty.getRecordSize t)%nat ->
                 plainScalars (Ty.getField t i)) ->
      plainScalars t
  | plainScalars_array t :
      Ty.isArray t = true ->
      (Ty.isScalar (Ty.getArraySize t) = true ->
       refFree (Ty.getArraySize t) = true) ->
      plainScalars (Ty.getSub t) ->
      plainScalars t
  | plainScalars_other t :
      Ty.isScalar t || Ty.isRecord t || Ty.isArray t = false ->
      plainScalars t.

(** The type is of one of the eight categories [areEquivalent] has a
    case for. *)
Definition compared (t : type_t) : bool :=
  Ty.isInteger t || Ty.isBoolean t || Ty.isClock t || Ty.isChannel t
  || Ty.isRecord t || Ty.isArray t || Ty.isScalar t || Ty.isDouble t.

(** The prefixes [isSameScalarType] strips from its first and from its
    second argument. *)
Definition strippedLeft (t : type_t) : bool :=
  (Ty.getKind t =k REF) || (Ty.getKind t =k CONSTANT)
  || (Ty.getKind t =k SYSTEM_META).

Definition strippedRight (t : type_t) : bool :=
  (Ty.getKind t =k EF) || (Ty.getKind t =k CONSTANT)
  || (Ty.getKind t =k SYSTEM_META).

(** *** Initialisers of records *)

(** The fields designated by the entries of a list initialiser, given
    the labels of the entries: an entry with a label designates the field
    of that name (-1 if there is none), an entry without label the field
    after the one designated by the previous entry, and the first field
    when it is the first entry. *)
Fixpoint designations (type : type_t) (labels : list string) (current : Z)
  : list Z :=
  match labels with
  | [] => []
  | label :: rest =>
      let field := if String.eqb label "" then current
                   else Ty.findIndexOf type label in
      field :: designations type rest (field + 1)
  end.

Definition designated (type : type_t) (init : expression_t) : list Z :=
  designations type (map fst (Ty.children (Expr.getType init))) 0.

(** A list initialiser as the builder makes it: a LIST expression whose
    type is the record of the labels and types of its entries. *)
Definition listInitialiser (init : expression_t) : Prop :=
  Expr.getKind init = LIST
  /\ exists fields,
      Expr.getType init = Ty.createRecord fields
      /\ map snd fields = map Expr.getType (Expr.sub init).

(** The names of the fields of a record type. *)
Definition recordLabels (type : type_t) : list string :=
  map fst (Ty.children (Ty.strip RECORD type)).

(** *** Calls *)

(** The calls in an expression are calls of declared functions, as the
    builder makes them: the first operand of a FUNCALL node is an
    identifier whose type has a result type. *)
Fixpoint wellFormedCalls (e : expression_t) : bool :=
  match e with
  | expression_null => true
  | expression_data k _ _ _ _ cs =>
      forallb wellFormedCalls cs
      && if k =k FUNCALL
         then match cs with
              | expression_data IDENTIFIER _ _ _ t [] :: _ =>
                  negb (Nat.eqb (Ty.size t) O)
              | _ => false
              end
         else true
  end.

Section Notions.

Variable changesAnyVariable : expression_t -> bool.
Variable collectPossibleReads : expression_t -> list symbol_t.
Variable compileTimeComputableValues : symbol_t -> bool.

(** The operands of a SIMULATE or SIMULATEREACH query after the number of
    runs pass their shape checks: the bound type or bounded expression,
    the bound, the monitored expressions and, for SIMULATEREACH, the
    predicate and the second number of runs, which are the last two
    operands. *)
Definition shapeChecks (expr : expression_t) (s : system_t) : bool :=
  let monitored (es : list expression_t) :=
    forallb (fun e => fst (checkMonitoredExpr changesAnyVariable e s)) es in
  let n := Expr.getSize expr in
  fst (checkBoundTypeOrBoundedExpr expr.[1] s)
  && fst (checkBound collectPossibleReads compileTimeComputableValues
                     expr.[2] s)
  && if Expr.getKind expr =k SIMULATEREACH
     then (2 <=? n)%nat
          && fst (checkPredicate changesAnyVariable expr.[n - 2] s)
          && fst (checkNrOfRuns collectPossibleReads
                                compileTimeComputableValues expr.[n - 1] s)
          && monitored (take (n - 5) (drop 3 (Expr.sub expr)))
     else monitored (drop 3 (Expr.sub expr)).

End Notions.

(** ** Further functions of typechecker.cpp *)

(** The guard analyses of [visitEdge]: [hasStrictLowerBound] and
    [hasStrictUpperBound] look for a strict comparison of a clock with an
    integral expression anywhere in the guard. *)
Fixpoint hasStrictLowerBound (expr : expression_t) : bool :=
  match expr with
  | expression_null => false
  | expression_data k _ _ _ _ cs =>
      if existsb hasStrictLowerBound cs then true
      else
        match k with
        | LT => (* int < clock *)
            isIntegral expr.[0] && isClock expr.[1]
        | GT => (* clock > int *)
            isClock expr.[0] && isIntegral expr.[1]
        | _ => false
        end
  end.

Fixpoint hasStrictUpperBound (expr : expression_t) : bool :=
  match expr with
  | expression_null => false
  | expression_data k _ _ _ _ cs =>
      if existsb hasStrictUpperBound cs then true
      else
        match k with
        | GT => (* int > clock *)
            isIntegral expr.[0] && isClock expr.[1]
        | LT => (* clock < int *)
            isClock expr.[0] && isIntegral expr.[1]
        | _ => false
        end
  end.

(** [TypeChecker::checkObservationConstraints]: observations on clock
    constraints are limited to be weak for lower bounds and strict for
    upper bounds, and clock differences are not supported. *)
Fixpoint checkObservationConstraints (expr : expression_t) (s : system_t)
  : system_t :=
  match expr with
  | expression_null => s
  | expression_data k _ _ _ _ cs =>
      let s1 :=
        fold_left (fun s c => checkObservationConstraints c s) cs s in
      let e0 := expr.[0] in
      let e1 := expr.[1] in
      let invalid :=
        match k with
        | LT | GE => (* int < clock, int >= clock *)
            isIntegral e0 && isClock e1
        | LE | GT => (* clock <= int, clock > int *)
            isClock e0 && isIntegral e1
        | EQ | NEQ =>
            (isClock e0 && isIntegral e1) || (isIntegral e0 && isClock e1)
        | _ => false
        end in
      if invalid
      then handleError expr
             "$Clock_lower_bound_must_be_weak_and_upper_bound_strict" s1
      else
        match k with
        | LT | LE | GT | GE | EQ | NEQ => (* No clock differences. *)
            if (isClock e0 && isClock e1)
               || (isDiff e0 && isInteger e1)
               || (isInteger e0 && isDiff e1)
            then handleError expr "$Clock_differences_are_not_supported" s1
            else s1
        | _ => s1
        end
  end.

(** [validReturnType]: the types a function may return.  ([type[0]] of a
    RANGE or LABEL node without subtype fails an assertion of the source;
    here the type is not valid.) *)
Fixpoint validReturnType (type : type_t) : bool :=
  match type with
  | type_null => false
  | type_data k _ cs =>
      match k with
      | RECORD => forallb (fun c => validReturnType (snd c)) cs
      | RANGE | LABEL =>
          match cs with (_, c) :: _ => validReturnType c | [] => false end
      | INT | BOOL | SCALAR | DOUBLE => true
      | _ => false
      end
  end.

(** ** Further notions *)

(** The statement contains a return statement. *)
Fixpoint hasReturn (stat : Statement) : bool :=
  match stat with
  | ReturnStatement _ => true
  | ForStatement _ _ _ s | IterationStatement _ s | WhileStatement _ s
  | DoWhileStatement s _ => hasReturn s
  | BlockStatement _ ss | SwitchStatement _ _ ss | CaseStatement _ _ ss
  | DefaultStatement _ ss => existsb hasReturn ss
  | IfStatement _ t f =>
      hasReturn t || match f with Some s => hasReturn s | None => false end
  | _ => false
  end.

(** [>] for [<] and [<] for [>]. *)
Definition oppositeKind (k : kind_t) : kind_t :=
  match k with LT => GT | GT => LT | k => k end.

(** The expression with every [<] replaced by [>] and every [>] by [<]:
    upper bounds become lower bounds. *)
Fixpoint opposite (e : expression_t) : expression_t :=
  match e with
  | expression_null => expression_null
  | expression_data k p v sy t cs =>
      expression_data (oppositeKind k) p v sy t (map opposite cs)
  end.

(** The expression with every comparison [a < b] written [b > a] and every
    [a > b] written [b < a]. *)
Fixpoint converse (e : expression_t) : expression_t :=
  match e with
  | expression_null => expression_null
  | expression_data k p v sy t cs =>
      match k, map converse cs with
      | LT, [a; b] => expression_data GT p v sy t [b; a]
      | GT, [a; b] => expression_data LT p v sy t [b; a]
      | _, cs' => expression_data k p v sy t cs'
      end
  end.

(** The kinds of the types whose values can be assigned, and the kinds
    found in a valid return type. *)
Definition basicAssignable (k : kind_t) : bool :=
  match k with
  | INT | BOOL | DOUBLE | CLOCK | COST | SCALAR => true
  | _ => false
  end.

Definition returnKind (k : kind_t) : bool :=
  match k with
  | RECORD | RANGE | LABEL | INT | BOOL | SCALAR | DOUBLE => true
  | _ => false
  end.

(** [appended s s']: the errors of [s'] are those of [s] followed by
    further ones; [grown s s']: by at least one more. *)
Definition appended (s s' : system_t) : Prop :=
  exists more, errors s' = errors s ++ more.

Definition grown (s s' : system_t) : Prop :=
  exists more, more <> [] /\ errors s' = errors s ++ more.

(** [reports ok s s']: a check that returned [ok] in the system [s] and
    left the system [s'] only appended errors, and at least one when it
    failed. *)
Definition reports (ok : bool) (s s' : system_t) : Prop :=
  appended s s' /\ (ok = false -> grown s s').

(** The expression without the types attached to its nodes. *)
Fixpoint erase (e : expression_t) : expression_t :=
  match e with
  | expression_null => expression_null
  | expression_data k p v sy _ cs =>
      expression_data k p v sy type_null (map erase cs)
  end.

(** The result of a check without the system it leaves: the value
    returned and the annotated expression. *)
Definition verdict {A : Type} (r : option (A * system_t)) : option A :=
  option_map fst r.

(** The kinds for which the switch of [checkExpression] computes a type:
    the operators, quantifiers and property constructors.  The type of an
    identifier, a literal, a field access or a list is attached when the
    node is built, and that of a call by the builder. *)
Definition hasTypingRule (k : kind_t) : bool :=
  match k with
  | PLUS | MINUS | MULT | DIV | MOD
  | BIT_AND | BIT_OR | BIT_XOR | BIT_LSHIFT | BIT_RSHIFT
  | AND | OR | XOR | MIN | MAX | RATE | FRACTION
  | LT | LE | EQ | NEQ | GE | GT | NOT | UNARY_MINUS
  | ASSIGN | ASSPLUS | ASSMINUS | ASSDIV | ASSMOD | ASSMULT
  | ASSAND | ASSOR | ASSXOR | ASSLSHIFT | ASSRSHIFT
  | POSTINCREMENT | PREINCREMENT | POSTDECREMENT | PREDECREMENT
  | INLINEIF | COMMA | ARRAY | FORALL | EXISTS | SUM
  | AF | AG | EF | EG | SIMULATE | SIMULATEREACH => true
  | _ => false
  end.

(** Every node of the expression that has a typing rule has a known
    type. *)
Fixpoint wellTyped (e : expression_t) : bool :=
  match e with
  | expression_null => true
  | expression_data k _ _ _ t cs =>
      (if hasTypingRule k then negb (Ty.unknown t) else true)
      && forallb wellTyped cs
  end.

(** The commutative operators. *)
Definition commutative (k : kind_t) : bool :=
  match k with
  | PLUS | MULT | MIN | MAX | AND | OR | XOR | BIT_AND | BIT_OR | BIT_XOR =>
      true
  | _ => false
  end.

(** An access path: a variable, or a field or an element of an access
    path that is not a process. *)
Fixpoint accessPath (e : expression_t) : bool :=
  match e with
  | expression_data IDENTIFIER _ _ _ _ _ => true
  | expression_data DOT _ _ _ _ (e0 :: _) =>
      negb (Ty.isProcess (Expr.getType e0)) && accessPath e0
  | expression_data ARRAY _ _ _ _ (e0 :: _) => accessPath e0
  | _ => false
  end.

(** The variable an access path starts from, and the subscripts on the
    path. *)
Fixpoint root (e : expression_t) : expression_t :=
  match e with
  | expression_data DOT _ _ _ _ (e0 :: _)
  | expression_data ARRAY _ _ _ _ (e0 :: _) => root e0
  | _ => e
  end.

Fixpoint subscripts (e : expression_t) : list expression_t :=
  match e with
  | expression_data DOT _ _ _ _ (e0 :: _) => subscripts e0
  | expression_data ARRAY _ _ _ _ (e0 :: rest) =>
      subscripts e0
      ++ [match rest with e1 :: _ => e1 | [] => expression_null end]
  | _ => []
  end.

(** The assignment operators and increments that are rejected when their
    target is not a modifiable l-value: all of them but [+=]. *)
Definition assigns (k : kind_t) : bool :=
  match k with
  | ASSIGN | ASSMINUS | ASSDIV | ASSMOD | ASSMULT | ASSAND | ASSOR | ASSXOR
  | ASSLSHIFT | ASSRSHIFT
  | POSTINCREMENT | PREINCREMENT | POSTDECREMENT | PREDECREMENT => true
  | _ => false
  end.

(** At every node of the expression that assigns, the target is a
    modifiable l-value. *)
Fixpoint targetsModifiable (e : expression_t) : bool :=
  match e with
  | expression_null => true
  | expression_data k _ _ _ _ cs =>
      (if assigns k then isModifiableLValue e.[0] else true)
      && forallb targetsModifiable cs
  end.

(** ** Assignment expressions *)

Section AssignmentExpressions.

Variable changesAnyVariable : expression_t -> bool.
Variable collectPossibleReads : expression_t -> list symbol_t.
Variable compileTimeComputableValues : symbol_t -> bool.
Variable checkType : type_t -> system_t -> system_t.

(** Checks that [expr] is a valid assignment expression: the expression
    of an expression statement, the initialisation or step of a for
    clause, the update of an edge. *)
Definition checkAssignmentExpression (fuel : nat) (expr : expression_t)
           (s : system_t) : checkResult :=
  match checkExpression changesAnyVariable collectPossibleReads
                        compileTimeComputableValues checkType
                        fuel expr s with
  | None => None
  | Some (ok, expr, s1) =>
      if negb ok then Some (false, expr, s1)
      else if negb (isAssignable (Expr.getType expr)) && negb (isVoid expr)
      then Some (false, expr,
                 handleError expr "$Invalid_assignment_expression" s1)
      else if negb (Expr.getKind expr =k CONSTANT)
              || negb (Expr.getValue expr =? 1)
      then Some (true, expr, checkIgnoredValue changesAnyVariable expr s1)
      else Some (true, expr, s1)
  end.

End AssignmentExpressions.

(** ** Further examples *)

Module Samples.

(** [int[0,1]], [int[0,2]], [int a[int[0,3]]] and [int &]. *)
Definition bit : type_t :=
  Ty.createRange (primitive INT) (bound_const 0) (bound_const 1).
Definition trit : type_t :=
  Ty.createRange (primitive INT) (bound_const 0) (bound_const 2).
Definition ints : type_t :=
  Ty.createArray (primitive INT)
                 (Ty.createRange (primitive INT)
                                 (bound_const 0) (bound_const 3)).
Definition intRef : type_t := Ty.createPrefix REF (primitive INT).

(** The variables [a] of type [ints], [r] of type reference to the scalar
    set [S] and [t] of type [S]. *)
Definition a : expression_t := Scenario.ident "a" ints.
Definition r : expression_t := Scenario.ident "r" Scenario.scalarsRef.
Definition t : expression_t := Scenario.ident "t" Scenario.scalars.

(** [a[x]] with a clock [x] as index, and [a[1]]. *)
Definition clockSubscript : expression_t :=
  Scenario.binary ARRAY a Scenario.x.
Definition subscript : expression_t :=
  Scenario.binary ARRAY a (Scenario.const 1).

(** The checked invariant [x < 3]. *)
Definition strictBound : expression_t :=
  Expr.setType Scenario.clockBound (primitive INVARIANT).

(** The initialiser [{ 1, 2 }]. *)
Definition pair : expression_t :=
  Expr.createNary LIST [Scenario.const 1; Scenario.const 2] (O, O)
    (Ty.createRecord [("", primitive INT); ("", primitive INT)]).

(** [{ return 1; }] *)
Definition body : Statement :=
  BlockStatement [] [ReturnStatement (Scenario.const 1)].

(** [i = 1], [1 ? b : i] for a variable [b] of type [int[0,1]],
    [!(x < 3)] and [forall (k : int[0,1]) x < 3]. *)
Definition assignment : expression_t :=
  Scenario.binary ASSIGN Scenario.i (Scenario.const 1).
Definition b : expression_t := Scenario.ident "b" bit.
Definition choice : expression_t :=
  Expr.createNary INLINEIF [Scenario.const 1; b; Scenario.i] (O, O)
                  type_null.
Definition negation : expression_t :=
  Scenario.unary NOT Scenario.clockBound.
Definition k : expression_t := Scenario.ident "k" bit.
Definition universal : expression_t :=
  Scenario.binary FORALL k Scenario.clockBound.

(** The checked rate equation [x' == 2] and the invariant
    [i || x' == 2]. *)
Definition rateEquation : expression_t :=
  Scenario.binary EQ (Scenario.unary RATE Scenario.x) (Scenario.const 2).
Definition checkedRateEquation : expression_t :=
  Expr.setType
    (Scenario.binary EQ
       (Expr.setType (Scenario.unary RATE Scenario.x) (primitive RATE))
       (Scenario.const 2))
    (primitive INVARIANT_WR).
Definition rateDisjunction : expression_t :=
  Scenario.binary OR Scenario.i rateEquation.

End Samples.

(** * Properties *)

(** ** Kinds and types *)

Lemma kind_eqb_eq (k1 k2 : kind_t) : (k1 =k k2) = true <-> k1 = k2.
Proof.
  unfold kind_eqb. rewrite Pos.eqb_eq. split; [| now intros ->].
  destruct k1, k2; simpl; intros H; try reflexivity; discriminate H.
Qed.

Lemma kind_eqb_refl (k : kind_t) : (k =k k) = true.
Proof. now apply kind_eqb_eq. Qed.

Lemma kind_eqb_neq (k1 k2 : kind_t) : (k1 =k k2) = false <-> k1 <> k2.
Proof.
  rewrite <- kind_eqb_eq. destruct (k1 =k k2); split; congruence.
Qed.

(** Induction on expressions, with the hypothesis for all children. *)
Lemma expression_rect' (P : expression_t -> Prop) :
  P expression_null ->
  (forall k p v sy t cs,
      Forall P cs -> P (expression_data k p v sy t cs)) ->
  forall e, P e.
Proof.
  intros Hnull Hdata.
  fix IH 1. intros [|k p v sy t cs]; [exact Hnull|].
  apply Hdata. induction cs as [|c cs IHcs]; constructor.
  - apply IH.
  - exact IHcs.
Qed.

(** ** Statements *)

(** C9: [IfStatement::returns()] is true exactly when the false branch is
    present and both branches return; an if statement without an else
    branch never returns for sure, whatever its true branch does. *)
Theorem IfStatement_returns (cond : expression_t) (trueCase : Statement)
        (falseCase : option Statement) :
  (returns (IfStatement cond trueCase falseCase) = true <->
   exists stat, falseCase = Some stat
                /\ returns trueCase = true /\ returns stat = true)
  /\ returns (IfStatement cond trueCase None) = false.
Proof.
  split.
  - simpl. destruct falseCase as [stat|].
    + rewrite andb_true_iff. split.
      * intros [Ht Hf]. exists stat. auto.
      * intros (stat' & Heq & Ht & Hf). injection Heq as ->. auto.
    + rewrite andb_false_r. split; [discriminate|].
      intros (stat & Heq & _). discriminate Heq.
  - simpl. apply andb_false_r.
Qed.

(** ** L-values *)

Section LValues.

Variable collectPossibleReads : expression_t -> list symbol_t.
Variable compileTimeComputableValues : symbol_t -> bool.

Lemma isModifiableLValue_isLValue (expr : expression_t) :
  isModifiableLValue expr = true -> isLValue expr = true.
Proof.
  induction expr as [|k p v sy t cs IH] using expression_rect';
    [discriminate|].
  destruct k; simpl; try discriminate; try reflexivity.
  - (* INLINEIF *)
    destruct cs as [|e0 [|e1 [|e2 cs]]]; try discriminate.
    inversion IH as [|? ? _ IH']; subst.
    inversion IH' as [|? ? H1 IH'']; subst.
    inversion IH'' as [|? ? H2 _]; subst.
    rewrite !andb_true_iff. intros [[M1 M2] E]. auto.
  - (* COMMA *)
    destruct cs as [|e0 [|e1 cs]]; try discriminate.
    inversion IH as [|? ? _ IH']; subst.
    inversion IH' as [|? ? H1 _]; subst. exact H1.
  - (* ARRAY *)
    destruct cs as [|e0 cs]; try discriminate.
    inversion IH as [|? ? H0 _]; subst. exact H0.
  - (* DOT *)
    destruct cs as [|e0 cs]; try discriminate.
    inversion IH as [|? ? H0 _]; subst.
    destruct (Ty.isProcess (Expr.getType e0)); [discriminate | exact H0].
Qed.

Lemma isUniqueReference_isLValue (expr : expression_t) :
  isUniqueReference collectPossibleReads compileTimeComputableValues expr
  = true ->
  isLValue expr = true.
Proof.
  induction expr as [|k p v sy t cs IH] using expression_rect';
    [discriminate|].
  destruct k; simpl; try discriminate; try reflexivity.
  - (* COMMA *)
    destruct cs as [|e0 [|e1 cs]]; try discriminate.
    inversion IH as [|? ? _ IH']; subst.
    inversion IH' as [|? ? H1 _]; subst. exact H1.
  - (* ARRAY *)
    destruct cs as [|e0 cs]; try discriminate.
    inversion IH as [|? ? H0 _]; subst.
    rewrite andb_true_iff. intros [U _]. auto.
  - (* DOT *)
    destruct cs as [|e0 cs]; try discriminate.
    inversion IH as [|? ? H0 _]; subst. exact H0.
Qed.

End LValues.

(** C8: every modifiable l-value is an l-value, and every unique reference
    is an l-value. *)
Theorem lvalue_analyses
        (collectPossibleReads : expression_t -> list symbol_t)
        (compileTimeComputableValues : symbol_t -> bool)
        (e : expression_t) :
  (isModifiableLValue e = true -> isLValue e = true)
  /\ (isUniqueReference collectPossibleReads compileTimeComputableValues e
      = true -> isLValue e = true).
Proof.
  split.
  - apply isModifiableLValue_isLValue.
  - apply isUniqueReference_isLValue.
Qed.

Lemma lvalue_analyses_witness :
  isModifiableLValue Scenario.i = true /\ isLValue Scenario.i = true.
Proof.
  split; [reflexivity|].
  apply (proj1 (lvalue_analyses Scenario.noReads Scenario.noValues
                                Scenario.i)).
  reflexivity.
Defined.


(** ** Kinds of types *)

Lemma type_rect' (P : type_t -> Prop) :
  P type_null ->
  (forall k r cs, Forall (fun c => P (snd c)) cs -> P (type_data k r cs)) ->
  forall t, P t.
Proof.
  intros Hnull Hdata.
  fix IH 1. intros [|k r cs]; [exact Hnull|].
  apply Hdata. induction cs as [|[l c] cs IHcs]; constructor.
  - apply IH.
  - exact IHcs.
Qed.

(** Below its transparent wrappers a type has one kind. *)
Lemma is_unique (t : type_t) (k1 k2 : kind_t) :
  Ty.transparent k1 = false -> Ty.transparent k2 = false ->
  Ty.is_ t k1 = true -> Ty.is_ t k2 = true -> k1 = k2.
Proof.
  intros T1 T2.
  induction t as [|k r cs IH] using type_rect'; simpl.
  - rewrite !kind_eqb_eq. congruence.
  - destruct (k =k k1) eqn:E1.
    + apply kind_eqb_eq in E1. subst k. rewrite T1. simpl.
      rewrite orb_false_r, kind_eqb_eq. auto.
    + destruct (k =k k2) eqn:E2.
      * apply kind_eqb_eq in E2. subst k. rewrite T2. simpl. discriminate.
      * simpl. destruct (Ty.transparent k); simpl; [|discriminate].
        destruct cs as [|[l c] cs]; [discriminate|].
        inversion IH; subst. auto.
Qed.

Lemma is_exclusive (t : type_t) (k1 k2 : kind_t) :
  Ty.transparent k1 = false -> Ty.transparent k2 = false -> k1 <> k2 ->
  Ty.is_ t k1 = true -> Ty.is_ t k2 = false.
Proof.
  intros T1 T2 Hne H1. destruct (Ty.is_ t k2) eqn:H2; [|reflexivity].
  exfalso. apply Hne. eapply is_unique; eauto.
Qed.

(** Rewrites [is_ t k] to false, given [H : is_ t k' = true] for another
    kind. *)
Ltac other_kind H :=
  match type of H with
  | Ty.is_ ?t ?k1 = true =>
      repeat match goal with
        | |- context [Ty.is_ t ?k] =>
            rewrite (is_exclusive t k1 k eq_refl eq_refl
                                  ltac:(discriminate) H)
        end
  end.

Lemma isClock_not_integral (e : expression_t) :
  isClock e = true -> isIntegral e = false.
Proof.
  unfold isClock, isIntegral, Ty.isClock, Ty.isIntegral, Ty.isInteger,
    Ty.isBoolean.
  intros H. now other_kind H.
Qed.

(** ** Equivalence of types *)

Lemma height_get (t : type_t) (i : nat) :
  (type_height (Ty.get t i) <= pred (type_height t))%nat.
Proof.
  destruct t as [|k r cs]; [simpl; lia|].
  unfold Ty.get. simpl. revert i.
  induction cs as [|[l c] cs IH]; intros i; [simpl; lia|].
  destruct i as [|i]; simpl.
  - lia.
  - specialize (IH i). simpl in IH.
    destruct (cs !! i) as [[l' c']|]; simpl in *; lia.
Qed.

Lemma height_strip (k : kind_t) (t : type_t) :
  (type_height (Ty.strip k t) <= type_height t)%nat.
Proof.
  induction t as [|k' r cs IH] using type_rect'; [simpl; lia|].
  simpl Ty.strip. destruct (k' =k k); [lia|].
  destruct (Ty.transparent k'); [|simpl; lia].
  destruct cs as [|[l c] cs]; [simpl; lia|].
  inversion IH as [|? ? Hc _]; subst. simpl in *. lia.
Qed.

Lemma height_field (k : kind_t) (t : type_t) (i n : nat) :
  (type_height t <= S n)%nat ->
  (type_height (Ty.get (Ty.strip k t) i) <= n)%nat.
Proof.
  intros H. pose proof (height_get (Ty.strip k t) i).
  pose proof (height_strip k t). lia.
Qed.

Lemma areEquivalent_rec_S (n : nat) (a b : type_t) :
  areEquivalent_rec (S n) a b =
  if Ty.isInteger a && Ty.isInteger b
  then negb (Ty.is_ a RANGE) || negb (Ty.is_ b RANGE) || Ty.rangeEqual a b
  else if Ty.isBoolean a && Ty.isBoolean b then true
  else if Ty.isClock a && Ty.isClock b then true
  else if Ty.isChannel a && Ty.isChannel b
  then Z.eqb (channelCapability a) (channelCapability b)
  else if Ty.isRecord a && Ty.isRecord b
  then
    if Nat.eqb (Ty.getRecordSize a) (Ty.getRecordSize b)
    then forallb
           (fun i =>
              String.eqb (Ty.getRecordLabel a i) (Ty.getRecordLabel b i)
              && areEquivalent_rec n (Ty.getField a i) (Ty.getField b i))
           (seq 0 (Ty.getRecordSize a))
    else false
  else if Ty.isArray a && Ty.isArray b
  then
    if Ty.isInteger (Ty.getArraySize a) && Ty.isInteger (Ty.getArraySize b)
    then Ty.rangeEqual (Ty.getArraySize a) (Ty.getArraySize b)
         && areEquivalent_rec n (Ty.getSub a) (Ty.getSub b)
    else if Ty.isScalar (Ty.getArraySize a) && Ty.isScalar (Ty.getArraySize b)
    then isSameScalarType (Ty.getArraySize a) (Ty.getArraySize b)
         && areEquivalent_rec n (Ty.getSub a) (Ty.getSub b)
    else false
  else if Ty.isScalar a && Ty.isScalar b then isSameScalarType a b
  else if Ty.isDouble a && Ty.isDouble b then true
  else false.
Proof. reflexivity. Qed.

Lemma forallb_seq_ext (f g : nat -> bool) (n : nat) :
  (forall i, (i < n)%nat -> f i = g i) ->
  forallb f (seq 0 n) = forallb g (seq 0 n).
Proof.
  intros H.
  assert (G : forall m k, (m + k <= n)%nat ->
                          forallb f (seq m k) = forallb g (seq m k)).
  { intros m k. revert m. induction k as [|k IH]; intros m Hm;
      [reflexivity|].
    simpl. rewrite H by lia. rewrite IH by lia. reflexivity. }
  apply G. lia.
Qed.

(** Once the fuel reaches the height of the first type, more fuel does not
    change the result of [areEquivalent_rec]. *)
Lemma areEquivalent_rec_stable (n : nat) (a b : type_t) :
  (type_height a <= n)%nat ->
  areEquivalent_rec (S n) a b = areEquivalent_rec n a b.
Proof.
  revert a b. induction n as [|n IH]; intros a b Ha.
  - destruct a as [|k r cs]; [reflexivity | simpl in Ha; lia].
  - rewrite (areEquivalent_rec_S (S n) a b), (areEquivalent_rec_S n a b).
    repeat match goal with
      | |- (if ?c then _ else _) = (if ?c then _ else _) =>
          destruct c; try reflexivity
      end.
    + apply forallb_seq_ext. intros i _. f_equal.
      apply IH. now apply height_field.
    + f_equal. apply IH. now apply height_field.
    + f_equal. apply IH. now apply height_field.
Qed.

Lemma areEquivalent_rec_enough (n : nat) (a b : type_t) :
  (type_height a <= n)%nat ->
  areEquivalent_rec n a b = areEquivalent a b.
Proof.
  unfold areEquivalent. induction 1 as [|n Hle IH]; [reflexivity|].
  rewrite areEquivalent_rec_stable; assumption.
Qed.

(** *** Scalar sets *)

Lemma bound_equal_sym (a b : bound_t) : bound_equal a b = bound_equal b a.
Proof.
  destruct a, b; simpl; try reflexivity.
  - apply Z.eqb_sym.
  - apply String.eqb_sym.
Qed.

Lemma bound_equal_refl (a : bound_t) : bound_equal a a = true.
Proof.
  destruct a; simpl; [apply Z.eqb_refl | apply String.eqb_refl].
Qed.

Lemma rangeEqual_sym (a b : type_t) : Ty.rangeEqual a b = Ty.rangeEqual b a.
Proof.
  unfold Ty.rangeEqual.
  destruct (Ty.getRange a) as [[l1 u1]|], (Ty.getRange b) as [[l2 u2]|];
    try reflexivity.
  now rewrite (bound_equal_sym l1), (bound_equal_sym u1).
Qed.

Lemma rangeEqual_refl (a : type_t) : Ty.rangeEqual a a = true.
Proof.
  unfold Ty.rangeEqual. destruct (Ty.getRange a) as [[l u]|];
    [|reflexivity].
  now rewrite !bound_equal_refl.
Qed.

Lemma isSameScalarType_rec_S (n : nat) (t1 t2 : type_t) :
  isSameScalarType_rec (S n) t1 t2 =
  if strippedLeft t1 then isSameScalarType_rec n (Ty.get t1 0) t2
  else if strippedRight t2 then isSameScalarType_rec n t1 (Ty.get t2 0)
  else if (Ty.getKind t1 =k LABEL) && (Ty.getKind t2 =k LABEL)
  then String.eqb (Ty.getLabel t1 0) (Ty.getLabel t2 0)
       && isSameScalarType_rec n (Ty.get t1 0) (Ty.get t2 0)
  else if (Ty.getKind t1 =k SCALAR) && (Ty.getKind t2 =k SCALAR) then true
  else if (Ty.getKind t1 =k RANGE) && (Ty.getKind t2 =k RANGE)
  then isSameScalarType_rec n (Ty.get t1 0) (Ty.get t2 0)
       && Ty.rangeEqual t1 t2
  else false.
Proof. reflexivity. Qed.

(** Stripping a prefix on the left first or on the right first gives the
    same result. *)
Lemma isSameScalarType_rec_strip (n : nat) (t1 t2 : type_t) :
  strippedLeft t1 = true -> strippedRight t2 = true ->
  isSameScalarType_rec n (Ty.get t1 0) t2
  = isSameScalarType_rec n t1 (Ty.get t2 0).
Proof.
  revert t1 t2. induction n as [|n IH]; intros t1 t2 H1 H2; [reflexivity|].
  rewrite (isSameScalarType_rec_S n (Ty.get t1 0) t2).
  rewrite (isSameScalarType_rec_S n t1 (Ty.get t2 0)).
  rewrite H1, H2.
  destruct (strippedLeft (Ty.get t1 0)) eqn:H0; [|reflexivity].
  now apply IH.
Qed.

Lemma refFree_stripped (t : type_t) :
  refFree t = true -> strippedRight t = strippedLeft t.
Proof.
  unfold strippedLeft, strippedRight.
  destruct t as [|k r cs]; [reflexivity|]. simpl.
  rewrite !andb_true_iff, !negb_true_iff. intros [[-> ->] _]. reflexivity.
Qed.

Lemma refFree_get (t : type_t) (i : nat) :
  refFree t = true -> refFree (Ty.get t i) = true.
Proof.
  destruct t as [|k r cs]; [reflexivity|]. simpl.
  rewrite !andb_true_iff. intros [_ H]. unfold Ty.get. simpl.
  destruct (cs !! i) as [[l c]|] eqn:Hi; [|reflexivity].
  rewrite forallb_forall in H.
  apply (H (l, c)). apply list_elem_of_In. eapply list_elem_of_lookup_2.
  exact Hi.
Qed.


(** Without [REF] and [EF] name equivalence is symmetric. *)
Lemma isSameScalarType_rec_sym (n : nat) (t1 t2 : type_t) :
  refFree t1 = true -> refFree t2 = true ->
  isSameScalarType_rec n t1 t2 = isSameScalarType_rec n t2 t1.
Proof.
  revert t1 t2. induction n as [|n IH]; intros t1 t2 H1 H2; [reflexivity|].
  rewrite (isSameScalarType_rec_S n t1 t2), (isSameScalarType_rec_S n t2 t1).
  rewrite (refFree_stripped t1 H1), (refFree_stripped t2 H2).
  destruct (strippedLeft t1) eqn:S1, (strippedLeft t2) eqn:S2.
  - rewrite (IH (Ty.get t2 0) t1) by (auto using refFree_get).
    apply isSameScalarType_rec_strip; [exact S1|].
    now rewrite (refFree_stripped t2 H2).
  - apply IH; auto using refFree_get.
  - apply IH; auto using refFree_get.
  - rewrite (andb_comm (Ty.getKind t2 =k LABEL)),
      (andb_comm (Ty.getKind t2 =k SCALAR)),
      (andb_comm (Ty.getKind t2 =k RANGE)),
      (String.eqb_sym (Ty.getLabel t2 0)), (rangeEqual_sym t2 t1),
      (IH (Ty.get t2 0) (Ty.get t1 0)) by (auto using refFree_get).
    reflexivity.
Qed.

Lemma isSameScalarType_sym (t1 t2 : type_t) :
  refFree t1 = true -> refFree t2 = true ->
  isSameScalarType t1 t2 = isSameScalarType t2 t1.
Proof.
  intros H1 H2. unfold isSameScalarType.
  rewrite (Nat.add_comm (type_height t2)).
  now apply isSameScalarType_rec_sym.
Qed.

Lemma scalarSet_isScalar (t : type_t) : scalarSet t -> Ty.isScalar t = true.
Proof.
  unfold Ty.isScalar.
  induction 1 as [r cs | r l c cs _ IH | r l c cs _ IH
                  | k r l c cs [-> | ->] _ IH]; simpl;
    rewrite ?IH; reflexivity.
Qed.

(** A scalar set is name-equivalent to itself. *)
Lemma isSameScalarType_rec_refl (t : type_t) :
  scalarSet t ->
  forall n, (2 * type_height t <= n)%nat ->
            isSameScalarType_rec n t t = true.
Proof.
  induction 1 as [r cs | r l c cs _ IH | r l c cs _ IH
                  | k r l c cs Hk Hc IH]; intros n Hn.
  - destruct n as [|n]; [simpl in Hn; lia | reflexivity].
  - destruct n as [|n]; [simpl in Hn; lia|].
    rewrite isSameScalarType_rec_S. simpl.
    rewrite String.eqb_refl. apply IH. simpl in Hn. lia.
  - destruct n as [|n]; [simpl in Hn; lia|].
    rewrite isSameScalarType_rec_S. simpl.
    rewrite rangeEqual_refl, andb_true_r. apply IH. simpl in Hn. lia.
  - destruct n as [|[|n]]; [simpl in Hn; lia | simpl in Hn; lia |].
    set (t := type_data k r ((l, c) :: cs)).
    assert (HL : strippedLeft t = true) by (destruct Hk; subst; reflexivity).
    assert (HR : strippedRight t = true)
      by (destruct Hk; subst; reflexivity).
    rewrite isSameScalarType_rec_S, HL.
    rewrite (isSameScalarType_rec_strip (S n) t t HL HR).
    rewrite isSameScalarType_rec_S, HL.
    apply IH. simpl in Hn. lia.
Qed.

Lemma isSameScalarType_refl (t : type_t) :
  scalarSet t -> isSameScalarType t t = true.
Proof.
  intros H. apply isSameScalarType_rec_refl; [exact H | lia].
Qed.

(** *** Structural equivalence *)

Lemma isInteger_not_null (k : kind_t) (t : type_t) :
  Ty.is_ t k = true -> k <> UNKNOWN -> (1 <= type_height t)%nat.
Proof.
  destruct t as [|k' r cs]; simpl; [|lia].
  rewrite kind_eqb_eq. congruence.
Qed.

(** [areEquivalent] holds between a comparable type and itself. *)
Lemma areEquivalent_rec_refl (a : type_t) :
  comparable a ->
  forall n, (type_height a <= n)%nat -> areEquivalent_rec n a a = true.
Proof.
  induction 1 as [a Hbasic | a Hscalar | a Hrec _ IH | a Harr Hsize _ IH];
    intros n Hn.
  - assert (1 <= type_height a)%nat.
    { rewrite !orb_true_iff in Hbasic.
      destruct Hbasic as [[[[H|H]|H]|H]|H];
        apply isInteger_not_null in H; (exact H || discriminate). }
    destruct n as [|n]; [lia|]. rewrite areEquivalent_rec_S.
    rewrite !andb_diag, rangeEqual_refl, Z.eqb_refl, orb_true_r.
    destruct (Ty.isInteger a); [reflexivity|].
    destruct (Ty.isBoolean a); [reflexivity|].
    destruct (Ty.isClock a); [reflexivity|].
    destruct (Ty.isChannel a) eqn:Hc; [reflexivity|].
    simpl in Hbasic. rewrite orb_false_r in Hbasic.
    unfold Ty.isDouble in Hbasic.
    unfold Ty.isRecord, Ty.isArray, Ty.isScalar. other_kind Hbasic.
    unfold Ty.isDouble. now rewrite Hbasic.
  - pose proof (scalarSet_isScalar a Hscalar) as Hs.
    assert (1 <= type_height a)%nat
      by (apply (isInteger_not_null SCALAR); [exact Hs | discriminate]).
    destruct n as [|n]; [lia|]. rewrite areEquivalent_rec_S.
    rewrite !andb_diag. unfold Ty.isScalar in Hs.
    unfold Ty.isInteger, Ty.isBoolean, Ty.isClock, Ty.isChannel,
      Ty.isRecord, Ty.isArray. other_kind Hs. unfold Ty.isScalar.
    rewrite Hs. now apply isSameScalarType_refl.
  - assert (1 <= type_height a)%nat
      by (apply (isInteger_not_null RECORD); [exact Hrec | discriminate]).
    destruct n as [|n]; [lia|]. rewrite areEquivalent_rec_S.
    rewrite !andb_diag. unfold Ty.isRecord in Hrec.
    unfold Ty.isInteger, Ty.isBoolean, Ty.isClock, Ty.isChannel.
    other_kind Hrec. unfold Ty.isRecord. rewrite Hrec, Nat.eqb_refl.
    apply forallb_forall. intros i Hi. apply in_seq in Hi.
    rewrite String.eqb_refl. apply IH; [lia|].
    now apply height_field.
  - assert (1 <= type_height a)%nat
      by (apply (isInteger_not_null ARRAY); [exact Harr | discriminate]).
    destruct n as [|n]; [lia|]. rewrite areEquivalent_rec_S.
    rewrite !andb_diag. unfold Ty.isArray in Harr.
    unfold Ty.isInteger at 1, Ty.isBoolean, Ty.isClock, Ty.isChannel,
      Ty.isRecord.
    other_kind Harr. unfold Ty.isArray. rewrite Harr.
    rewrite rangeEqual_refl, (IH n) by (now apply height_field).
    destruct (Ty.isInteger (Ty.getArraySize a)) eqn:Hint; [reflexivity|].
    destruct Hsize as [Hsize | Hsize]; [discriminate|].
    now rewrite (scalarSet_isScalar _ Hsize), isSameScalarType_refl.
Qed.

(** A type has one kind below its wrappers. *)
Ltac kinds_clash H1 H2 :=
  match type of H1 with
  | Ty.is_ ?t ?k1 = true =>
      match type of H2 with
      | Ty.is_ t ?k2 = true =>
          exfalso;
          pose proof (is_exclusive t k1 k2 eq_refl eq_refl
                                   ltac:(discriminate) H1) as Hclash;
          rewrite H2 in Hclash; discriminate Hclash
      end
  end.

Lemma plainScalars_refFree (t : type_t) :
  plainScalars t -> Ty.isScalar t = true -> refFree t = true.
Proof.
  intros [t' _ H | t' Hr _ | t' Ha _ _ | t' Ho] Hs;
    unfold Ty.isScalar, Ty.isRecord, Ty.isArray in *.
  - exact H.
  - kinds_clash Hr Hs.
  - kinds_clash Ha Hs.
  - rewrite Hs in Ho. discriminate Ho.
Qed.

Lemma plainScalars_field (t : type_t) (i : nat) :
  plainScalars t -> Ty.isRecord t = true ->
  (i < Ty.getRecordSize t)%nat -> plainScalars (Ty.getField t i).
Proof.
  intros [t' Hs _ | t' _ H | t' Ha _ _ | t' Ho] Hr Hi;
    unfold Ty.isScalar, Ty.isRecord, Ty.isArray in *.
  - kinds_clash Hs Hr.
  - now apply H.
  - kinds_clash Ha Hr.
  - rewrite Hr, orb_true_r in Ho. discriminate Ho.
Qed.

Lemma plainScalars_element (t : type_t) :
  plainScalars t -> Ty.isArray t = true ->
  plainScalars (Ty.getSub t)
  /\ (Ty.isScalar (Ty.getArraySize t) = true ->
      refFree (Ty.getArraySize t) = true).
Proof.
  intros [t' Hs _ | t' Hr _ | t' _ Hsize Hsub | t' Ho] Ha.
  - unfold Ty.isScalar, Ty.isArray in *. kinds_clash Hs Ha.
  - unfold Ty.isRecord, Ty.isArray in *. kinds_clash Hr Ha.
  - now split.
  - rewrite Ha, orb_true_r in Ho. discriminate Ho.
Qed.

(** Where no compared scalar set carries a reference prefix, structural
    equivalence is symmetric. *)
Lemma areEquivalent_rec_plain_sym (n : nat) (a b : type_t) :
  plainScalars a -> plainScalars b ->
  areEquivalent_rec n a b = areEquivalent_rec n b a.
Proof.
  revert a b. induction n as [|n IH]; intros a b Ha Hb; [reflexivity|].
  rewrite (areEquivalent_rec_S n a b), (areEquivalent_rec_S n b a).
  rewrite (andb_comm (Ty.isInteger b)), (andb_comm (Ty.isBoolean b)),
    (andb_comm (Ty.isClock b)), (andb_comm (Ty.isChannel b)),
    (andb_comm (Ty.isRecord b)), (andb_comm (Ty.isArray b)),
    (andb_comm (Ty.isScalar b)), (andb_comm (Ty.isDouble b)),
    (andb_comm (Ty.isInteger (Ty.getArraySize b))),
    (andb_comm (Ty.isScalar (Ty.getArraySize b))),
    (rangeEqual_sym b a),
    (rangeEqual_sym (Ty.getArraySize b) (Ty.getArraySize a)),
    (Z.eqb_sym (channelCapability b)),
    (Nat.eqb_sym (Ty.getRecordSize b)),
    (orb_comm (negb (Ty.is_ b RANGE))).
  destruct (Ty.isInteger a && Ty.isInteger b); [reflexivity|].
  destruct (Ty.isBoolean a && Ty.isBoolean b); [reflexivity|].
  destruct (Ty.isClock a && Ty.isClock b); [reflexivity|].
  destruct (Ty.isChannel a && Ty.isChannel b); [reflexivity|].
  destruct (Ty.isRecord a && Ty.isRecord b) eqn:Hrec.
  { apply andb_true_iff in Hrec. destruct Hrec as [Hra Hrb].
    destruct (Nat.eqb (Ty.getRecordSize a) (Ty.getRecordSize b)) eqn:Hsize;
      [|reflexivity].
    apply Nat.eqb_eq in Hsize. rewrite <- Hsize.
    apply forallb_seq_ext. intros i Hi. rewrite String.eqb_sym. f_equal.
    apply IH; apply plainScalars_field; try assumption.
    now rewrite <- Hsize. }
  destruct (Ty.isArray a && Ty.isArray b) eqn:Harr.
  { apply andb_true_iff in Harr. destruct Harr as [Haa Hab].
    destruct (plainScalars_element a Ha Haa) as [Hsa Hza].
    destruct (plainScalars_element b Hb Hab) as [Hsb Hzb].
    rewrite (IH (Ty.getSub b) (Ty.getSub a) Hsb Hsa).
    destruct (Ty.isInteger (Ty.getArraySize a)
              && Ty.isInteger (Ty.getArraySize b)); [reflexivity|].
    destruct (Ty.isScalar (Ty.getArraySize a)
              && Ty.isScalar (Ty.getArraySize b)) eqn:Hs; [|reflexivity].
    apply andb_true_iff in Hs. destruct Hs as [H1 H2].
    now rewrite (isSameScalarType_sym _ _ (Hzb H2) (Hza H1)). }
  destruct (Ty.isScalar a && Ty.isScalar b) eqn:Hs; [|reflexivity].
  apply andb_true_iff in Hs. destruct Hs as [H1 H2].
  apply isSameScalarType_sym; now apply plainScalars_refFree.
Qed.

Lemma areEquivalent_plain_sym (a b : type_t) :
  plainScalars a -> plainScalars b ->
  areEquivalent a b = areEquivalent b a.
Proof.
  intros Ha Hb.
  rewrite <- (areEquivalent_rec_enough
                (Nat.max (type_height a) (type_height b)) a b) by lia.
  rewrite <- (areEquivalent_rec_enough
                (Nat.max (type_height a) (type_height b)) b a) by lia.
  now apply areEquivalent_rec_plain_sym.
Qed.

(** [areEquivalent] has no case for a type of no compared category. *)
Lemma areEquivalent_not_compared (a b : type_t) :
  compared a = false -> areEquivalent a b = false.
Proof.
  unfold compared, areEquivalent. intros H.
  destruct (type_height a) as [|n]; [reflexivity|].
  rewrite areEquivalent_rec_S.
  repeat (apply orb_false_iff in H; destruct H as [H ?]).
  repeat match goal with
         | E : _ = false |- _ => rewrite E; clear E
         end.
  reflexivity.
Qed.

(** C6 (amended): [areEquivalent] holds between a type and itself for the
    types it compares (integers, booleans, clocks, doubles, channels,
    scalar sets, and records and arrays of these); it holds between no
    two types when the first is of none of the categories it has a case
    for (void, cost, process, ...); and it is symmetric on the types in
    which no scalar set carries a reference prefix, whatever the
    prefixes of the integers, booleans, clocks, channels, doubles,
    records and arrays. *)
Theorem areEquivalent_reflexive_symmetric :
  (forall a, comparable a -> areEquivalent a a = true)
  /\ (forall a b, compared a = false -> areEquivalent a b = false)
  /\ (forall a b, plainScalars a -> plainScalars b ->
                  areEquivalent a b = areEquivalent b a).
Proof.
  split; [|split].
  - intros a Ha. now apply areEquivalent_rec_refl.
  - exact areEquivalent_not_compared.
  - exact areEquivalent_plain_sym.
Qed.

(** ** Expressions *)

Lemma getKind_data (e : expression_t) (k : kind_t) :
  Expr.getKind e = k -> k <> UNKNOWN ->
  exists p v sy t cs, e = expression_data k p v sy t cs.
Proof.
  destruct e as [|k' p v sy t cs]; simpl; intros <- H; [congruence|].
  now exists p, v, sy, t, cs.
Qed.

Lemma height_sub (e : expression_t) (i : nat) :
  (expression_height e.[i] <= pred (expression_height e))%nat.
Proof.
  destruct e as [|k p v sy t cs]; [simpl; lia|].
  unfold Expr.get. simpl. revert i.
  induction cs as [|c cs IH]; intros i; [simpl; lia|].
  destruct i as [|i]; simpl.
  - lia.
  - specialize (IH i). destruct (cs !! i); simpl in *; lia.
Qed.

Lemma get_0 k p v sy t (a : expression_t) cs :
  (expression_data k p v sy t (a :: cs)).[0] = a.
Proof. reflexivity. Qed.

Lemma get_1 k p v sy t (a b : expression_t) cs :
  (expression_data k p v sy t (a :: b :: cs)).[1] = b.
Proof. reflexivity. Qed.

Lemma get_2 k p v sy t (a b c : expression_t) cs :
  (expression_data k p v sy t (a :: b :: c :: cs)).[2] = c.
Proof. reflexivity. Qed.

(** Unfolds the switch of [checkKind] at a node of known kind. *)
Ltac switch :=
  unfold checkKind; simpl Expr.getKind; simpl Expr.setSub; cbv zeta;
  rewrite ?get_0, ?get_1, ?get_2.

Section CheckerProperties.

Variable changesAnyVariable : expression_t -> bool.
Variable collectPossibleReads : expression_t -> list symbol_t.
Variable compileTimeComputableValues : symbol_t -> bool.
Variable checkType : type_t -> system_t -> system_t.
Variable toString : type_t -> string.

Let check :=
  checkExpression changesAnyVariable collectPossibleReads
                  compileTimeComputableValues checkType.
Let kindOf :=
  checkKind changesAnyVariable collectPossibleReads
            compileTimeComputableValues checkType.

(** One step of [checkExpression] on an expression whose sub-expressions
    check successfully. *)
Lemma checkExpression_step (fuel : nat) (expr : expression_t)
      (s s1 : system_t) (cs : list expression_t) :
  Expr.empty expr = false ->
  checkSubExpressions (check fuel) (Expr.sub expr) s = Some (true, cs, s1) ->
  check (S fuel) expr s =
  match kindOf (check fuel) (Expr.setSub expr cs) s1 with
  | None => None
  | Some (Return ok, expr, s2) => Some (ok, expr, s2)
  | Some (Break type, expr, s2) =>
      if Ty.unknown type
      then Some (false, expr, handleError expr "$Type_error" s2)
      else Some (true, Expr.setType expr type, s2)
  end.
Proof.
  intros He Hcs. unfold check, kindOf in *. simpl. rewrite He.
  rewrite Hcs. reflexivity.
Qed.

(** C2 (amended): for [<], [<=], [>=], [>] on checked operands, a clock
    compared with an integer gets the type invariant, as any clock
    compared with a clock or with a bound (an integer or a double), in
    either order; two integral operands get the type bool.  The branch of
    the source that assigns guard to clock-integer comparisons is never
    reached, every integer being a bound. *)
Theorem relational_types (fuel : nat) (expr a b : expression_t)
        (s s1 : system_t) :
  relational (Expr.getKind expr) = true ->
  checkSubExpressions (check fuel) (Expr.sub expr) s
  = Some (true, [a; b], s1) ->
  let typed k :=
    check (S fuel) expr s
    = Some (true, Expr.setType (Expr.setSub expr [a; b]) (primitive k), s1) in
  ((isClock a && isInteger b) || (isInteger a && isClock b) = true ->
   typed INVARIANT)
  /\ ((isClock a && isClock b) || (isClock a && isBound b)
      || (isBound a && isClock b) = true -> typed INVARIANT)
  /\ (isIntegral a && isIntegral b = true -> typed BOOL).
Proof.
  intros Hk Hcs typed.
  assert (Hdata : exists k p v sy t cs,
             expr = expression_data k p v sy t cs /\ relational k = true).
  { destruct expr as [|k p v sy t cs]; [discriminate|]. now eauto 10. }
  destruct Hdata as (k & p & v & sy & t & cs & -> & Hrel).
  assert (Hstep := checkExpression_step
                     fuel (expression_data k p v sy t cs) s s1 [a; b]
                     eq_refl Hcs).
  assert (Hclock : (isClock a && isClock b) || (isClock a && isBound b)
                   || (isBound a && isClock b) = true -> typed INVARIANT).
  { intros H. unfold typed. rewrite Hstep. unfold kindOf.
    assert (Hint : isIntegral a && isIntegral b = false).
    { rewrite !orb_true_iff, !andb_true_iff in H.
      destruct H as [[[Ha _]|[Ha _]]|[_ Hb]];
        rewrite ?(isClock_not_integral _ Ha), ?(isClock_not_integral _ Hb),
          ?andb_false_r; reflexivity. }
    assert (Hinv : (isClock a && isClock b) || (isClock a && isBound b)
                   || (isClock b && isBound a) || (isDiff a && isBound b)
                   || (isDiff b && isBound a) = true).
    { rewrite (andb_comm (isClock b) (isBound a)), H. reflexivity. }
    destruct k; try discriminate Hrel; switch; rewrite Hint, Hinv;
      reflexivity. }
  split; [|split].
  - intros H. apply Hclock.
    rewrite !orb_true_iff, !andb_true_iff in *. unfold isBound.
    destruct H as [[Ha Hb]|[Ha Hb]]; unfold isInteger in *.
    + left. right. rewrite Ha, Hb. auto.
    + right. rewrite Ha, Hb. auto.
  - exact Hclock.
  - intros H. unfold typed. rewrite Hstep. unfold kindOf.
    destruct k; try discriminate Hrel; switch; rewrite H; reflexivity.
Qed.

(** *** Termination *)

Lemma checkSubExpressions_returns
      (rec : expression_t -> system_t -> checkResult)
      (cs : list expression_t) (s : system_t) :
  Forall (fun c => forall s0, exists r, rec c s0 = Some r) cs ->
  exists r, checkSubExpressions rec cs s = Some r.
Proof.
  intros H. revert s. induction H as [|c cs Hc _ IH]; intros s; simpl;
    [eauto|].
  destruct (Hc s) as [[[ok c'] s1] ->].
  destruct (IH s1) as [[[oks cs'] s2] ->]. eauto.
Qed.

(** Every case of the switch but FUNCALL returns. *)
Lemma checkKind_returns (recheck : expression_t -> system_t -> checkResult)
      (expr : expression_t) (s : system_t) :
  Expr.getKind expr <> FUNCALL ->
  exists r, kindOf recheck expr s = Some r.
Proof.
  intros Hk. unfold kindOf, checkKind.
  destruct (Expr.getKind expr); try congruence; cbv zeta;
    repeat match goal with
      | |- context [if ?c then _ else _] => destruct c
      | |- context [let (_, _) := ?p in _] => destruct p
      end; eauto.
Qed.

(** With fuel above its height, [checkExpression] returns on an
    expression whose calls are well formed. *)
Lemma checkExpression_returns (fuel : nat) :
  forall (expr : expression_t) (s : system_t),
    wellFormedCalls expr = true ->
    (expression_height expr < fuel)%nat ->
    exists r, check fuel expr s = Some r.
Proof.
  induction fuel as [|fuel IH]; intros expr s Hwf Hfuel; [lia|].
  destruct expr as [|k p v sy t cs]; [simpl; eauto|].
  simpl in Hwf. apply andb_true_iff in Hwf. destruct Hwf as [Hcs Hcall].
  assert (Hsub : Forall (fun c => forall s0,
                             exists r, check fuel c s0 = Some r) cs).
  { apply Forall_forall. intros c Hc s0. apply IH.
    - rewrite forallb_forall in Hcs. apply Hcs.
      now apply list_elem_of_In.
    - apply list_elem_of_lookup in Hc. destruct Hc as [i Hi].
      pose proof (height_sub (expression_data k p v sy t cs) i) as Hh.
      unfold Expr.get in Hh. simpl Expr.sub in Hh. rewrite Hi in Hh.
      simpl in *. lia. }
  unfold check in *. simpl checkExpression.
  destruct (k =k FUNCALL) eqn:Hk.
  - (* a call: the function identifier is checked twice *)
    apply kind_eqb_eq in Hk. subst k.
    change (FUNCALL =k FUNCALL) with true in Hcall. cbv iota in Hcall.
    destruct cs as [|[|k0 p0 v0 sy0 t0 [|c0 cs0]] cs]; try discriminate;
      destruct k0; try discriminate.
    destruct fuel as [|fuel]; [simpl in Hfuel; lia|].
    inversion Hsub as [|? ? _ Hrest]; subst.
    set (callee := expression_data IDENTIFIER p0 v0 sy0 t0 []) in *.
    assert (Hcallee : forall s0,
               checkExpression changesAnyVariable collectPossibleReads
                               compileTimeComputableValues checkType
                               (S fuel) callee s0
               = Some (true, callee, s0)) by reflexivity.
    destruct (checkSubExpressions_returns _ cs s Hrest)
      as [[[oks cs'] s1] Hcs'].
    cbn [checkSubExpressions]. rewrite Hcallee, Hcs'.
    destruct oks; cbn [andb negb Expr.setSub]; [|eauto].
    unfold checkKind. cbn [Expr.getKind]. cbv zeta.
    rewrite get_0, Hcallee. cbn [Expr.setSub Expr.sub].
    change (<[O:=callee]> (callee :: cs')) with (callee :: cs').
    rewrite get_0. cbn [Expr.getType callee].
    apply negb_true_iff, Nat.eqb_neq in Hcall.
    destruct (Ty.size t0) as [|parameters]; [congruence|].
    destruct (checkArguments _ _ _ _ _ _) as [result s2]. eauto.
  - destruct (checkSubExpressions_returns _ cs s Hsub)
      as [[[ok cs'] s1] ->].
    destruct ok; simpl; [|eauto].
    destruct (checkKind_returns
                (checkExpression changesAnyVariable collectPossibleReads
                                 compileTimeComputableValues checkType fuel)
                (expression_data k p v sy t cs') s1) as [[[o e2] s2] Hr].
    { simpl. intros ->. discriminate Hk. }
    unfold kindOf in Hr. rewrite Hr.
    destruct o as [type | ok]; [|eauto].
    destruct (Ty.unknown type); eauto.
Qed.

(** *** Assignments *)

(** C10 (amended): a [+=] whose operands check successfully and whose left
    operand has a known type is accepted and gets the type of its left
    operand, also when a diagnostic is emitted: for a left operand that
    is neither an integer nor a cost, a right operand that is not
    integral, or a left operand that is not a modifiable l-value.  In
    the corresponding cases [=] and the other compound assignments are
    rejected.  A [+=] whose left operand has no type is rejected: its
    diagnostic is followed by "$Type_error". *)
Theorem assplus_is_lenient (fuel : nat) (expr e0 e1 : expression_t)
        (cs : list expression_t) (s s1 : system_t) :
  checkSubExpressions (check fuel) (Expr.sub expr) s
  = Some (true, e0 :: e1 :: cs, s1) ->
  let expr' := Expr.setSub expr (e0 :: e1 :: cs) in
  (Expr.getKind expr = ASSPLUS ->
   Ty.unknown (Expr.getType e0) = false ->
   check (S fuel) expr s
   = Some (true, Expr.setType expr' (Expr.getType e0),
           if (negb (isInteger e0) && negb (isCost e0))
              || negb (isIntegral e1)
           then handleError expr'
                  "$Increment_operator_can_only_be_used_for_integers_and_cost_variables"
                  s1
           else if negb (isModifiableLValue e0)
           then handleError e0 "$Left_hand_side_value_expected" s1
           else s1))
  /\ (Expr.getKind expr = ASSIGN ->
      negb (areAssignmentCompatible (Expr.getType e0) (Expr.getType e1) false)
      || negb (isModifiableLValue e0) = true ->
      exists s2, check (S fuel) expr s = Some (false, expr', s2))
  /\ (compoundAssignment (Expr.getKind expr) = true ->
      negb (isIntegral e0) || negb (isIntegral e1)
      || negb (isModifiableLValue e0) = true ->
      exists s2, check (S fuel) expr s = Some (false, expr', s2))
  /\ (Expr.getKind expr = ASSPLUS ->
      Ty.unknown (Expr.getType e0) = true ->
      check (S fuel) expr s
      = Some (false, expr',
              handleError expr' "$Type_error"
                (handleError expr'
                   "$Increment_operator_can_only_be_used_for_integers_and_cost_variables"
                   s1))).
Proof.
  intros Hcs expr'.
  destruct expr as [|k p v sy t cs0].
  { simpl. repeat split; discriminate. }
  assert (Hstep := checkExpression_step
                     fuel (expression_data k p v sy t cs0) s s1 _
                     eq_refl Hcs).
  simpl Expr.getKind. repeat split.
  4:{ intros -> Hunknown. rewrite Hstep. unfold kindOf. switch.
      rewrite Hunknown.
      assert (Hint : isInteger e0 = false /\ isCost e0 = false).
      { unfold isInteger, isCost, Ty.isInteger, Ty.unknown in *.
        destruct (Expr.getType e0) as [|k0 r0 cs1]; [now split|].
        simpl in Hunknown. apply kind_eqb_eq in Hunknown. subst k0.
        now split. }
      destruct Hint as [-> ->]. reflexivity. }
  - intros -> Hknown. rewrite Hstep. unfold kindOf. switch.
    rewrite Hknown. reflexivity.
  - intros -> H. rewrite Hstep. unfold kindOf. switch.
    destruct (areAssignmentCompatible _ _ _); simpl in *; [|eauto].
    rewrite H. simpl. eauto.
  - intros Hk H. rewrite Hstep. unfold kindOf.
    destruct k; try discriminate Hk; switch;
      destruct (isIntegral e0), (isIntegral e1); simpl in *; eauto;
      rewrite H; simpl; eauto.
Qed.

(** *** Function calls *)



(** *** Statistical queries *)

Lemma checkNrOfRuns_pass (e : expression_t) (s : system_t) :
  fst (checkNrOfRuns collectPossibleReads compileTimeComputableValues e s)
  = true ->
  checkNrOfRuns collectPossibleReads compileTimeComputableValues e s
  = (true, s).
Proof.
  unfold checkNrOfRuns.
  destruct (isCompileTimeComputable _ _ e); simpl; [|discriminate].
  destruct (isConstantInteger e); simpl; [reflexivity | discriminate].
Qed.

Lemma checkBoundTypeOrBoundedExpr_pass (e : expression_t) (s : system_t) :
  fst (checkBoundTypeOrBoundedExpr e s) = true ->
  checkBoundTypeOrBoundedExpr e s = (true, s).
Proof.
  unfold checkBoundTypeOrBoundedExpr.
  destruct (negb (isConstantInteger e) && negb (isClock e)); simpl;
    [discriminate | reflexivity].
Qed.

Lemma checkBound_pass (e : expression_t) (s : system_t) :
  fst (checkBound collectPossibleReads compileTimeComputableValues e s)
  = true ->
  checkBound collectPossibleReads compileTimeComputableValues e s = (true, s).
Proof.
  unfold checkBound.
  destruct (isCompileTimeComputable _ _ e); simpl; [|discriminate].
  destruct (isIntegral e); simpl; [reflexivity | discriminate].
Qed.

Lemma checkPredicate_pass (e : expression_t) (s : system_t) :
  fst (checkPredicate changesAnyVariable e s) = true ->
  checkPredicate changesAnyVariable e s = (true, s).
Proof.
  unfold checkPredicate.
  destruct (negb (isIntegral e) && negb (isConstraint e)); simpl;
    [discriminate|].
  destruct (changesAnyVariable e); simpl; [discriminate | reflexivity].
Qed.

Lemma checkMonitoredExpr_pass (e : expression_t) (s : system_t) :
  fst (checkMonitoredExpr changesAnyVariable e s) = true ->
  checkMonitoredExpr changesAnyVariable e s = (true, s).
Proof.
  unfold checkMonitoredExpr.
  destruct (negb (isIntegral e) && negb (isClock e)
            && negb (isDoubleValue e)
            && negb (Ty.is_ (Expr.getType e) DOUBLEINVGUARD)
            && negb (isConstraint e)); simpl; [discriminate|].
  destruct (changesAnyVariable e); simpl; [discriminate | reflexivity].
Qed.

Lemma checkMonitoredExprs_pass (es : list expression_t) (s : system_t) :
  forallb (fun e => fst (checkMonitoredExpr changesAnyVariable e s)) es
  = true ->
  checkMonitoredExprs changesAnyVariable es s = (true, s).
Proof.
  induction es as [|e es IH]; simpl; [reflexivity|].
  rewrite andb_true_iff. intros [He Hes].
  rewrite (checkMonitoredExpr_pass e s He). auto.
Qed.

(** The checks of operands only add errors. *)
Lemma checkBoundTypeOrBoundedExpr_errors (e : expression_t) (s : system_t) :
  exists more,
    errors (snd (checkBoundTypeOrBoundedExpr e s)) = errors s ++ more.
Proof.
  unfold checkBoundTypeOrBoundedExpr.
  destruct (negb (isConstantInteger e) && negb (isClock e)); simpl; eauto.
  exists []. now rewrite app_nil_r.
Qed.

Lemma checkBound_errors (e : expression_t) (s : system_t) :
  exists more,
    errors (snd (checkBound collectPossibleReads compileTimeComputableValues
                            e s))
    = errors s ++ more.
Proof.
  unfold checkBound.
  destruct (isCompileTimeComputable _ _ e); simpl; eauto.
  destruct (isIntegral e); simpl; eauto.
  exists []. now rewrite app_nil_r.
Qed.

(** C7 (amended): in a SIMULATE or SIMULATEREACH query whose operands
    check successfully and whose number of runs is a compile-time computable
    integer constant, a number of runs that is not positive is reported
    with "$Invalid_run_count" and the query is rejected; with a positive
    number of runs and the other operands passing their shape checks the
    query is accepted with the type formula. *)
Theorem simulate_run_count (fuel : nat) (expr runs : expression_t)
        (cs : list expression_t) (s s1 : system_t) :
  Expr.getKind expr = SIMULATE \/ Expr.getKind expr = SIMULATEREACH ->
  checkSubExpressions (check fuel) (Expr.sub expr) s
  = Some (true, runs :: cs, s1) ->
  isCompileTimeComputable collectPossibleReads compileTimeComputableValues
                          runs = true ->
  isConstantInteger runs = true ->
  let expr' := Expr.setSub expr (runs :: cs) in
  (Expr.getValue runs <= 0 ->
   exists s2 more,
     check (S fuel) expr s = Some (false, expr', s2)
     /\ errors s2
        = errors s1
          ++ mkError (Expr.getPosition runs) "$Invalid_run_count"
                     "(typechecking)" :: more)
  /\ (0 < Expr.getValue runs ->
      shapeChecks changesAnyVariable collectPossibleReads
                  compileTimeComputableValues expr' s1 = true ->
      check (S fuel) expr s
      = Some (true, Expr.setType expr' (primitive FORMULA), s1)).
Proof.
  intros Hk Hcs Hcomp Hconst expr'.
  destruct expr as [|k p v sy t cs0]; [destruct Hk; discriminate|].
  simpl in Hk.
  assert (Hstep := checkExpression_step
                     fuel (expression_data k p v sy t cs0) s s1 _
                     eq_refl Hcs).
  assert (Hruns : checkNrOfRuns collectPossibleReads
                                compileTimeComputableValues runs s1
                  = (true, s1)).
  { unfold checkNrOfRuns. now rewrite Hcomp, Hconst. }
  split.
  - intros Hle. apply Z.leb_le in Hle.
    pose (s2 := handleError runs "$Invalid_run_count" s1).
    destruct (checkBoundTypeOrBoundedExpr_errors expr'.[1] s2) as [m1 H1].
    destruct (checkBound_errors
                expr'.[2]
                (snd (checkBoundTypeOrBoundedExpr expr'.[1] s2)))
      as [m2 H2].
    exists (snd (checkBound
                   collectPossibleReads compileTimeComputableValues
                   expr'.[2]
                   (snd (checkBoundTypeOrBoundedExpr expr'.[1] s2)))),
      (m1 ++ m2).
    split.
    + rewrite Hstep. unfold kindOf.
      destruct Hk as [-> | ->]; switch; rewrite Hruns; simpl andb;
        rewrite Hle; fold s2; subst expr'; simpl Expr.setSub;
        destruct (checkBoundTypeOrBoundedExpr _ s2) as [ok2 s3];
        cbn [fst snd];
        destruct (checkBound _ _ _ s3) as [ok3 s4];
        simpl; reflexivity.
    + rewrite H2, H1. subst s2. simpl. now rewrite <- !app_assoc.
  - intros Hpos Hshape. apply Z.leb_gt in Hpos.
    unfold shapeChecks in Hshape. subst expr'.
    simpl Expr.setSub in *. simpl Expr.getKind in Hshape.
    apply andb_true_iff in Hshape as [Hb Hrest].
    apply andb_true_iff in Hb as [Hb1 Hb2].
    apply checkBoundTypeOrBoundedExpr_pass in Hb1.
    apply checkBound_pass in Hb2.
    assert (E2 : forall n, Z.to_nat (Z.of_nat n - 2) = (n - 2)%nat) by lia.
    assert (E1 : forall n, (2 <= n)%nat ->
                           Z.to_nat (Z.of_nat n - 2 + 1) = (n - 1)%nat)
      by lia.
    assert (E5 : forall n, Z.to_nat (Z.of_nat n - 2 - 3) = (n - 5)%nat)
      by lia.
    rewrite Hstep. unfold kindOf.
    destruct Hk as [-> | ->]; switch; rewrite Hruns; simpl andb;
      rewrite Hpos, Hb1, Hb2; cbn [negb andb Expr.sub].
    + assert (Hm : forallb
                     (fun e => fst (checkMonitoredExpr changesAnyVariable
                                                       e s1))
                     (drop 3 (runs :: cs)) = true) by exact Hrest.
      change (SIMULATE =k SIMULATEREACH) with false. cbv iota.
      rewrite take_ge.
      * now rewrite (checkMonitoredExprs_pass _ _ Hm).
      * rewrite length_drop. unfold Expr.getSize, Expr.sub. lia.
    + assert (Hr : (2 <=? Expr.getSize
                            (expression_data SIMULATEREACH p v sy t
                                             (runs :: cs)))%nat
                   && fst (checkPredicate
                             changesAnyVariable
                             (expression_data SIMULATEREACH p v sy t
                                              (runs :: cs)).[
                               Expr.getSize
                                 (expression_data SIMULATEREACH p v sy t
                                                  (runs :: cs)) - 2] s1)
                   && fst (checkNrOfRuns
                             collectPossibleReads compileTimeComputableValues
                             (expression_data SIMULATEREACH p v sy t
                                              (runs :: cs)).[
                               Expr.getSize
                                 (expression_data SIMULATEREACH p v sy t
                                                  (runs :: cs)) - 1] s1)
                   && forallb
                        (fun e => fst (checkMonitoredExpr changesAnyVariable
                                                          e s1))
                        (take (Expr.getSize
                                 (expression_data SIMULATEREACH p v sy t
                                                  (runs :: cs)) - 5)
                              (drop 3 (runs :: cs))) = true) by exact Hrest.
      rewrite !andb_true_iff in Hr.
      destruct Hr as [[[Hn Hp] Hr] Hm].
      apply Nat.leb_le in Hn.
      apply checkPredicate_pass in Hp. apply checkNrOfRuns_pass in Hr.
      change (SIMULATEREACH =k SIMULATEREACH) with true. cbv iota.
      rewrite E2, (E1 _ Hn), E5, Hp, Hr. cbn [negb andb].
      now rewrite (checkMonitoredExprs_pass _ _ Hm).
Qed.

End CheckerProperties.

(** ** Rate decomposition *)

Lemma decompose_unfold (expr : expression_t) (inforall : bool)
      (d : RateDecomposer.t) :
  decompose expr inforall d =
  if negb (isInvariantWR expr) then None
  else if isInvariant expr
  then
    Some (RateDecomposer.mk
            (RateDecomposer.costRate d)
            (if negb inforall
             then conjoin (RateDecomposer.invariant d) expr INVARIANT
             else RateDecomposer.invariant d)
            (if Expr.getKind expr =k LT then true
             else RateDecomposer.hasStrictInvariant d)
            (RateDecomposer.hasClockRates d)
            (RateDecomposer.countCostRates d))
  else
    match expr with
    | expression_null => None
    | expression_data k _ _ _ type cs =>
        if k =k AND
        then
          match cs with
          | e0 :: e1 :: _ =>
              match decompose e0 inforall d with
              | None => None
              | Some d1 => decompose e1 inforall d1
              end
          | _ => None
          end
        else if k =k EQ
        then
          let r0 := Ty.getKind (Expr.getType expr.[0]) =k RATE in
          let r1 := Ty.getKind (Expr.getType expr.[1]) =k RATE in
          if negb (xorb r0 r1) then None
          else
            if isCost (rateOperand expr)
            then
              Some (RateDecomposer.mk
                      (rateValue expr)
                      (RateDecomposer.invariant d)
                      (RateDecomposer.hasStrictInvariant d)
                      (RateDecomposer.hasClockRates d)
                      (S (RateDecomposer.countCostRates d)))
            else
              Some (RateDecomposer.mk
                      (RateDecomposer.costRate d)
                      (if negb inforall
                       then conjoin (RateDecomposer.invariant d) expr
                                    INVARIANT_WR
                       else RateDecomposer.invariant d)
                      (RateDecomposer.hasStrictInvariant d)
                      true
                      (RateDecomposer.countCostRates d))
        else if negb (Ty.is_ type INVARIANT_WR) || negb (k =k FORALL)
        then None
        else
          match cs with
          | _ :: e1 :: _ =>
              match decompose e1 true d with
              | None => None
              | Some d1 =>
                  Some (RateDecomposer.mk
                          (RateDecomposer.costRate d1)
                          (conjoin (RateDecomposer.invariant d1) expr
                                   INVARIANT_WR)
                          (RateDecomposer.hasStrictInvariant d1)
                          (RateDecomposer.hasClockRates d1)
                          (RateDecomposer.countCostRates d1))
              end
          | _ => None
          end
    end.
Proof. destruct expr; reflexivity. Qed.

Lemma conjoinAll_not_empty (inv : expression_t)
      (res : list (expression_t * kind_t)) :
  Expr.empty inv = false -> Expr.empty (conjoinAll inv res) = false.
Proof.
  revert inv. induction res as [|c res IH]; intros inv H; [exact H|].
  apply IH. reflexivity.
Qed.

Lemma last_app_default (A : Type) (l1 l2 : list A) (d : A) :
  List.last (l1 ++ l2) d = List.last l2 (List.last l1 d).
Proof.
  revert d. induction l1 as [|a l1 IH]; intros d; [reflexivity|].
  destruct l1 as [|b l1].
  - simpl. destruct l2; [reflexivity|]. clear IH. revert a d a0.
    induction l2 as [|c l2 IH2]; intros a d a0; [reflexivity|].
    simpl in *. apply IH2; assumption.
  - change (List.last ((a :: b :: l1) ++ l2) d)
      with (List.last ((b :: l1) ++ l2) d).
    rewrite IH. reflexivity.
Qed.

Lemma isRateEquation_data (e : expression_t) :
  isRateEquation e = true ->
  isInvariantWR e = true /\ isInvariant e = false
  /\ xorb (Ty.getKind (Expr.getType e.[0]) =k RATE)
          (Ty.getKind (Expr.getType e.[1]) =k RATE) = true
  /\ exists p v sy t cs, e = expression_data EQ p v sy t cs.
Proof.
  unfold isRateEquation. rewrite !andb_true_iff, negb_true_iff.
  intros [[[Hwr Hinv] Hk] Hx]. repeat split; try assumption.
  apply kind_eqb_eq in Hk. apply getKind_data in Hk; [|discriminate].
  exact Hk.
Qed.

(** [decompose] computes the decomposition of an invariant with rates. *)
Lemma decompose_decomposition (inforall : bool) (e : expression_t)
      (res : list (expression_t * kind_t)) (rs : list expression_t) :
  decomposition inforall e res rs ->
  forall d,
    Expr.empty (RateDecomposer.invariant d) = false ->
    exists strict clocks,
      decompose e inforall d
      = Some (RateDecomposer.mk
                (List.last rs (RateDecomposer.costRate d))
                (conjoinAll (RateDecomposer.invariant d) res)
                strict clocks
                (RateDecomposer.countCostRates d + length rs)).
Proof.
  induction 1 as [b e Hinv | b e Hcost | b e Hclock
                  | b p v sy t e0 e1 res0 rs0 res1 rs1 Hwr Hinv _ IH0 _ IH1
                  | b p v sy t e0 e1 res rs Hwr Hinv _ IH];
    intros d Hd; rewrite decompose_unfold.
  - unfold isInvariantWR. rewrite Hinv. simpl negb. cbv iota.
    rewrite Nat.add_0_r. unfold conjoin. rewrite Hd.
    destruct b; simpl; eauto.
  - unfold isCostRateEquation in Hcost. apply andb_true_iff in Hcost.
    destruct Hcost as [Hrate Hcost].
    apply isRateEquation_data in Hrate.
    destruct Hrate as (Hwr & Hinv & Hx & p & v & sy & t & cs & ->).
    rewrite Hwr, Hinv. simpl negb. cbv iota.
    change (EQ =k AND) with false. change (EQ =k EQ) with true.
    cbv iota zeta. rewrite Hx, Hcost. simpl negb. cbv iota.
    rewrite Nat.add_1_r. simpl. eauto.
  - unfold isClockRateEquation in Hclock. apply andb_true_iff in Hclock.
    destruct Hclock as [Hrate Hclock]. apply negb_true_iff in Hclock.
    apply isRateEquation_data in Hrate.
    destruct Hrate as (Hwr & Hinv & Hx & p & v & sy & t & cs & ->).
    rewrite Hwr, Hinv. simpl negb. cbv iota.
    change (EQ =k AND) with false. change (EQ =k EQ) with true.
    cbv iota zeta. rewrite Hx, Hclock. simpl negb. cbv iota.
    rewrite Nat.add_0_r. unfold conjoin. rewrite Hd.
    destruct b; simpl; eauto.
  - rewrite Hwr, Hinv. simpl negb. cbv iota.
    change (AND =k AND) with true. cbv iota.
    destruct (IH0 d Hd) as (strict0 & clocks0 & ->).
    edestruct (IH1 (RateDecomposer.mk
                      (List.last rs0 (RateDecomposer.costRate d))
                      (conjoinAll (RateDecomposer.invariant d) res0)
                      strict0 clocks0
                      (RateDecomposer.countCostRates d + length rs0)))
      as (strict1 & clocks1 & ->).
    { simpl. now apply conjoinAll_not_empty. }
    simpl. exists strict1, clocks1.
    rewrite last_app_default, length_app, Nat.add_assoc.
    unfold conjoinAll. rewrite fold_left_app. reflexivity.
  - unfold isInvariantWR. rewrite Hinv. simpl Expr.getType. rewrite Hwr.
    simpl. change (FORALL =k AND) with false.
    change (FORALL =k EQ) with false. change (FORALL =k FORALL) with true.
    cbv iota. simpl.
    destruct (IH d Hd) as (strict & clocks & ->). simpl.
    exists strict, clocks. unfold conjoin.
    rewrite (conjoinAll_not_empty _ res Hd).
    unfold conjoinAll. rewrite fold_left_app. reflexivity.
Qed.

Lemma decomposition_isInvariantWR (inforall : bool) (e : expression_t)
      (res : list (expression_t * kind_t)) (rs : list expression_t) :
  decomposition inforall e res rs -> isInvariantWR e = true.
Proof.
  destruct 1 as [b e Hinv | b e Hcost | b e Hclock | | ]; try assumption.
  - unfold isInvariantWR. now rewrite Hinv.
  - apply andb_true_iff in Hcost. destruct Hcost as [Hrate _].
    now apply isRateEquation_data in Hrate.
  - apply andb_true_iff in Hclock. destruct Hclock as [Hrate _].
    now apply isRateEquation_data in Hrate.
  - unfold isInvariantWR. simpl Expr.getType.
    rewrite H. apply orb_true_r.
Qed.

Lemma conjunction_decomposition (e : expression_t)
      (ps rs : list expression_t) :
  conjunction e ps rs ->
  decomposition false e (map (fun p => (p, INVARIANT)) ps) rs.
Proof.
  induction 1 as [e Hinv | e Hcost | p v sy t e0 e1 ps0 rs0 ps1 rs1
                                       Hwr Hinv _ IH0 _ IH1].
  - now apply (decomposition_invariant false).
  - now apply decomposition_costRate.
  - rewrite map_app. now apply decomposition_and.
Qed.

Section StateProperties.

Variable changesAnyVariable : expression_t -> bool.
Variable collectPossibleReads : expression_t -> list symbol_t.
Variable compileTimeComputableValues : symbol_t -> bool.
Variable checkType : type_t -> system_t -> system_t.
Variable toString : type_t -> string.

Let check :=
  checkExpression changesAnyVariable collectPossibleReads
                  compileTimeComputableValues checkType.
Let visitInv :=
  visitStateInvariant changesAnyVariable collectPossibleReads
                      compileTimeComputableValues checkType toString.
Let visitRate :=
  visitStateExponentialRate changesAnyVariable collectPossibleReads
                            compileTimeComputableValues checkType.
Let visit :=
  visitState changesAnyVariable collectPossibleReads
             compileTimeComputableValues checkType toString.

(** The invariant statement of [visitState] on an invariant that is
    accepted by [checkExpression], free of side effects and
    decomposable. *)
Lemma visitStateInvariant_decomposition (fuel : nat) (state : state_t)
      (s s1 : system_t) (inv : expression_t)
      (res : list (expression_t * kind_t)) (rs : list expression_t) :
  Expr.empty (invariant state) = false ->
  check fuel (invariant state) s = Some (true, inv, s1) ->
  changesAnyVariable inv = false ->
  decomposition false inv res rs ->
  exists decomposer s2,
    decompose inv false RateDecomposer.init = Some decomposer
    /\ RateDecomposer.countCostRates decomposer = length rs
    /\ RateDecomposer.costRate decomposer = List.last rs expression_null
    /\ RateDecomposer.invariant decomposer
       = conjoinAll (Expr.createConstant 1) res
    /\ visitInv fuel state s
       = Some (mkState (RateDecomposer.invariant decomposer)
                       (exponentialRate state)
                       (RateDecomposer.costRate decomposer), s2)
    /\ errors s2
       = errors s1
         ++ if (1 <? length rs)%nat
            then [mkError (Expr.getPosition
                             (RateDecomposer.invariant decomposer))
                          "$Only_one_cost_rate_is_allowed" "(typechecking)"]
            else [].
Proof.
  intros Hne Hcheck Hpure Hdec.
  destruct (decompose_decomposition _ _ _ _ Hdec RateDecomposer.init
                                    eq_refl) as (strict & clocks & Hd).
  simpl in Hd.
  eexists. eexists. split; [exact Hd|]. simpl.
  split; [reflexivity|]. split; [reflexivity|]. split; [reflexivity|].
  unfold visitInv, visitStateInvariant. rewrite Hne. simpl negb. cbv iota.
  fold check. rewrite Hcheck. cbv iota beta. unfold visitInvariant.
  simpl invariant.
  rewrite (decomposition_isInvariantWR _ _ _ _ Hdec), Hpure.
  simpl negb. cbv iota. rewrite Hd. simpl.
  split; [reflexivity|].
  destruct (1 <? length rs)%nat, clocks, strict; simpl;
    rewrite ?app_nil_r; reflexivity.
Qed.

(** C1 (amended): for a state whose checked invariant is a conjunction of
    pure invariants and exactly one cost-rate equation [rate(c) == e],
    [visitState] rewrites the invariant to the conjunction
    [1 && p1 && ... && pn] of the constant 1, with which the decomposer
    starts, and the pure invariants in their order (so [1 && x <= 3] in
    scenario 2); the cost rate is [e], one cost rate is counted and the
    decomposition emits no error. *)
Theorem visitState_conjunction (fuel : nat) (state : state_t)
        (s s1 : system_t) (inv rate : expression_t)
        (ps : list expression_t) :
  Expr.empty (invariant state) = false ->
  check fuel (invariant state) s = Some (true, inv, s1) ->
  changesAnyVariable inv = false ->
  conjunction inv ps [rate] ->
  let residual :=
    conjoinAll (Expr.createConstant 1) (map (fun p => (p, INVARIANT)) ps) in
  let state1 := mkState residual (exponentialRate state) rate in
  exists decomposer s2,
    decompose inv false RateDecomposer.init = Some decomposer
    /\ RateDecomposer.countCostRates decomposer = 1%nat
    /\ RateDecomposer.invariant decomposer = residual
    /\ RateDecomposer.costRate decomposer = rate
    /\ visitInv fuel state s = Some (state1, s2)
    /\ visit fuel state s = visitRate fuel state1 s2
    /\ errors s2 = errors s1.
Proof.
  intros Hne Hcheck Hpure Hconj residual state1.
  apply conjunction_decomposition in Hconj.
  destruct (visitStateInvariant_decomposition
              fuel state s s1 inv _ _ Hne Hcheck Hpure Hconj)
    as (decomposer & s2 & Hd & Hcount & Hrate & Hinv & Hvisit & Herr).
  simpl in Hcount, Hrate, Herr. rewrite app_nil_r in Herr.
  rewrite Hinv, Hrate in Hvisit. fold residual in Hinv, Hvisit.
  exists decomposer, s2. repeat (split; [assumption|]).
  split; [|assumption].
  unfold visit, visitState. fold visitInv. rewrite Hvisit. reflexivity.
Qed.


End StateProperties.

(** ** Initialisers *)

Lemma errors_handleError (e : expression_t) (msg : string) (s : system_t) :
  errors (handleError e msg s)
  = errors s ++ [mkError (Expr.getPosition e) msg "(typechecking)"].
Proof. reflexivity. Qed.

Section InitialiserLoops.

Variable rec : type_t -> expression_t -> system_t -> initResult.
Variable type : type_t.
Variable init : expression_t.

Hypothesis rec_errors :
  forall t e s r s', rec t e s = Some (r, s') ->
                     exists more, errors s' = errors s ++ more.

Lemma arrayInitialiser_errors (n i : nat) (result : list expression_t)
      (s : system_t) (result' : list expression_t) (s' : system_t) :
  arrayInitialiser rec type init n i result s = Some (result', s') ->
  exists more, errors s' = errors s ++ more.
Proof.
  revert i result s. induction n as [|n IH]; intros i result s; simpl.
  - intros [= <- <-]. exists []. now rewrite app_nil_r.
  - match goal with
    | |- context [rec type init.[i] ?s1] =>
        assert (H1 : exists m1, errors s1 = errors s ++ m1);
        [|destruct (rec type init.[i] s1) as [[r s2]|] eqn:Hrec;
          [|discriminate]]
    end.
    { destruct (negb _); [|exists []; now rewrite app_nil_r].
      rewrite errors_handleError. eauto. }
    destruct H1 as [m1 H1]. intros H. apply IH in H.
    destruct H as [m3 H]. apply rec_errors in Hrec.
    destruct Hrec as [m2 Hrec].
    exists (m1 ++ m2 ++ m3). rewrite H, Hrec, H1.
    now rewrite <- !app_assoc.
Qed.

Lemma recordInitialiser_errors (n i : nat) (current : Z)
      (result : list expression_t) (s : system_t)
      (result' : list expression_t) (s' : system_t) :
  recordInitialiser rec type init n i current result s
  = Some (result', s') ->
  exists more, errors s' = errors s ++ more.
Proof.
  revert i current result s.
  induction n as [|n IH]; intros i current result s; simpl.
  - intros [= <- <-]. exists []. now rewrite app_nil_r.
  - destruct (_ && _).
    { intros [= <- <-]. rewrite errors_handleError. eauto. }
    destruct (_ <=? _).
    { intros [= <- <-]. rewrite errors_handleError. eauto. }
    destruct (negb _).
    { intros H. apply IH in H. destruct H as [m H].
      rewrite H, errors_handleError, <- app_assoc. eauto. }
    destruct (rec _ _ s) as [[r s1]|] eqn:Hrec; [|discriminate].
    intros H. apply IH in H. destruct H as [m2 H].
    apply rec_errors in Hrec. destruct Hrec as [m1 Hrec].
    rewrite H, Hrec, <- app_assoc. eauto.
Qed.

End InitialiserLoops.

(** [checkInitialiser] only adds errors. *)
Lemma checkInitialiser_errors (fuel : nat) (type : type_t)
      (init : expression_t) (s : system_t) (r : expression_t)
      (s' : system_t) :
  checkInitialiser fuel type init s = Some (r, s') ->
  exists more, errors s' = errors s ++ more.
Proof.
  revert type init s r s'.
  induction fuel as [|fuel IH]; intros type init s r s'; [discriminate|].
  simpl. destruct (areAssignmentCompatible _ _ _).
  { intros [= <- <-]. exists []. now rewrite app_nil_r. }
  destruct (_ && _).
  { destruct (arrayInitialiser _ _ _ _ _ _ _) as [[result s1]|] eqn:Hloop;
      [|discriminate].
    intros [= <- <-]. eapply arrayInitialiser_errors; [|exact Hloop].
    exact IH. }
  destruct (_ || _).
  { destruct (recordInitialiser _ _ _ _ _ _ _ _) as [[result s1]|]
      eqn:Hloop; [|discriminate].
    intros [= <- <-].
    eapply recordInitialiser_errors in Hloop; [|exact IH].
    destruct Hloop as [m Hloop].
    destruct (existsb _ _); [|eauto].
    rewrite errors_handleError, Hloop, <- app_assoc. eauto. }
  intros [= <- <-]. rewrite errors_handleError. eauto.
Qed.

Section InitialiserReturns.

Variable rec : type_t -> expression_t -> system_t -> initResult.
Variable type : type_t.
Variable init : expression_t.

Hypothesis rec_returns :
  forall t i s, exists r s', rec t init.[i] s = Some (r, s').

Lemma arrayInitialiser_returns (n i : nat) (result : list expression_t)
      (s : system_t) :
  exists result' s',
    arrayInitialiser rec type init n i result s = Some (result', s').
Proof.
  revert i result s. induction n as [|n IH]; intros i result s; simpl;
    [eauto|].
  match goal with
  | |- context [rec type init.[i] ?s1] =>
      destruct (rec_returns type i s1) as (r & s2 & ->)
  end.
  apply IH.
Qed.

Lemma recordInitialiser_returns (n i : nat) (current : Z)
      (result : list expression_t) (s : system_t) :
  exists result' s',
    recordInitialiser rec type init n i current result s
    = Some (result', s').
Proof.
  revert i current result s.
  induction n as [|n IH]; intros i current result s; simpl; [eauto|].
  destruct (_ && _); [eauto|].
  destruct (_ <=? _); [eauto|].
  destruct (negb _); [apply IH|].
  match goal with
  | |- context [rec ?t init.[i] s] =>
      destruct (rec_returns t i s) as (r & s2 & ->)
  end.
  apply IH.
Qed.

End InitialiserReturns.

(** With fuel above the height of the initialiser, [checkInitialiser]
    returns. *)
Lemma checkInitialiser_returns (fuel : nat) (type : type_t)
      (init : expression_t) (s : system_t) :
  (expression_height init < fuel)%nat ->
  exists r s', checkInitialiser fuel type init s = Some (r, s').
Proof.
  revert type init s.
  induction fuel as [|fuel IH]; intros type init s Hfuel; [lia|].
  simpl. destruct (areAssignmentCompatible _ _ _); [eauto|].
  destruct init as [|k p v sy t0 cs].
  { (* the empty expression has no entries *)
    change (Expr.getKind expression_null =k LIST) with false.
    rewrite andb_false_r, orb_false_r.
    destruct (Ty.isRecord type); simpl; eauto. }
  assert (Hrec : forall t i s0,
             exists r s',
               checkInitialiser fuel t
                                (expression_data k p v sy t0 cs).[i] s0
               = Some (r, s')).
  { intros t i s0. apply IH.
    pose proof (height_sub (expression_data k p v sy t0 cs) i).
    simpl in *. lia. }
  destruct (_ && _).
  { destruct (arrayInitialiser_returns
                _ (Ty.getSub type) _ Hrec
                (Ty.size (Expr.getType (expression_data k p v sy t0 cs)))
                O (replicate
                     (Expr.getSize (expression_data k p v sy t0 cs))
                     expression_null) s)
      as (result & s1 & ->).
    eauto. }
  destruct (_ || _); [|eauto].
  destruct (recordInitialiser_returns
              _ type _ Hrec
              (Ty.size (Expr.getType (expression_data k p v sy t0 cs)))
              O 0 (replicate (Ty.getRecordSize type) expression_null) s)
    as (result & s1 & ->).
  eauto.
Qed.

(** *** The loop over the entries of a record initialiser *)

Lemma indexOf_bounds (label : string) (fields : list (string * type_t))
      (i : Z) :
  0 <= i ->
  Ty.indexOf label fields i = -1
  \/ i <= Ty.indexOf label fields i < i + Z.of_nat (length fields).
Proof.
  revert i. induction fields as [|[l c] fields IH]; intros i Hi; simpl;
    [now left|].
  destruct (String.eqb l label); [right; lia|].
  destruct (IH (i + 1)) as [H | H]; [lia | now left | right; lia].
Qed.

Lemma findIndexOf_bounds (type : type_t) (label : string) :
  Ty.findIndexOf type label = -1
  \/ 0 <= Ty.findIndexOf type label < Z.of_nat (Ty.getRecordSize type).
Proof.
  unfold Ty.findIndexOf, Ty.getRecordSize, Ty.size.
  destruct (indexOf_bounds label (Ty.children (Ty.strip RECORD type)) 0)
    as [H | H]; [lia | now left | right; lia].
Qed.

Section RecordInitialiser.

Variable rec : type_t -> expression_t -> system_t -> initResult.
Variable type : type_t.
Variable init : expression_t.

(** The entries [i], ..., [i + n - 1] of the initialiser, whose labels
    are [ls], are entered into [result]. *)
Lemma recordInitialiser_entries (n : nat) :
  forall (i : nat) (current : Z) (result : list expression_t)
         (s : system_t) (ls : list string)
         (result' : list expression_t) (s' : system_t),
    length ls = n ->
    (forall j, (j < n)%nat ->
               ls !! j = Some (Ty.getLabel (Expr.getType init) (i + j))) ->
    0 <= current ->
    recordInitialiser rec type init n i current result s
    = Some (result', s') ->
    length result' = length result
    /\ (forall k e,
          result' !! k = Some e ->
          result !! k = Some e
          \/ exists j,
              designations type ls current !! j = Some (Z.of_nat k)
              /\ exists sa sb,
                  rec (Ty.getField type k) init.[i + j] sa = Some (e, sb))
    /\ (forall k, ~ In (Z.of_nat k) (designations type ls current) ->
                  result' !! k = result !! k).
Proof.
  induction n as [|n IH];
    intros i current result s ls result' s' Hlen Hls Hcur.
  - destruct ls; [|discriminate]. simpl. intros [= <- <-]. auto.
  - destruct ls as [|l ls]; [discriminate|].
    assert (Hl : l = Ty.getLabel (Expr.getType init) i).
    { specialize (Hls O ltac:(lia)). rewrite Nat.add_0_r in Hls.
      now injection Hls. }
    assert (Hls' : forall j, (j < n)%nat ->
                     ls !! j
                     = Some (Ty.getLabel (Expr.getType init) (S i + j))).
    { intros j Hj. specialize (Hls (S j) ltac:(lia)).
      rewrite Nat.add_succ_r in Hls. exact Hls. }
    simpl in Hlen. injection Hlen as Hlen.
    simpl recordInitialiser. simpl designations. rewrite <- Hl.
    set (field := if String.eqb l "" then current
                  else Ty.findIndexOf type l).
    assert (Hfield : (if negb (String.eqb l "") then Ty.findIndexOf type l
                      else current) = field).
    { unfold field. now destruct (String.eqb l ""). }
    rewrite Hfield.
    destruct (negb (String.eqb l "") && (field =? -1)) eqn:Hunknown.
    { intros [= <- <-]. auto. }
    destruct (Z.of_nat (Ty.getRecordSize type) <=? field) eqn:Hmany.
    { intros [= <- <-]. auto. }
    assert (Hpos : 0 <= field).
    { unfold field in *. destruct (String.eqb l ""); [exact Hcur|].
      simpl in Hunknown. apply Z.eqb_neq in Hunknown.
      destruct (findIndexOf_bounds type l); lia. }
    destruct (negb (Expr.empty _)) eqn:Hfull.
    + (* the field has an initialiser already *)
      intros H.
      apply (IH (S i) (field + 1) result _ ls result' s' Hlen Hls'
                ltac:(lia)) in H.
      destruct H as (H1 & H2 & H3). split; [exact H1|]. split.
      * intros k e Hk. destruct (H2 k e Hk) as [H | (j & Hj & sa & sb & H)];
          [now left|].
        right. exists (S j). split; [exact Hj|].
        exists sa, sb. now rewrite Nat.add_succ_r.
      * intros k Hk. apply H3. intros Hin. apply Hk. now right.
    + destruct (rec _ _ s) as [[r s1]|] eqn:Hrec; [|discriminate].
      intros H.
      apply (IH (S i) (field + 1) _ _ ls result' s' Hlen Hls'
                ltac:(lia)) in H.
      destruct H as (H1 & H2 & H3). rewrite length_insert in H1.
      split; [exact H1|]. split.
      * intros k e Hk. destruct (H2 k e Hk) as [H | (j & Hj & sa & sb & H)].
        -- destruct (Nat.eq_dec (Z.to_nat field) k) as [<- | Hne].
           ++ right. exists O. split; [simpl; f_equal; lia|].
              apply list_lookup_insert_Some in H.
              destruct H as [(_ & <- & _) | (Hne & _)]; [|congruence].
              rewrite Nat.add_0_r. eauto.
           ++ left. now rewrite list_lookup_insert_ne in H.
        -- right. exists (S j). split; [exact Hj|].
           exists sa, sb. now rewrite Nat.add_succ_r.
      * intros k Hk. rewrite H3 by (intros Hin; apply Hk; now right).
        apply list_lookup_insert_ne. intros Heq. apply Hk. left. lia.
Qed.

End RecordInitialiser.

(** *** Records *)

Lemma isRecord_only (a : type_t) :
  Ty.isRecord a = true ->
  Ty.isInteger a = false /\ Ty.isBoolean a = false /\ Ty.isClock a = false
  /\ Ty.isChannel a = false /\ Ty.isArray a = false
  /\ Ty.isScalar a = false /\ Ty.isDouble a = false.
Proof.
  unfold Ty.isRecord, Ty.isInteger, Ty.isBoolean, Ty.isClock, Ty.isChannel,
    Ty.isArray, Ty.isScalar, Ty.isDouble.
  intros H. repeat split;
    apply (is_exclusive a RECORD); (reflexivity || discriminate || exact H).
Qed.

Lemma areEquivalent_record (a b : type_t) :
  Ty.isRecord a = true -> areEquivalent a b = true ->
  Ty.getRecordSize a = Ty.getRecordSize b
  /\ forall i, (i < Ty.getRecordSize a)%nat ->
               Ty.getRecordLabel a i = Ty.getRecordLabel b i
               /\ areEquivalent (Ty.getField a i) (Ty.getField b i) = true.
Proof.
  intros Hrec Hall. unfold areEquivalent in Hall.
  pose proof (isInteger_not_null RECORD a Hrec ltac:(discriminate)) as Hh.
  destruct (type_height a) as [|n] eqn:Hn; [lia|].
  rewrite areEquivalent_rec_S in Hall.
  destruct (isRecord_only a Hrec) as (Hi & Hb & Hc & Hch & Ha & Hs & Hd).
  rewrite Hi, Hb, Hc, Hch, Ha, Hs, Hd, Hrec in Hall. simpl in Hall.
  destruct (Ty.isRecord b); [|discriminate].
  destruct (Nat.eqb _ _) eqn:Hsize; [|discriminate].
  apply Nat.eqb_eq in Hsize. split; [exact Hsize|].
  intros i Hlt. rewrite forallb_forall in Hall.
  specialize (Hall i ltac:(apply in_seq; lia)).
  apply andb_true_iff in Hall. destruct Hall as [Hl He].
  apply String.eqb_eq in Hl. split; [exact Hl|].
  rewrite <- (areEquivalent_rec_enough n); [exact He|].
  apply height_field. lia.
Qed.

Lemma areAssignmentCompatible_record (type rvalue : type_t) :
  Ty.isRecord type = true ->
  areAssignmentCompatible type rvalue true = areEquivalent type rvalue.
Proof.
  intros Hrec. unfold areAssignmentCompatible, Ty.isIntegral.
  destruct (isRecord_only type Hrec) as (-> & -> & -> & _).
  reflexivity.
Qed.

Lemma areAssignmentCompatible_equivalent (lvalue rvalue : type_t)
      (init : bool) :
  areEquivalent lvalue rvalue = true ->
  areAssignmentCompatible lvalue rvalue init = true.
Proof.
  intros H. unfold areAssignmentCompatible. rewrite H.
  now repeat match goal with |- context [if ?c then _ else _] =>
                         destruct c end.
Qed.

Lemma labels_lookup (t : type_t) (j : nat) :
  (j < Ty.size t)%nat ->
  map fst (Ty.children t) !! j = Some (Ty.getLabel t j).
Proof.
  unfold Ty.size, Ty.getLabel. intros Hj.
  rewrite list_lookup_fmap.
  destruct (Ty.children t !! j) as [[l c]|] eqn:H; [reflexivity|].
  apply lookup_ge_None in H. lia.
Qed.

Lemma indexOf_NoDup (fields : list (string * type_t)) (start : Z)
      (i : nat) (l : string) (c : type_t) :
  NoDup (map fst fields) -> fields !! i = Some (l, c) ->
  Ty.indexOf l fields start = start + Z.of_nat i.
Proof.
  revert start i. induction fields as [|[l' c'] fields IH];
    intros start i Hnd Hi; [discriminate|].
  simpl in Hnd. apply NoDup_cons in Hnd. destruct Hnd as [Hnotin Hnd].
  destruct i as [|i]; simpl in *.
  - injection Hi as -> ->. rewrite String.eqb_refl. lia.
  - destruct (String.eqb l' l) eqn:Heq.
    + apply String.eqb_eq in Heq. subst l'. exfalso. apply Hnotin.
      apply list_elem_of_fmap. exists (l, c). split; [reflexivity|].
      eapply list_elem_of_lookup_2. exact Hi.
    + rewrite (IH (start + 1) i Hnd Hi). lia.
Qed.

Lemma findIndexOf_label (type : type_t) (i : nat) :
  NoDup (recordLabels type) -> (i < Ty.getRecordSize type)%nat ->
  Ty.findIndexOf type (Ty.getRecordLabel type i) = Z.of_nat i.
Proof.
  unfold recordLabels, Ty.getRecordSize, Ty.size, Ty.findIndexOf,
    Ty.getRecordLabel, Ty.getLabel.
  intros Hnd Hi.
  destruct (Ty.children (Ty.strip RECORD type) !! i) as [[l c]|] eqn:H.
  - now rewrite (indexOf_NoDup _ 0 i l c Hnd H).
  - apply lookup_ge_None in H. lia.
Qed.

(** Entries labelled like the fields of the record, in their order,
    designate the fields in their order. *)
Lemma designations_in_order (type : type_t) (ls : list string) (c : nat) :
  NoDup (recordLabels type) ->
  (c + length ls <= Ty.getRecordSize type)%nat ->
  (forall j, (j < length ls)%nat ->
             ls !! j = Some (Ty.getRecordLabel type (c + j))) ->
  designations type ls (Z.of_nat c) = map Z.of_nat (seq c (length ls)).
Proof.
  intros Hnd. revert c. induction ls as [|l ls IH]; intros c Hc Hls;
    [reflexivity|].
  simpl in *.
  assert (Hl : l = Ty.getRecordLabel type c).
  { specialize (Hls O ltac:(lia)). rewrite Nat.add_0_r in Hls.
    now injection Hls. }
  assert (Hfield : (if String.eqb l "" then Z.of_nat c
                    else Ty.findIndexOf type l) = Z.of_nat c).
  { destruct (String.eqb l ""); [reflexivity|].
    rewrite Hl. apply findIndexOf_label; [exact Hnd | lia]. }
  rewrite Hfield. f_equal.
  replace (Z.of_nat c + 1) with (Z.of_nat (S c)) by lia.
  apply IH; [lia|].
  intros j Hj. specialize (Hls (S j) ltac:(lia)).
  now rewrite Nat.add_succ_r in Hls.
Qed.

Lemma errors_unchanged (A : Type) (l m : list A) : l = l ++ m -> m = [].
Proof.
  intros H. apply (f_equal (@length A)) in H. rewrite length_app in H.
  destruct m; [reflexivity | simpl in H; lia].
Qed.

Section RecordReordering.

Variable rec : type_t -> expression_t -> system_t -> initResult.
Variable type : type_t.
Variable init : expression_t.

(** When the entries [i], ..., [i + n - 1] designate distinct fields that
    have no initialiser yet and each entry is accepted as it is for its
    field, the loop enters every entry at the field it designates and
    reports nothing. *)
Lemma recordInitialiser_reorders (n : nat) :
  forall (i : nat) (current : Z) (result : list expression_t)
         (s : system_t) (ls : list string),
    length ls = n ->
    (forall j, (j < n)%nat ->
               ls !! j = Some (Ty.getLabel (Expr.getType init) (i + j))) ->
    length result = Ty.getRecordSize type ->
    NoDup (designations type ls current) ->
    (forall d, In d (designations type ls current) ->
               0 <= d < Z.of_nat (Ty.getRecordSize type)
               /\ result !! Z.to_nat d = Some expression_null) ->
    (forall j d, designations type ls current !! j = Some d ->
                 rec (Ty.getField type (Z.to_nat d)) init.[i + j] s
                 = Some (init.[i + j], s)) ->
    exists result',
      recordInitialiser rec type init n i current result s
      = Some (result', s)
      /\ length result' = length result
      /\ (forall j d, designations type ls current !! j = Some d ->
                      result' !! Z.to_nat d = Some init.[i + j])
      /\ (forall k, ~ In (Z.of_nat k) (designations type ls current) ->
                    result' !! k = result !! k).
Proof.
  induction n as [|n IH];
    intros i current result s ls Hlen Hls Hsize Hnd Hfree Hrec.
  - destruct ls; [|discriminate]. simpl. exists result.
    repeat split; auto. intros j d H. now rewrite lookup_nil in H.
  - destruct ls as [|l ls]; [discriminate|].
    assert (Hl : l = Ty.getLabel (Expr.getType init) i).
    { specialize (Hls O ltac:(lia)). rewrite Nat.add_0_r in Hls.
      now injection Hls. }
    assert (Hls' : forall j, (j < n)%nat ->
                     ls !! j
                     = Some (Ty.getLabel (Expr.getType init) (S i + j))).
    { intros j Hj. specialize (Hls (S j) ltac:(lia)).
      rewrite Nat.add_succ_r in Hls. exact Hls. }
    simpl in Hlen. injection Hlen as Hlen.
    simpl recordInitialiser. simpl designations in *. rewrite <- Hl.
    set (field := if String.eqb l "" then current
                  else Ty.findIndexOf type l) in *.
    assert (Hfield : (if negb (String.eqb l "") then Ty.findIndexOf type l
                      else current) = field).
    { unfold field. now destruct (String.eqb l ""). }
    rewrite Hfield.
    destruct (Hfree field (or_introl eq_refl)) as [Hrange Hnull].
    replace (field =? -1) with false by (symmetry; apply Z.eqb_neq; lia).
    rewrite andb_false_r.
    replace (Z.of_nat (Ty.getRecordSize type) <=? field) with false
      by (symmetry; apply Z.leb_gt; lia).
    rewrite Hnull. cbn [default from_option id Expr.empty negb].
    pose proof (Hrec O field eq_refl) as Hentry.
    rewrite Nat.add_0_r in Hentry. rewrite Hentry.
    assert (Hnotin : ~ In field (designations type ls (field + 1)))
      by (rewrite <- list_elem_of_In; inversion Hnd; assumption).
    assert (Hnd' : NoDup (designations type ls (field + 1)))
      by (inversion Hnd; assumption).
    destruct (IH (S i) (field + 1)
                 (<[Z.to_nat field := init.[i]]> result) s ls Hlen Hls')
      as (result' & Hloop & Hlen' & Hentries & Hrest).
    + now rewrite length_insert.
    + exact Hnd'.
    + intros d Hd. destruct (Hfree d (or_intror Hd)) as [Hd1 Hd2].
      split; [exact Hd1|].
      rewrite list_lookup_insert_ne; [exact Hd2|].
      intros Heq. apply Hnotin.
      assert (field = d) as -> by lia. exact Hd.
    + intros j d Hj. specialize (Hrec (S j) d Hj).
      now rewrite Nat.add_succ_r in Hrec.
    + exists result'. split; [exact Hloop|]. split.
      { now rewrite Hlen', length_insert. }
      split.
      * intros [|j] d Hj; simpl in Hj.
        -- injection Hj as <-. rewrite Nat.add_0_r.
           rewrite Hrest by (now rewrite Z2Nat.id by lia).
           apply list_lookup_insert_eq. lia.
        -- rewrite Nat.add_succ_r. now apply Hentries.
      * intros k Hk. rewrite Hrest by (intros Hin; apply Hk; now right).
        apply list_lookup_insert_ne. intros Heq. apply Hk. left. lia.
Qed.

End RecordReordering.

Lemma fields_NoDup (n : nat) : NoDup (map Z.of_nat (seq 0 n)).
Proof.
  apply NoDup_fmap_2; [intros x y; lia | apply NoDup_seq].
Qed.

Lemma designated_length (type : type_t) (ls : list string) (c : Z) :
  length (designations type ls c) = length ls.
Proof.
  revert c. induction ls as [|l ls IH]; intros c; [reflexivity|].
  simpl. now rewrite IH.
Qed.

(** The entries of a list initialiser are as many as the fields of its
    type. *)
Lemma listInitialiser_size (init : expression_t) :
  listInitialiser init ->
  Ty.size (Expr.getType init) = Expr.getSize init.
Proof.
  intros (_ & fields & Hty & Hmap). rewrite Hty. unfold Expr.getSize.
  rewrite <- (length_map Expr.getType), <- Hmap, length_map.
  reflexivity.
Qed.

Lemma height_entry (init : expression_t) (j : nat) :
  Expr.empty init.[j] = false -> (2 <= expression_height init)%nat.
Proof.
  intros H. pose proof (height_sub init j).
  destruct init.[j]; [discriminate|]. simpl in *. lia.
Qed.

(** An initialiser of a compatible type is accepted as it is. *)
Lemma checkInitialiser_compatible (fuel : nat) (type : type_t)
      (init : expression_t) (s : system_t) :
  areAssignmentCompatible type (Expr.getType init) true = true ->
  checkInitialiser (S fuel) type init s = Some (init, s).
Proof. intros H. simpl. now rewrite H. Qed.

(** A record initialiser whose entries designate every field once and
    are each compatible with the field they designate is accepted
    without an error and reordered: the i-th child of the result is the
    entry that designates the i-th field. *)
Lemma checkInitialiser_reorders (fuel : nat) (type : type_t)
      (init r : expression_t) (s s' : system_t) :
  Ty.isRecord type = true ->
  listInitialiser init ->
  NoDup (recordLabels type) ->
  (expression_height init < fuel)%nat ->
  checkInitialiser fuel type init s = Some (r, s') ->
  Permutation (designated type init)
              (map Z.of_nat (seq 0 (Ty.getRecordSize type))) ->
  (forall j, (j < Expr.getSize init)%nat -> Expr.empty init.[j] = false) ->
  (forall i j, designated type init !! j = Some (Z.of_nat i) ->
               areAssignmentCompatible (Ty.getField type i)
                                       (Expr.getType init.[j]) true
               = true) ->
  s' = s /\ Expr.getKind r = LIST
  /\ Expr.getSize r = Ty.getRecordSize type
  /\ forall i j, designated type init !! j = Some (Z.of_nat i) ->
                 r.[i] = init.[j].
Proof.
  intros Hrec Hlist Hnd Hfuel Hcheck Hperm Hfull Hcompat.
  pose proof (listInitialiser_size init Hlist) as Hn.
  destruct Hlist as (Hkind & fields & Hty & Hmap).
  assert (Hdlen : length (designated type init) = Expr.getSize init).
  { unfold designated. now rewrite designated_length, length_map. }
  assert (Hsize : Expr.getSize init = Ty.getRecordSize type).
  { rewrite <- Hdlen, (Permutation_length Hperm), length_map.
    apply length_seq. }
  assert (Hin : forall d, In d (designated type init) <->
                          exists i, d = Z.of_nat i
                                    /\ (i < Ty.getRecordSize type)%nat).
  { intros d. split.
    - intros H. apply (Permutation_in _ Hperm) in H.
      apply in_map_iff in H. destruct H as (i & <- & Hi).
      apply in_seq in Hi. exists i. split; [reflexivity | lia].
    - intros (i & -> & Hi).
      apply (Permutation_in _ (Permutation_sym Hperm)).
      apply in_map, in_seq. lia. }
  destruct fuel as [|fuel]; [lia|]. simpl in Hcheck.
  rewrite (areAssignmentCompatible_record _ _ Hrec) in Hcheck.
  destruct (areEquivalent type (Expr.getType init)) eqn:Heq.
  - (* the initialiser has the type of the record already *)
    injection Hcheck as <- <-.
    destruct (areEquivalent_record _ _ Hrec Heq) as [Hrs Hfields].
    assert (Hdes : designated type init
                   = map Z.of_nat (seq 0 (Ty.getRecordSize type))).
    { unfold designated.
      replace (Ty.getRecordSize type)
        with (length (map fst (Ty.children (Expr.getType init))))
        by (rewrite length_map, Hrs, Hty; reflexivity).
      apply (designations_in_order type _ O Hnd).
      - rewrite length_map, Hrs, Hty. reflexivity.
      - intros j Hj. rewrite length_map in Hj.
        rewrite (labels_lookup (Expr.getType init) j Hj). simpl. f_equal.
        destruct (Hfields j) as [-> _];
          [rewrite Hrs, Hty; rewrite Hty in Hj; exact Hj
          | now rewrite Hty]. }
    repeat split; [exact Hkind | exact Hsize |].
    intros i j Hj. rewrite Hdes, list_lookup_fmap in Hj.
    destruct (seq 0 (Ty.getRecordSize type) !! j) as [k|] eqn:Hk;
      [|discriminate].
    apply lookup_seq in Hk. destruct Hk as [-> _]. simpl in Hj.
    injection Hj as Hj. apply Nat2Z.inj in Hj. now subst.
  - (* the entries are entered one by one *)
    destruct (isRecord_only type Hrec) as (_ & _ & _ & _ & Harr & _).
    rewrite Harr, Hrec in Hcheck. simpl in Hcheck.
    destruct (recordInitialiser_reorders
                (checkInitialiser fuel) type init
                (Ty.size (Expr.getType init)) O 0
                (replicate (Ty.getRecordSize type) expression_null) s
                (map fst (Ty.children (Expr.getType init))))
      as (result & Hloop & Hlen & Hentries & _).
    + now rewrite length_map.
    + intros j Hj. now apply labels_lookup.
    + apply length_replicate.
    + fold (designated type init). rewrite Hperm. apply fields_NoDup.
    + intros d Hd. apply Hin in Hd. destruct Hd as (i & -> & Hi).
      split; [lia|]. rewrite Nat2Z.id. now apply lookup_replicate.
    + intros j d Hj. simpl.
      assert (Hd : In d (designated type init)).
      { apply list_elem_of_In. eapply list_elem_of_lookup_2. exact Hj. }
      apply Hin in Hd. destruct Hd as (i & -> & Hi).
      assert (Hlt : (j < Expr.getSize init)%nat).
      { rewrite <- Hdlen. eapply lookup_lt_Some. exact Hj. }
      pose proof (height_entry init j (Hfull j Hlt)) as Hh.
      destruct fuel as [|fuel]; [lia|].
      rewrite Nat2Z.id. apply checkInitialiser_compatible.
      now apply Hcompat.
    + fold (designated type init) in Hentries.
      rewrite Hloop in Hcheck.
      rewrite length_replicate in Hlen.
      assert (Hchild : forall i, (i < Ty.getRecordSize type)%nat ->
                 exists j, (j < Expr.getSize init)%nat
                           /\ result !! i = Some init.[j]).
      { intros i Hi.
        assert (Hd : In (Z.of_nat i) (designated type init))
          by (apply Hin; eauto).
        apply list_elem_of_In, list_elem_of_lookup_1 in Hd.
        destruct Hd as [j Hj]. exists j. split.
        - rewrite <- Hdlen. eapply lookup_lt_Some. exact Hj.
        - specialize (Hentries j _ Hj). now rewrite Nat2Z.id in Hentries. }
      assert (Hnone : existsb Expr.empty result = false).
      { destruct (existsb Expr.empty result) eqn:He; [|reflexivity].
        apply existsb_exists in He. destruct He as (e & He & Hempty).
        apply list_elem_of_In, list_elem_of_lookup_1 in He.
        destruct He as [i Hi].
        destruct (Hchild i) as (j & Hj & Hr).
        { rewrite <- Hlen. eapply lookup_lt_Some. exact Hi. }
        rewrite Hi in Hr. injection Hr as ->.
        now rewrite (Hfull j Hj) in Hempty. }
      rewrite Hnone in Hcheck. injection Hcheck as <- <-.
      repeat split; [exact Hlen |].
      intros i j Hj. specialize (Hentries j _ Hj).
      rewrite Nat2Z.id in Hentries.
      unfold Expr.get at 1. simpl. now rewrite Hentries.
Qed.

(** C3: with enough fuel [checkInitialiser] returns.  For a record type
    and a list initialiser, when no error is emitted the result is a LIST
    with one child per declared field, the i-th child being the checked
    initialiser of an entry that designates the i-th field, in whatever
    order the entries are written; when a declared field is designated
    by no entry, "$Incomplete_initialiser" is emitted; and when the
    entries designate every field once, in whatever order, and each is
    compatible with the field it designates, no error is emitted and the
    i-th child of the result is the entry that designates the i-th
    field. *)
Theorem checkInitialiser_record (fuel : nat) (type : type_t)
        (init : expression_t) (s : system_t) :
  Ty.isRecord type = true ->
  listInitialiser init ->
  NoDup (recordLabels type) ->
  (expression_height init < fuel)%nat ->
  exists r s',
    checkInitialiser fuel type init s = Some (r, s')
    /\ (errors s' = errors s ->
        Expr.getKind r = LIST
        /\ Expr.getSize r = Ty.getRecordSize type
        /\ forall i,
            (i < Ty.getRecordSize type)%nat ->
            exists j,
              designated type init !! j = Some (Z.of_nat i)
              /\ exists fuel' sa sb,
                  checkInitialiser fuel' (Ty.getField type i) init.[j] sa
                  = Some (r.[i], sb))
    /\ (forall i,
          (i < Ty.getRecordSize type)%nat ->
          ~ In (Z.of_nat i) (designated type init) ->
          exists more,
            errors s' = errors s ++ more
            /\ In "$Incomplete_initialiser" (map errMessage more))
    /\ (Permutation (designated type init)
                    (map Z.of_nat (seq 0 (Ty.getRecordSize type))) ->
        (forall j, (j < Expr.getSize init)%nat ->
                   Expr.empty init.[j] = false) ->
        (forall i j, designated type init !! j = Some (Z.of_nat i) ->
                     areAssignmentCompatible (Ty.getField type i)
                                             (Expr.getType init.[j]) true
                     = true) ->
        s' = s
        /\ Expr.getKind r = LIST
        /\ Expr.getSize r = Ty.getRecordSize type
        /\ forall i j, designated type init !! j = Some (Z.of_nat i) ->
                       r.[i] = init.[j]).
Proof.
  intros Hrec Hlist Hnd Hfuel.
  destruct (checkInitialiser_returns fuel type init s Hfuel)
    as (r & s' & Hcheck).
  exists r, s'. split; [exact Hcheck|].
  match goal with
  | |- _ /\ _ /\ ?reordered => assert (Hreorder : reordered)
  end.
  { intros Hperm Hfull Hcompat.
    exact (checkInitialiser_reorders fuel type init r s s' Hrec Hlist Hnd
                                     Hfuel Hcheck Hperm Hfull Hcompat). }
  apply and_assoc. split; [|exact Hreorder]. clear Hreorder.
  destruct Hlist as (Hkind & fields & Hty & Hmap).
  destruct fuel as [|fuel]; [lia|]. simpl in Hcheck.
  rewrite (areAssignmentCompatible_record _ _ Hrec) in Hcheck.
  destruct (areEquivalent type (Expr.getType init)) eqn:Heq.
  - (* the initialiser has the type of the record already *)
    injection Hcheck as <- <-.
    destruct (areEquivalent_record _ _ Hrec Heq) as [Hsize Hfields].
    assert (Hn : Ty.getRecordSize (Expr.getType init) = Expr.getSize init).
    { rewrite Hty. unfold Expr.getSize.
      rewrite <- (length_map Expr.getType), <- Hmap, length_map.
      reflexivity. }
    assert (Hdes : designated type init
                   = map Z.of_nat (seq 0 (Ty.getRecordSize type))).
    { unfold designated.
      replace (Ty.getRecordSize type)
        with (length (map fst (Ty.children (Expr.getType init))))
        by (rewrite length_map, Hsize, Hty; reflexivity).
      apply (designations_in_order type _ O Hnd).
      - rewrite length_map, Hsize, Hty. reflexivity.
      - intros j Hj. rewrite length_map in Hj.
        rewrite (labels_lookup (Expr.getType init) j Hj). simpl. f_equal.
        destruct (Hfields j) as [-> _];
          [rewrite Hsize, Hty; rewrite Hty in Hj; exact Hj
          | now rewrite Hty]. }
    split.
    + intros _. split; [exact Hkind|]. split; [now rewrite Hsize|].
      intros i Hi. exists i. split.
      * rewrite Hdes, list_lookup_fmap, lookup_seq_lt by exact Hi.
        reflexivity.
      * exists 1%nat, s, s. simpl.
        rewrite areAssignmentCompatible_equivalent; [reflexivity|].
        destruct (Hfields i Hi) as [_ He].
        replace (Expr.getType init.[i])
          with (Ty.getField (Expr.getType init) i); [exact He|].
        rewrite Hty. unfold Ty.getField, Ty.get, Expr.get. simpl.
        assert (Hi' : map snd fields !! i
                      = map Expr.getType (Expr.sub init) !! i)
          by now rewrite Hmap.
        rewrite !list_lookup_fmap in Hi'.
        destruct (fields !! i) as [[l c]|], (Expr.sub init !! i);
          simpl in Hi'; try reflexivity; congruence.
    + intros i Hi Hnot. exfalso. apply Hnot. rewrite Hdes.
      apply in_map, in_seq. lia.
  - (* the entries are entered one by one *)
    destruct (isRecord_only type Hrec) as (_ & _ & _ & _ & Harr & _).
    rewrite Harr, Hrec in Hcheck. simpl in Hcheck.
    destruct (recordInitialiser _ _ _ _ _ _ _ _) as [[result s1]|]
      eqn:Hloop; [|discriminate].
    injection Hcheck as <- <-.
    destruct (recordInitialiser_errors
                _ type init (checkInitialiser_errors fuel) _ _ _ _ _ _ _
                Hloop) as [more Hmore].
    apply (recordInitialiser_entries
             _ type init _ O 0 _ s
             (map fst (Ty.children (Expr.getType init))) result s1) in Hloop;
      [|now rewrite length_map | intros j Hj; now apply labels_lookup | lia].
    destruct Hloop as (Hlen & Hentries & Hrest).
    rewrite length_replicate in Hlen.
    fold (designated type init) in Hentries, Hrest.
    split.
    + intros Herr.
      destruct (existsb Expr.empty result) eqn:Hempty.
      { rewrite errors_handleError, Hmore, <- app_assoc in Herr.
        symmetry in Herr. apply errors_unchanged in Herr.
        destruct more; discriminate Herr. }
      split; [reflexivity|]. split; [exact Hlen|].
      intros i Hi.
      destruct (result !! i) as [e|] eqn:He;
        [|apply lookup_ge_None in He; lia].
      assert (Hfull : Expr.empty e = false).
      { destruct (Expr.empty e) eqn:H; [|reflexivity].
        assert (existsb Expr.empty result = true); [|congruence].
        apply existsb_exists. exists e. split; [|exact H].
        apply list_elem_of_In. eapply list_elem_of_lookup_2. exact He. }
      destruct (Hentries i e He) as [Hinit | (j & Hj & sa & sb & Hchild)].
      * apply lookup_replicate in Hinit. destruct Hinit as [-> _].
        discriminate Hfull.
      * exists j. split; [exact Hj|]. exists fuel, sa, sb.
        unfold Expr.get at 2. simpl. rewrite He. exact Hchild.
    + intros i Hi Hnot.
      assert (Hnull : result !! i = Some expression_null).
      { rewrite (Hrest i Hnot). apply lookup_replicate. auto. }
      assert (Hempty : existsb Expr.empty result = true).
      { apply existsb_exists. exists expression_null. split; [|reflexivity].
        apply list_elem_of_In. eapply list_elem_of_lookup_2. exact Hnull. }
      rewrite Hempty. exists (more ++ [mkError (Expr.getPosition init)
                                               "$Incomplete_initialiser"
                                               "(typechecking)"]).
      split.
      * rewrite errors_handleError, Hmore, <- app_assoc. reflexivity.
      * rewrite map_app. apply in_or_app. right. now left.
Qed.

(** *** Examples and counterexamples *)

Lemma relational_types_witness :
  Scenario.check 2 Scenario.clockBound Scenario.system0
  = Some (true,
          Expr.setType Scenario.clockBound (primitive INVARIANT),
          Scenario.system0).
Proof.
  apply (proj1 (relational_types
                  Scenario.noChange Scenario.noReads Scenario.noValues
                  Scenario.typesOk 1 Scenario.clockBound
                  Scenario.x (Scenario.const 3)
                  Scenario.system0 Scenario.system0 eq_refl eq_refl)).
  reflexivity.
Defined.

(** C2 as stated fails: [x < 3] with a clock [x] is accepted, but its type
    is invariant, not guard. *)
Lemma relational_guard_counterexample :
  isClock Scenario.x = true /\ isInteger (Scenario.const 3) = true
  /\ exists e',
      Scenario.check 2 Scenario.clockBound Scenario.system0
      = Some (true, e', Scenario.system0)
      /\ Expr.getType e' = primitive INVARIANT
      /\ Expr.getType e' <> primitive GUARD.
Proof.
  split; [reflexivity|]. split; [reflexivity|].
  eexists. split; [reflexivity|]. split; [reflexivity | discriminate].
Qed.

Lemma assplus_is_lenient_witness :
  Scenario.check 2 Scenario.clockIncrement Scenario.system0
  = Some (true,
          Expr.setType Scenario.clockIncrement (primitive CLOCK),
          handleError
            Scenario.clockIncrement
            "$Increment_operator_can_only_be_used_for_integers_and_cost_variables"
            Scenario.system0).
Proof.
  apply (proj1 (assplus_is_lenient
                  Scenario.noChange Scenario.noReads Scenario.noValues
                  Scenario.typesOk 1 Scenario.clockIncrement
                  Scenario.x (Scenario.const 1) []
                  Scenario.system0 Scenario.system0 eq_refl));
    reflexivity.
Defined.

(** C10 as stated fails: the operands of [f(1, 2) += 1] check successfully
    and the call has no type, so the [+=] is rejected with
    "$Type_error" after its diagnostic. *)
Lemma assplus_unknown_counterexample :
  let expr := Scenario.binary ASSPLUS Scenario.call2 (Scenario.const 1) in
  exists cs e' s',
    checkSubExpressions (Scenario.check 2) (Expr.sub expr) Scenario.system0
    = Some (true, cs, Scenario.system0)
    /\ Scenario.check 3 expr Scenario.system0 = Some (false, e', s')
    /\ map errMessage (errors s')
       = ["$Increment_operator_can_only_be_used_for_integers_and_cost_variables";
          "$Type_error"].
Proof. eexists. eexists. eexists. repeat split; reflexivity. Qed.



Lemma simulate_run_count_witness :
  (exists s2 more,
      Scenario.check 2 (Scenario.simulate 0) Scenario.system0
      = Some (false, Scenario.simulate 0, s2)
      /\ errors s2
         = errors Scenario.system0
           ++ mkError (O, O) "$Invalid_run_count" "(typechecking)" :: more)
  /\ Scenario.check 2 (Scenario.simulate 100) Scenario.system0
     = Some (true,
             Expr.setType (Scenario.simulate 100) (primitive FORMULA),
             Scenario.system0).
Proof.
  split.
  - apply (proj1 (simulate_run_count
                    Scenario.noChange Scenario.noReads Scenario.noValues
                    Scenario.typesOk 1 (Scenario.simulate 0)
                    (Scenario.const 0)
                    [Scenario.const 0; Scenario.const 10; Scenario.x]
                    Scenario.system0 Scenario.system0
                    (or_introl eq_refl) eq_refl eq_refl eq_refl)).
    simpl. lia.
  - apply (proj2 (simulate_run_count
                    Scenario.noChange Scenario.noReads Scenario.noValues
                    Scenario.typesOk 1 (Scenario.simulate 100)
                    (Scenario.const 100)
                    [Scenario.const 0; Scenario.const 10; Scenario.x]
                    Scenario.system0 Scenario.system0
                    (or_introl eq_refl) eq_refl eq_refl eq_refl)).
    + simpl. lia.
    + reflexivity.
Defined.

(** C7 as stated fails: in [simulate[<=10; 0] { x % 2 }] the number of runs
    is 0 and the monitored expression is ill-typed; the query is rejected
    when its operands are checked, before the number of runs is looked
    at, and "$Invalid_run_count" is not emitted. *)
Lemma simulate_run_count_counterexample :
  let query :=
    Expr.createNary SIMULATE
      [Scenario.const 0; Scenario.const 0; Scenario.const 10;
       Scenario.binary MOD Scenario.x (Scenario.const 2)]
      (O, O) type_null in
  exists e' s',
    Scenario.check 3 query Scenario.system0 = Some (false, e', s')
    /\ map errMessage (errors s') = ["$Type_error"].
Proof. eexists. eexists. split; reflexivity. Qed.

(** The checked forms of [x <= 3], [c' == 2] and [c' == 3]. *)
Lemma visitState_conjunction_witness :
  exists s2,
    Scenario.visit 5 Scenario.invariant2
    = Some (mkState
              (Expr.createBinary
                 AND (Expr.createConstant 1)
                 (Expr.setType (Scenario.binary LE Scenario.x
                                                (Scenario.const 3))
                               (primitive INVARIANT))
                 (O, O) (primitive INVARIANT))
              expression_null (Scenario.const 2), s2)
    /\ errors s2 = [].
Proof.
  pose (le := Expr.setType (Scenario.binary LE Scenario.x (Scenario.const 3))
                           (primitive INVARIANT)).
  pose (rate := Expr.setType (Scenario.unary RATE Scenario.c)
                             (primitive RATE)).
  pose (eq := Expr.setType (Scenario.binary EQ rate (Scenario.const 2))
                           (primitive INVARIANT_WR)).
  pose (inv := Expr.setType (Scenario.binary AND le eq)
                            (primitive INVARIANT_WR)).
  assert (Hconj : conjunction inv ([le] ++ []) ([] ++ [Scenario.const 2])).
  { apply conjunction_and; try reflexivity.
    - apply conjunction_invariant. reflexivity.
    - apply (conjunction_costRate eq). reflexivity. }
  destruct (visitState_conjunction
              Scenario.noChange Scenario.noReads Scenario.noValues
              Scenario.typesOk Scenario.kindName 5
              (mkState Scenario.invariant2 expression_null expression_null)
              Scenario.system0 Scenario.system0 inv (Scenario.const 2)
              [le] eq_refl eq_refl eq_refl Hconj)
    as (decomposer & s2 & _ & _ & _ & _ & _ & Hvisit & Herr).
  exists s2. split; [exact Hvisit | exact Herr].
Defined.

(** C1 as stated fails: in scenario 2 the rewritten invariant is
    [1 && x <= 3], not [x <= 3]. *)
Lemma visitState_invariant_counterexample :
  let le := Expr.setType (Scenario.binary LE Scenario.x (Scenario.const 3))
                         (primitive INVARIANT) in
  exists state1 s2,
    Scenario.visit 5 Scenario.invariant2 = Some (state1, s2)
    /\ errors s2 = []
    /\ costRate state1 = Scenario.const 2
    /\ invariant state1
       = Expr.createBinary AND (Expr.createConstant 1) le (O, O)
                           (primitive INVARIANT)
    /\ invariant state1 <> le.
Proof.
  eexists. eexists. split; [reflexivity|]. repeat split. discriminate.
Qed.



Lemma areEquivalent_reflexive_symmetric_witness :
  areEquivalent Scenario.point Scenario.point = true
  /\ areEquivalent Scenario.void Scenario.point = false
  /\ areEquivalent Samples.bit Samples.intRef = true
  /\ areEquivalent Samples.intRef Samples.bit = true.
Proof.
  destruct areEquivalent_reflexive_symmetric as (Hrefl & Hnone & Hsym).
  split; [|split; [|split]].
  - apply Hrefl.
    apply comparable_record; [reflexivity|].
    intros i Hi. apply comparable_basic.
    destruct i as [|[|i]]; [reflexivity | reflexivity |].
    vm_compute in Hi. lia.
  - apply Hnone. reflexivity.
  - reflexivity.
  - rewrite (Hsym Samples.intRef Samples.bit);
      [reflexivity | |]; apply plainScalars_other; reflexivity.
Defined.

(** C6 as stated fails: [void] is not equivalent to itself. *)
Lemma areEquivalent_reflexive_counterexample :
  areEquivalent Scenario.void Scenario.void = false.
Proof. reflexivity. Qed.

(** With a reference prefix on the second type only, name equivalence of
    scalar sets is lost: [isSameScalarType] strips [REF] from its first
    argument and [EF] from its second. *)
Lemma areEquivalent_reference_scalar :
  areEquivalent Scenario.scalarsRef Scenario.scalars = true
  /\ areEquivalent Scenario.scalars Scenario.scalarsRef = false
  /\ areEquivalent Scenario.scalarsRef Scenario.scalarsRef = false.
Proof. repeat split. Qed.

(** Scenario 9: [{ y = 1, x = 2 }] for [struct { int x; int y; }] is
    reordered to [{ 2, 1 }]. *)
Lemma checkInitialiser_scenario9 :
  checkInitialiser 2 Scenario.point Scenario.init9 Scenario.system0
  = Some (Expr.createNary LIST [Scenario.const 2; Scenario.const 1] (O, O)
                          Scenario.point,
          Scenario.system0)
  /\ designated Scenario.point Scenario.init9 = [1; 0].
Proof. split; reflexivity. Qed.

Lemma checkInitialiser_record_witness :
  exists r s',
    checkInitialiser 3 Scenario.point Scenario.init9 Scenario.system0
    = Some (r, s')
    /\ s' = Scenario.system0
    /\ Expr.getKind r = LIST
    /\ Expr.getSize r = 2%nat
    /\ r.[0] = Scenario.const 2
    /\ r.[1] = Scenario.const 1.
Proof.
  assert (Hlist : listInitialiser Scenario.init9).
  { split; [reflexivity|]. eexists. split; reflexivity. }
  assert (Hnd : NoDup (recordLabels Scenario.point)).
  { apply NoDup_cons. split.
    - intros H. apply list_elem_of_In in H.
      destruct H as [H | []]. discriminate H.
    - apply NoDup_singleton. }
  assert (Hfuel : (expression_height Scenario.init9 < 3)%nat)
    by (vm_compute; lia).
  destruct (checkInitialiser_record
              3 Scenario.point Scenario.init9 Scenario.system0
              eq_refl Hlist Hnd Hfuel)
    as (r & s' & Hcheck & _ & _ & Hreorder).
  destruct Hreorder as (Hs & Hkind & Hsize & Hchild).
  - apply perm_swap.
  - intros [|[|j]] Hj; [reflexivity | reflexivity |].
    vm_compute in Hj. lia.
  - change (designated Scenario.point Scenario.init9) with [1; 0].
    intros i [|[|j]] Hj; try discriminate Hj; injection Hj as Hj.
    + assert (i = 1%nat) as -> by lia. reflexivity.
    + assert (i = 0%nat) as -> by lia. reflexivity.
  - exists r, s'. split; [exact Hcheck|]. split; [exact Hs|].
    split; [exact Hkind|]. split; [exact Hsize|].
    split; [exact (Hchild 0%nat 1%nat eq_refl)
           | exact (Hchild 1%nat 0%nat eq_refl)].
Defined.

(** * Further properties *)

(** ** Compatibility relations *)

(** A type that has one of the basic kinds below its wrappers has no other
    one. *)
Ltac only_kind H :=
  unfold Ty.isIntegral, Ty.isInteger, Ty.isBoolean, Ty.isClock,
    Ty.isChannel, Ty.isRecord, Ty.isArray, Ty.isScalar, Ty.isDouble,
    Ty.isVoid, Ty.isProcess, Ty.isDiff in *;
  other_kind H.

Lemma is_not_null (t : type_t) (k : kind_t) :
  k <> UNKNOWN -> Ty.is_ t k = true -> (0 < type_height t)%nat.
Proof.
  intros Hk H. destruct t; simpl in *; [|lia].
  apply kind_eqb_eq in H. congruence.
Qed.

Lemma areEquivalent_unfold (a b : type_t) :
  (0 < type_height a)%nat ->
  areEquivalent a b = areEquivalent_rec (S (type_height a)) a b.
Proof.
  intros H. symmetry. apply areEquivalent_rec_enough. lia.
Qed.

Lemma areEquivalent_clock_integral (c i : type_t) :
  Ty.isClock c = true -> Ty.isIntegral i = true ->
  areEquivalent c i = false /\ areEquivalent i c = false.
Proof.
  intros Hc Hi.
  assert (Hhc : (0 < type_height c)%nat)
    by (apply (is_not_null c CLOCK); [discriminate | exact Hc]).
  assert (Hhi : (0 < type_height i)%nat).
  { unfold Ty.isIntegral in Hi. apply orb_true_iff in Hi.
    destruct Hi as [Hi|Hi];
      [apply (is_not_null i INT) | apply (is_not_null i BOOL)];
      (discriminate || exact Hi). }
  rewrite !areEquivalent_unfold, !areEquivalent_rec_S by assumption.
  unfold Ty.isClock in Hc.
  unfold Ty.isIntegral, Ty.isInteger, Ty.isBoolean in Hi.
  apply orb_true_iff in Hi. destruct Hi as [Hi|Hi].
  - split; only_kind Hc; only_kind Hi; rewrite ?Hc, ?Hi; simpl;
      rewrite ?andb_false_r; reflexivity.
  - split; only_kind Hc; only_kind Hi; rewrite ?Hc, ?Hi; simpl;
      rewrite ?andb_false_r; reflexivity.
Qed.

(** X1: assignment compatibility is directional.  A clock accepts the value
    of an integral expression in an assignment, an integral variable does
    not accept a clock, and an integer is no initialiser of a clock. *)
Theorem assignment_is_directional (c i : type_t) :
  Ty.isClock c = true -> Ty.isIntegral i = true ->
  areAssignmentCompatible c i false = true
  /\ areAssignmentCompatible i c false = false
  /\ areAssignmentCompatible c i true = false.
Proof.
  intros Hc Hi.
  destruct (areEquivalent_clock_integral c i Hc Hi) as [Hci Hic].
  assert (Ty.isIntegral c = false) as Hci'.
  { unfold Ty.isClock in Hc. now only_kind Hc. }
  assert (Ty.isClock i = false /\ Ty.isDouble i = false) as [Hic' Hid].
  { unfold Ty.isIntegral, Ty.isInteger, Ty.isBoolean in Hi.
    apply orb_true_iff in Hi.
    destruct Hi as [Hi|Hi]; split; now only_kind Hi. }
  unfold areAssignmentCompatible.
  rewrite Hc, Hi, Hci', Hic', Hid, Hci, Hic. simpl.
  repeat split; reflexivity.
Qed.

(** X2: areEquivalent is not transitive.  An integer without range is
    equivalent to every integer, two ranged integers only when their
    ranges are equal. *)
Theorem areEquivalent_not_transitive (a b c : type_t) :
  Ty.isInteger a = true -> Ty.isInteger b = true -> Ty.isInteger c = true ->
  Ty.is_ a RANGE = true -> Ty.is_ b RANGE = false ->
  Ty.is_ c RANGE = true -> Ty.rangeEqual a c = false ->
  areEquivalent a b = true /\ areEquivalent b c = true
  /\ areEquivalent a c = false.
Proof.
  intros Ha Hb Hc Hra Hrb Hrc Hne.
  assert (Hha : (0 < type_height a)%nat)
    by (apply (is_not_null a INT); [discriminate | exact Ha]).
  assert (Hhb : (0 < type_height b)%nat)
    by (apply (is_not_null b INT); [discriminate | exact Hb]).
  rewrite !areEquivalent_unfold, !areEquivalent_rec_S by assumption.
  rewrite Ha, Hb, Hc, Hra, Hrb, Hrc, Hne. simpl. auto.
Qed.

(** ** Assignable types and return types *)

Lemma isAssignable_wrapper (k : kind_t) r l (c : type_t) cs :
  Ty.transparent k = true ->
  isAssignable (type_data k r ((l, c) :: cs)) = isAssignable c.
Proof. destruct k; try discriminate; reflexivity. Qed.

Lemma isAssignable_is (t : type_t) (k : kind_t) :
  basicAssignable k = true -> Ty.is_ t k = true -> isAssignable t = true.
Proof.
  intros Hk. induction t as [|k' r cs IH] using type_rect'.
  - simpl. intros H. apply kind_eqb_eq in H. subst k. discriminate.
  - cbn [Ty.is_]. intros H. apply orb_true_iff in H. destruct H as [H|H].
    + apply kind_eqb_eq in H. subst k'. destruct k; try discriminate;
        reflexivity.
    + apply andb_true_iff in H. destruct H as [Ht H].
      destruct cs as [|[l c] cs]; [discriminate|].
      rewrite isAssignable_wrapper by exact Ht.
      inversion IH; subst. auto.
Qed.

Lemma isAssignable_strip (t : type_t) (k : kind_t) :
  Ty.transparent k = false -> basicAssignable k = false ->
  Ty.is_ t k = true -> isAssignable t = isAssignable (Ty.strip k t).
Proof.
  intros Hk Hb. induction t as [|k' r cs IH] using type_rect'.
  - reflexivity.
  - cbn [Ty.is_ Ty.strip]. intros H. destruct (k' =k k) eqn:E.
    + reflexivity.
    + simpl in H. apply andb_true_iff in H. destruct H as [Ht H].
      rewrite Ht. destruct cs as [|[l c] cs]; [discriminate|].
      rewrite isAssignable_wrapper by exact Ht.
      inversion IH; subst. auto.
Qed.

Lemma strip_is (t : type_t) (k : kind_t) :
  k <> UNKNOWN -> Ty.is_ t k = true ->
  exists r cs, Ty.strip k t = type_data k r cs.
Proof.
  intros Hk. induction t as [|k' r cs IH] using type_rect'.
  - simpl. intros H. apply kind_eqb_eq in H. congruence.
  - cbn [Ty.is_ Ty.strip]. destruct (k' =k k) eqn:E.
    + apply kind_eqb_eq in E. subst k'. eauto.
    + simpl. intros H. apply andb_true_iff in H. destruct H as [Ht H].
      rewrite Ht. destruct cs as [|[l c] cs]; [discriminate|].
      inversion IH; subst. auto.
Qed.

(** X3: the types whose values can be assigned are the integers, booleans,
    doubles, clocks, costs and scalars, whatever their prefixes, ranges
    and names, the arrays of assignable elements and the records of
    assignable fields. *)
Theorem isAssignable_types (t : type_t) :
  (Ty.isIntegral t || Ty.isDouble t || Ty.isClock t || Ty.is_ t COST
   || Ty.isScalar t = true -> isAssignable t = true)
  /\ (Ty.isArray t = true -> isAssignable t = isAssignable (Ty.getSub t))
  /\ (Ty.isRecord t = true ->
      isAssignable t
      = forallb (fun c => isAssignable (snd c))
                (Ty.children (Ty.strip RECORD t))).
Proof.
  repeat split.
  - unfold Ty.isIntegral, Ty.isInteger, Ty.isBoolean, Ty.isDouble,
      Ty.isClock, Ty.isScalar.
    rewrite !orb_true_iff.
    intros [[[[[H|H]|H]|H]|H]|H];
      (eapply isAssignable_is; [|exact H]); reflexivity.
  - intros H. unfold Ty.isArray in H.
    rewrite (isAssignable_strip t ARRAY) by (reflexivity || exact H).
    unfold Ty.getSub, Ty.get.
    destruct (strip_is t ARRAY ltac:(discriminate) H) as (r & cs & ->).
    destruct cs as [|[l c] cs]; reflexivity.
  - intros H. unfold Ty.isRecord in H.
    rewrite (isAssignable_strip t RECORD) by (reflexivity || exact H).
    destruct (strip_is t RECORD ltac:(discriminate) H) as (r & cs & ->).
    reflexivity.
Qed.

Lemma validReturnType_kinds (t : type_t) (k : kind_t) :
  validReturnType t = true -> Ty.is_ t k = true -> returnKind k = true.
Proof.
  induction t as [|k' r cs IH] using type_rect'; [discriminate|].
  cbn [validReturnType Ty.is_]. intros Hv H.
  apply orb_true_iff in H. destruct H as [H|H].
  - apply kind_eqb_eq in H. subst k'.
    destruct k; try discriminate; reflexivity.
  - apply andb_true_iff in H. destruct H as [Ht H].
    destruct cs as [|[l c] cs]; [discriminate|].
    inversion IH; subst.
    destruct k'; try discriminate; auto.
Qed.

Lemma validReturnType_isAssignable (t : type_t) :
  validReturnType t = true -> isAssignable t = true.
Proof.
  induction t as [|k r cs IH] using type_rect'; [discriminate|].
  destruct k; try discriminate; try reflexivity; cbn [validReturnType].
  - (* RECORD *)
    intros H. cbn [isAssignable]. rewrite forallb_forall in *.
    rewrite Forall_forall in IH.
    intros c Hc. apply IH; [|apply H; exact Hc].
    now apply list_elem_of_In.
  - (* RANGE *)
    destruct cs as [|[l c] cs]; [discriminate|].
    inversion IH; subst. auto.
  - (* LABEL *)
    destruct cs as [|[l c] cs]; [discriminate|].
    inversion IH; subst. auto.
Qed.

(** X4: a valid return type is assignable, and it is no clock, channel,
    array, void, constant or reference type: the valid return types are
    the integers, booleans, scalars and doubles, possibly ranged and
    named, and the records of such types. *)
Theorem validReturnType_sound (t : type_t) :
  validReturnType t = true ->
  isAssignable t = true
  /\ Ty.isClock t = false /\ Ty.isChannel t = false
  /\ Ty.isArray t = false /\ Ty.isVoid t = false
  /\ Ty.isConstant t = false /\ Ty.is_ t REF = false.
Proof.
  intros H. split; [now apply validReturnType_isAssignable|].
  unfold Ty.isClock, Ty.isChannel, Ty.isArray, Ty.isVoid, Ty.isConstant.
  repeat split;
    match goal with
    | |- Ty.is_ t ?k = false =>
        destruct (Ty.is_ t k) eqn:E; [|reflexivity];
        apply (validReturnType_kinds t k H) in E; discriminate E
    end.
Qed.

(** ** Parameters *)

(** X5: an argument accepted for a reference parameter that is not constant
    is a modifiable l-value, hence an l-value, and its type is equivalent
    to the type of the parameter unless both are channels, where the
    argument has at least the capability of the parameter. *)
Theorem reference_parameter (paramType : type_t) (arg : expression_t) :
  Ty.is_ paramType REF = true -> Ty.isConstant paramType = false ->
  isParameterCompatible paramType arg = true ->
  isModifiableLValue arg = true /\ isLValue arg = true
  /\ if Ty.isChannel paramType && Ty.isChannel (Expr.getType arg)
     then channelCapability paramType
          <= channelCapability (Expr.getType arg)
     else areEquivalent (Expr.getType arg) paramType = true.
Proof.
  intros Href Hconst. unfold isParameterCompatible.
  rewrite Href, Hconst. simpl.
  destruct (isModifiableLValue arg) eqn:Hl; [|discriminate]. simpl.
  intros H. split; [reflexivity|].
  split; [now apply isModifiableLValue_isLValue|].
  destruct (_ && _); [now apply Z.leb_le | exact H].
Qed.

(** ** Statements *)

Lemma Statement_rect' (P : Statement -> Prop) :
  P EmptyStatement ->
  (forall e, P (ExprStatement e)) ->
  (forall e, P (AssertStatement e)) ->
  (forall i c st s, P s -> P (ForStatement i c st s)) ->
  (forall sy s, P s -> P (IterationStatement sy s)) ->
  (forall c s, P s -> P (WhileStatement c s)) ->
  (forall s c, P s -> P (DoWhileStatement s c)) ->
  (forall f ss, Forall P ss -> P (BlockStatement f ss)) ->
  (forall f c ss, Forall P ss -> P (SwitchStatement f c ss)) ->
  (forall f c ss, Forall P ss -> P (CaseStatement f c ss)) ->
  (forall f ss, Forall P ss -> P (DefaultStatement f ss)) ->
  (forall c t, P t -> P (IfStatement c t None)) ->
  (forall c t f, P t -> P f -> P (IfStatement c t (Some f))) ->
  P BreakStatement ->
  P ContinueStatement ->
  (forall v, P (ReturnStatement v)) ->
  forall s, P s.
Proof.
  intros H1 H2 H3 H4 H5 H6 H7 H8 H9 H10 H11 H12 H13 H14 H15 H16.
  fix IH 1.
  intros [|e|e|i c st s|sy s|c s|s c|f ss|f c ss|f c ss|f ss|c t [f|]| | |v].
  - exact H1.
  - apply H2.
  - apply H3.
  - apply H4, IH.
  - apply H5, IH.
  - apply H6, IH.
  - apply H7, IH.
  - apply H8. induction ss as [|x ss IHss]; constructor;
      [apply IH | exact IHss].
  - apply H9. induction ss as [|x ss IHss]; constructor;
      [apply IH | exact IHss].
  - apply H10. induction ss as [|x ss IHss]; constructor;
      [apply IH | exact IHss].
  - apply H11. induction ss as [|x ss IHss]; constructor;
      [apply IH | exact IHss].
  - apply H13; apply IH.
  - apply H12, IH.
  - exact H14.
  - exact H15.
  - apply H16.
Qed.

Lemma returns_block (frame : list symbol_t) (stats : list Statement)
      (last : Statement) :
  returns (BlockStatement frame (stats ++ [last])) = returns last.
Proof.
  cbn [returns]. induction stats as [|s stats IH]; [reflexivity|].
  rewrite <- IH. simpl. destruct (stats ++ [last]) eqn:E; [|reflexivity].
  now destruct stats.
Qed.

(** X7: a statement that returns contains a return statement; the loops
    with a leading test and the switch never return, even when their
    body does. *)
Theorem returns_sound (stat : Statement) :
  (returns stat = true -> hasReturn stat = true)
  /\ match stat with
     | ForStatement _ _ _ _ | IterationStatement _ _ | WhileStatement _ _
     | SwitchStatement _ _ _ | CaseStatement _ _ _ | DefaultStatement _ _ =>
         returns stat = false
     | _ => True
     end.
Proof.
  split; [|now destruct stat].
  induction stat using Statement_rect'; try discriminate; auto.
  - (* block *)
    destruct ss as [|s ss _] using rev_ind; [discriminate|].
    rewrite returns_block. cbn [hasReturn]. rewrite existsb_app. simpl.
    apply Forall_app in H. destruct H as [_ H]. inversion H; subst.
    intros Hr. rewrite H2 by exact Hr. now rewrite orb_true_r.
  - (* if without else *)
    cbn [returns]. rewrite andb_false_r. discriminate.
  - (* if with else *)
    cbn [returns hasReturn]. intros H. apply andb_true_iff in H.
    destruct H as [H _]. now rewrite IHstat1.
Qed.

(** ** Strict bounds in guards *)

Lemma existsb_map_ext (f g : expression_t -> bool)
      (h : expression_t -> expression_t) (cs : list expression_t) :
  Forall (fun c => f (h c) = g c) cs ->
  existsb f (map h cs) = existsb g cs.
Proof.
  induction 1 as [|c cs Hc _ IH]; [reflexivity|].
  simpl. now rewrite Hc, IH.
Qed.

Lemma opposite_type (e : expression_t) :
  Expr.getType (opposite e) = Expr.getType e.
Proof. now destruct e. Qed.

Lemma opposite_get (e : expression_t) (i : nat) :
  Expr.getType (opposite e).[i] = Expr.getType e.[i].
Proof.
  destruct e as [|k p v sy t cs]; [reflexivity|].
  unfold Expr.get. cbn [opposite Expr.sub]. rewrite list_lookup_fmap.
  destruct (cs !! i); [apply opposite_type | reflexivity].
Qed.

Lemma converse_type (e : expression_t) :
  Expr.getType (converse e) = Expr.getType e.
Proof.
  destruct e as [|k p v sy t cs]; [reflexivity|].
  cbn [converse].
  destruct k; try reflexivity;
    destruct (map converse cs) as [|a [|b [|c cs']]]; reflexivity.
Qed.

Lemma hasStrictLowerBound_opposite (e : expression_t) :
  hasStrictUpperBound (opposite e) = hasStrictLowerBound e.
Proof.
  induction e as [|k p v sy t cs IH] using expression_rect';
    [reflexivity|].
  cbn [opposite hasStrictUpperBound hasStrictLowerBound].
  rewrite (existsb_map_ext _ hasStrictLowerBound) by exact IH.
  destruct (existsb hasStrictLowerBound cs); [reflexivity|].
  pose proof (opposite_get (expression_data k p v sy t cs)) as Hget.
  cbn [opposite] in Hget.
  unfold isIntegral, isClock. destruct k; cbn [oppositeKind];
    rewrite ?Hget; reflexivity.
Qed.

Lemma hasStrictUpperBound_opposite (e : expression_t) :
  hasStrictLowerBound (opposite e) = hasStrictUpperBound e.
Proof.
  induction e as [|k p v sy t cs IH] using expression_rect';
    [reflexivity|].
  cbn [opposite hasStrictUpperBound hasStrictLowerBound].
  rewrite (existsb_map_ext _ hasStrictUpperBound) by exact IH.
  destruct (existsb hasStrictUpperBound cs); [reflexivity|].
  pose proof (opposite_get (expression_data k p v sy t cs)) as Hget.
  cbn [opposite] in Hget.
  unfold isIntegral, isClock. destruct k; cbn [oppositeKind];
    rewrite ?Hget; reflexivity.
Qed.

Section Converse.

Variable bound : expression_t -> bool.
Variable lt gt : expression_t -> expression_t -> bool.

(** The common shape of the two analyses. *)
Hypothesis bound_data : forall k p v sy t cs,
  bound (expression_data k p v sy t cs)
  = if existsb bound cs then true
    else match k with
         | LT => lt (expression_data k p v sy t cs).[0]
                    (expression_data k p v sy t cs).[1]
         | GT => gt (expression_data k p v sy t cs).[0]
                    (expression_data k p v sy t cs).[1]
         | _ => false
         end.
Hypothesis lt_type : forall a b a' b',
  Expr.getType a = Expr.getType a' -> Expr.getType b = Expr.getType b' ->
  lt a b = lt a' b'.
Hypothesis gt_lt : forall a b, gt b a = lt a b.

Lemma bound_converse (e : expression_t) : bound (converse e) = bound e.
Proof.
  induction e as [|k p v sy t cs IH] using expression_rect';
    [reflexivity|].
  cbn [converse].
  assert (existsb bound (map converse cs) = existsb bound cs) as Hex
    by (apply existsb_map_ext; exact IH).
  assert (forall i, Expr.getType
                      (default expression_null (map converse cs !! i))
                    = Expr.getType (default expression_null (cs !! i)))
    as Hty.
  { intros i. rewrite list_lookup_fmap.
    destruct (cs !! i); [apply converse_type | reflexivity]. }
  assert (forall k', k' <> LT -> k' <> GT ->
            bound (expression_data k' p v sy t (map converse cs))
            = bound (expression_data k' p v sy t cs)) as Hother.
  { intros k' H1 H2. rewrite !bound_data, Hex.
    destruct k'; try reflexivity; congruence. }
  destruct k; try (apply Hother; discriminate).
  - (* LT *)
    destruct cs as [|a [|b [|c cs]]]; cbn [map] in *.
    + reflexivity.
    + rewrite !bound_data, Hex. match goal with |- (if ?c then _ else _) = _ => destruct c end;
        [reflexivity|].
      unfold Expr.get. simpl.
      apply lt_type; [apply converse_type|reflexivity].
    + rewrite !bound_data. cbn [existsb] in *.
      inversion IH as [|? ? Ha IH']; subst.
      inversion IH' as [|? ? Hb _]; subst.
      rewrite Ha, Hb, !orb_false_r, (orb_comm (bound b)).
      destruct (bound a || bound b); [reflexivity|].
      unfold Expr.get. simpl. rewrite gt_lt.
      apply lt_type; apply converse_type.
    + rewrite !bound_data, Hex.
      match goal with |- (if ?c then _ else _) = _ => destruct c end;
        [reflexivity|].
      unfold Expr.get. simpl. apply lt_type; apply converse_type.
  - (* GT *)
    destruct cs as [|a [|b [|c cs]]]; cbn [map] in *.
    + reflexivity.
    + rewrite !bound_data, Hex. match goal with |- (if ?c then _ else _) = _ => destruct c end;
        [reflexivity|].
      unfold Expr.get. simpl. rewrite !gt_lt.
      apply lt_type; [reflexivity|apply converse_type].
    + rewrite !bound_data. cbn [existsb] in *.
      inversion IH as [|? ? Ha IH']; subst.
      inversion IH' as [|? ? Hb _]; subst.
      rewrite Ha, Hb, !orb_false_r, (orb_comm (bound b)).
      destruct (bound a || bound b); [reflexivity|].
      unfold Expr.get. simpl. rewrite !gt_lt.
      apply lt_type; apply converse_type.
    + rewrite !bound_data, Hex.
      match goal with |- (if ?c then _ else _) = _ => destruct c end;
        [reflexivity|].
      unfold Expr.get. simpl. rewrite !gt_lt.
      apply lt_type; apply converse_type.
Qed.

End Converse.

(** X8: the two guard analyses are mirror images.  Replacing [<] by [>] and
    [>] by [<] exchanges strict lower and strict upper bounds, and writing
    a comparison [a < b] as [b > a] changes neither analysis. *)
Theorem strict_bounds_mirror (e : expression_t) :
  hasStrictUpperBound (opposite e) = hasStrictLowerBound e
  /\ hasStrictLowerBound (opposite e) = hasStrictUpperBound e
  /\ hasStrictLowerBound (converse e) = hasStrictLowerBound e
  /\ hasStrictUpperBound (converse e) = hasStrictUpperBound e.
Proof.
  split; [apply hasStrictLowerBound_opposite|].
  split; [apply hasStrictUpperBound_opposite|].
  split.
  - apply (bound_converse hasStrictLowerBound
             (fun a b => isIntegral a && isClock b)
             (fun a b => isClock a && isIntegral b)).
    + intros k p v sy t cs. cbn [hasStrictLowerBound].
      destruct k; reflexivity.
    + intros a b a' b' Ha Hb. unfold isIntegral, isClock.
      now rewrite Ha, Hb.
    + intros a b. apply andb_comm.
  - apply (bound_converse hasStrictUpperBound
             (fun a b => isClock a && isIntegral b)
             (fun a b => isIntegral a && isClock b)).
    + intros k p v sy t cs. cbn [hasStrictUpperBound].
      destruct k; reflexivity.
    + intros a b a' b' Ha Hb. unfold isIntegral, isClock.
      now rewrite Ha, Hb.
    + intros a b. apply andb_comm.
Qed.

(** ** Diagnostics are only appended *)

Lemma appended_refl (s : system_t) : appended s s.
Proof. exists []. now rewrite app_nil_r. Qed.

Lemma appended_trans (s1 s2 s3 : system_t) :
  appended s1 s2 -> appended s2 s3 -> appended s1 s3.
Proof.
  intros [l1 H1] [l2 H2]. exists (l1 ++ l2). now rewrite H2, H1, app_assoc.
Qed.

Lemma appended_handleError (e : expression_t) (msg : string)
      (s1 s2 : system_t) :
  appended s1 s2 -> appended s1 (handleError e msg s2).
Proof.
  intros H. eapply appended_trans; [exact H|].
  eexists. apply errors_handleError.
Qed.

Lemma grown_handleError (e : expression_t) (msg : string)
      (s1 s2 : system_t) :
  appended s1 s2 -> grown s1 (handleError e msg s2).
Proof.
  intros [l H]. eexists (l ++ [_]). split; [now destruct l|].
  now rewrite errors_handleError, H, app_assoc.
Qed.

Lemma grown_appended (s1 s2 : system_t) : grown s1 s2 -> appended s1 s2.
Proof. intros (l & _ & H). now exists l. Qed.

Lemma grown_trans_l (s1 s2 s3 : system_t) :
  grown s1 s2 -> appended s2 s3 -> grown s1 s3.
Proof.
  intros (l1 & Hne & H1) [l2 H2]. exists (l1 ++ l2).
  split; [now destruct l1|]. now rewrite H2, H1, app_assoc.
Qed.

Lemma grown_trans_r (s1 s2 s3 : system_t) :
  appended s1 s2 -> grown s2 s3 -> grown s1 s3.
Proof.
  intros [l1 H1] (l2 & Hne & H2). exists (l1 ++ l2).
  split; [now destruct l1, l2|]. now rewrite H2, H1, app_assoc.
Qed.

Lemma grown_changed (s1 s2 : system_t) :
  grown s1 s2 -> errors s2 <> errors s1.
Proof.
  intros (l & Hne & H) E. rewrite H in E.
  apply Hne. rewrite <- (app_nil_r (errors s1)) in E at 2.
  now apply app_inv_head in E.
Qed.

Lemma appended_unchanged (s1 s2 s3 : system_t) :
  appended s1 s2 -> appended s2 s3 -> errors s3 = errors s1 ->
  errors s2 = errors s1 /\ errors s3 = errors s2.
Proof.
  intros [l1 H1] [l2 H2] E. rewrite H2, H1, <- app_assoc in E.
  rewrite <- (app_nil_r (errors s1)) in E at 2.
  apply app_inv_head, app_eq_nil in E. destruct E as [-> ->].
  rewrite H2, H1, !app_nil_r. auto.
Qed.

Lemma handleError_changed (e : expression_t) (msg : string) (s : system_t) :
  errors (handleError e msg s) <> errors s.
Proof. apply grown_changed, grown_handleError, appended_refl. Qed.

Create HintDb diagnostics.

#[local] Hint Resolve appended_refl appended_handleError grown_handleError
  grown_appended : diagnostics.

(** ** Observation constraints *)

Lemma fold_appended (f : expression_t -> system_t -> system_t)
      (cs : list expression_t) :
  Forall (fun c => forall s, appended s (f c s)) cs ->
  forall s, appended s (fold_left (fun s c => f c s) cs s).
Proof.
  induction 1 as [|c cs Hc _ IH]; intros s; simpl.
  - apply appended_refl.
  - eapply appended_trans; [apply Hc | apply IH].
Qed.

Lemma checkObservationConstraints_appended (e : expression_t)
      (s : system_t) :
  appended s (checkObservationConstraints e s).
Proof.
  revert s. induction e as [|k p v sy t cs IH] using expression_rect';
    intros s; [apply appended_refl|].
  cbn [checkObservationConstraints].
  pose proof (fold_appended checkObservationConstraints cs IH s) as Hfold.
  repeat match goal with
         | |- context [if ?c then _ else _] => destruct c
         | |- context [match ?k with PLUS => _ | _ => _ end] => destruct k
         end; auto with diagnostics.
Qed.

Lemma fold_unchanged (f : expression_t -> system_t -> system_t)
      (P : expression_t -> Prop) (cs : list expression_t) :
  (forall c s, appended s (f c s)) ->
  Forall (fun c => forall s, errors (f c s) = errors s -> P c) cs ->
  forall s, errors (fold_left (fun s c => f c s) cs s) = errors s ->
            Forall P cs.
Proof.
  intros Happ. induction 1 as [|c cs Hc Hcs IH]; intros s E; simpl in E;
    constructor.
  - apply (Hc s).
    eapply (appended_unchanged s (f c s)); [apply Happ| |exact E].
    apply fold_appended. apply Forall_forall. intros; apply Happ.
  - apply (IH (f c s)).
    eapply (appended_unchanged s (f c s)); [apply Happ| |exact E].
    apply fold_appended. apply Forall_forall. intros; apply Happ.
Qed.

(** X9: a formula whose observation constraints are accepted, that is, for
    which [checkObservationConstraints] reports nothing, has no strict
    lower bound on a clock. *)
Theorem observation_lower_bounds_weak (e : expression_t) (s : system_t) :
  (exists more,
      errors (checkObservationConstraints e s) = errors s ++ more)
  /\ (errors (checkObservationConstraints e s) = errors s ->
      hasStrictLowerBound e = false).
Proof.
  split; [apply checkObservationConstraints_appended|].
  revert s. induction e as [|k p v sy t cs IH] using expression_rect';
    intros s; [reflexivity|].
  cbn [checkObservationConstraints hasStrictLowerBound].
  set (s1 := fold_left _ cs s).
  assert (appended s s1) as Hs1.
  { apply fold_appended. apply Forall_forall.
    intros; apply checkObservationConstraints_appended. }
  intros E.
  match type of E with
  | errors ?s2 = _ =>
      assert (appended s1 s2) as Hs2
  end.
  { repeat match goal with
           | |- context [if ?c then _ else _] => destruct c
           | |- context [match ?k with PLUS => _ | _ => _ end] => destruct k
           end; auto with diagnostics. }
  destruct (appended_unchanged _ _ _ Hs1 Hs2 E) as [E1 E2].
  assert (Forall (fun c => hasStrictLowerBound c = false) cs) as Hcs.
  { apply (fold_unchanged checkObservationConstraints _ cs
             checkObservationConstraints_appended IH s E1). }
  replace (existsb hasStrictLowerBound cs) with false.
  2:{ symmetry. clear -Hcs. induction Hcs as [|c cs Hc _ IHcs];
        [reflexivity|]. simpl. now rewrite Hc. }
  clear -E2. fold s1 in E2.
  destruct k; try reflexivity.
  - (* LT *)
    destruct (isIntegral _ && isClock _); [|reflexivity].
    now apply handleError_changed in E2.
  - (* GT *)
    destruct (isClock _ && isIntegral _); [|reflexivity].
    now apply handleError_changed in E2.
Qed.

(** ** No check fails silently *)

Lemma reports_true (s s' : system_t) : appended s s' -> reports true s s'.
Proof. intros H. split; [exact H | discriminate]. Qed.

Lemma reports_false (s s' : system_t) : grown s s' -> reports false s s'.
Proof. intros H. split; [now apply grown_appended | intros _; exact H]. Qed.

Lemma reports_and (ok1 ok2 : bool) (s s1 s2 : system_t) :
  reports ok1 s s1 -> reports ok2 s1 s2 -> reports (ok1 && ok2) s s2.
Proof.
  intros [A1 G1] [A2 G2]. split; [eapply appended_trans; eauto|].
  intros H. apply andb_false_iff in H. destruct H as [H|H].
  - eapply grown_trans_l; eauto.
  - eapply grown_trans_r; eauto.
Qed.

Lemma reports_weaken (ok ok' : bool) (s s' : system_t) :
  (ok' = false -> ok = false) -> reports ok s s' -> reports ok' s s'.
Proof. intros Himp [A G]. split; auto. Qed.

#[local] Hint Resolve reports_true reports_false : diagnostics.

Section Diagnostics.

Variable changesAnyVariable : expression_t -> bool.
Variable collectPossibleReads : expression_t -> list symbol_t.
Variable compileTimeComputableValues : symbol_t -> bool.
Variable checkType : type_t -> system_t -> system_t.

(** The validation of declared types reports by [handleError] only. *)
Hypothesis checkType_appended : forall t s, appended s (checkType t s).

Let check :=
  checkExpression changesAnyVariable collectPossibleReads
                  compileTimeComputableValues checkType.

Ltac split_ifs :=
  repeat match goal with
         | |- context [if ?c then _ else _] => destruct c
         end.

Lemma checkNrOfRuns_reports (e : expression_t) (s : system_t) :
  let r := checkNrOfRuns collectPossibleReads compileTimeComputableValues
                         e s in
  reports (fst r) s (snd r).
Proof. unfold checkNrOfRuns. split_ifs; simpl; auto with diagnostics. Qed.

Lemma checkBoundTypeOrBoundedExpr_reports (e : expression_t)
      (s : system_t) :
  let r := checkBoundTypeOrBoundedExpr e s in reports (fst r) s (snd r).
Proof.
  unfold checkBoundTypeOrBoundedExpr. split_ifs; simpl;
    auto with diagnostics.
Qed.

Lemma checkBound_reports (e : expression_t) (s : system_t) :
  let r := checkBound collectPossibleReads compileTimeComputableValues e s in
  reports (fst r) s (snd r).
Proof. unfold checkBound. split_ifs; simpl; auto with diagnostics. Qed.

Lemma checkPredicate_reports (e : expression_t) (s : system_t) :
  let r := checkPredicate changesAnyVariable e s in
  reports (fst r) s (snd r).
Proof. unfold checkPredicate. split_ifs; simpl; auto with diagnostics. Qed.

Lemma checkMonitoredExpr_reports (e : expression_t) (s : system_t) :
  let r := checkMonitoredExpr changesAnyVariable e s in
  reports (fst r) s (snd r).
Proof.
  unfold checkMonitoredExpr. split_ifs; simpl; auto with diagnostics.
Qed.

Lemma checkMonitoredExprs_reports (es : list expression_t) (s : system_t) :
  let r := checkMonitoredExprs changesAnyVariable es s in
  reports (fst r) s (snd r).
Proof.
  revert s. induction es as [|e es IH]; intros s; simpl.
  - auto with diagnostics.
  - pose proof (checkMonitoredExpr_reports e s) as He. simpl in He.
    destruct (checkMonitoredExpr changesAnyVariable e s) as [ok s1].
    simpl in He. destruct ok; [|exact He].
    specialize (IH s1). simpl in IH.
    apply (reports_and true _ s s1 _ He IH).
Qed.

Lemma checkParameterCompatible_reports (paramType : type_t)
      (arg : expression_t) (s : system_t) :
  let r := checkParameterCompatible paramType arg s in
  reports (fst r) s (snd r).
Proof.
  unfold checkParameterCompatible. split_ifs; simpl; auto with diagnostics.
Qed.

Lemma checkArguments_reports (type : type_t) (expr : expression_t)
      (n i : nat) (result : bool) (s : system_t) :
  let r := checkArguments type expr n i result s in
  reports (fst r || negb result) s (snd r).
Proof.
  revert i result s. induction n as [|n IH]; intros i result s; simpl.
  - destruct result; simpl; auto with diagnostics.
  - pose proof (checkParameterCompatible_reports
                  (Ty.get type (S i)) expr.[S i] s) as Hp. simpl in Hp.
    destruct (checkParameterCompatible _ _ s) as [ok s1]. simpl in Hp.
    specialize (IH (S i) (result && ok) s1). simpl in IH.
    destruct (checkArguments type expr n (S i) (result && ok) s1)
      as [r s2]. simpl in *.
    apply (reports_weaken (ok && (r || negb (result && ok))));
      [|apply (reports_and _ _ s s1 s2 Hp IH)].
    destruct r, result, ok; simpl; auto.
Qed.

Lemma checkIgnoredValue_errors (e : expression_t) (s : system_t) :
  errors (checkIgnoredValue changesAnyVariable e s) = errors s.
Proof.
  revert s. induction e as [|k p v sy t cs IH] using expression_rect';
    intros s.
  - simpl. now destruct (negb _).
  - cbn [checkIgnoredValue]. destruct (negb _); [reflexivity|].
    destruct k; try reflexivity.
    destruct cs as [|c0 [|c1 cs]]; try reflexivity.
    inversion IH as [|? ? _ IH']; subst.
    inversion IH' as [|? ? H1 _]; subst. apply H1.
Qed.

Lemma checkIgnoredValue_appended (e : expression_t) (s1 s2 : system_t) :
  appended s1 s2 -> appended s1 (checkIgnoredValue changesAnyVariable e s2).
Proof.
  intros [l H]. exists l. now rewrite checkIgnoredValue_errors.
Qed.

#[local] Hint Resolve checkType_appended checkIgnoredValue_appended
  : diagnostics.

(** The steps of the SIMULATE and SIMULATEREACH cases of the switch. *)
Ltac runs_step ok s' R :=
  match goal with
  | |- context [checkNrOfRuns _ _ ?e ?s] =>
      pose proof (checkNrOfRuns_reports e s) as R; simpl in R;
      destruct (checkNrOfRuns collectPossibleReads
                              compileTimeComputableValues e s)
        as [ok s']; simpl in R
  end.

Ltac boundType_step ok s' R :=
  match goal with
  | |- context [checkBoundTypeOrBoundedExpr ?e ?s] =>
      pose proof (checkBoundTypeOrBoundedExpr_reports e s) as R;
      simpl in R;
      destruct (checkBoundTypeOrBoundedExpr e s) as [ok s']; simpl in R
  end.

Ltac bound_step ok s' R :=
  match goal with
  | |- context [checkBound _ _ ?e ?s] =>
      pose proof (checkBound_reports e s) as R; simpl in R;
      destruct (checkBound collectPossibleReads
                           compileTimeComputableValues e s)
        as [ok s']; simpl in R
  end.

Ltac predicate_step ok s' R :=
  match goal with
  | |- context [checkPredicate _ ?e ?s] =>
      pose proof (checkPredicate_reports e s) as R; simpl in R;
      destruct (checkPredicate changesAnyVariable e s) as [ok s'];
      simpl in R
  end.

Ltac monitored_step ok s' R :=
  match goal with
  | |- context [checkMonitoredExprs _ ?es ?s] =>
      pose proof (checkMonitoredExprs_reports es s) as R; simpl in R;
      destruct (checkMonitoredExprs changesAnyVariable es s) as [ok s'];
      simpl in R
  end.

Ltac runCount_step s ok0 R0 ok1 s2 R1 :=
  match goal with
  | |- context [let (_, _) := ?p in
                let (_, _) := checkBoundTypeOrBoundedExpr _ _ in _] =>
      assert (reports (fst p) s (snd p)) as R1
        by (destruct (ok0 && _); simpl;
            [apply reports_false; eapply grown_handleError; apply R0
            |exact R0]);
      destruct p as [ok1 s2]; simpl in R1
  end.

Lemma checkKind_reports
      (recheck : expression_t -> system_t -> checkResult)
      (expr expr1 : expression_t) (s s1 : system_t) (o : outcome) :
  (forall c sa ok c' sb, recheck c sa = Some (ok, c', sb) ->
                         appended sa sb) ->
  checkKind changesAnyVariable collectPossibleReads
            compileTimeComputableValues checkType recheck expr s
  = Some (o, expr1, s1) ->
  appended s s1 /\ (o = Return false -> grown s s1).
Proof.
  intros Hrec. unfold checkKind.
  destruct (Expr.getKind expr) eqn:Hkind;
    try (split_ifs; intros [= <- <- <-];
         (split; [|intros; try discriminate]); auto 6 with diagnostics).
  - (* FUNCALL *)
    destruct (recheck expr.[0] s) as [[[ok0 e0'] s0]|] eqn:E0;
      [|discriminate].
    apply Hrec in E0.
    match goal with |- context [Ty.size ?t] => destruct (Ty.size t) end;
      [discriminate|].
    match goal with
    | |- context [checkArguments ?t ?e ?n ?i ?r ?s] =>
        pose proof (checkArguments_reports t e n i r s) as Ha;
        destruct (checkArguments t e n i r s) as [result s2]
    end.
    simpl in Ha. rewrite orb_false_r in Ha. destruct Ha as [A G].
    intros [= <- <- <-]. split; [eapply appended_trans; eauto|].
    intros [= ->]. eapply grown_trans_r; eauto.
  - (* SIMULATE *)
    change (SIMULATE =k SIMULATEREACH) with false. cbv iota.
    runs_step ok0 s0 R0. runCount_step s ok0 R0 ok1 s2 R1.
    boundType_step ok2 s3 R2. bound_step ok3 s4 R3.
    pose proof (reports_and _ _ _ _ _ (reports_and _ _ _ _ _ R1 R2) R3)
      as R.
    destruct (ok1 && ok2 && ok3); cbn [negb].
    2:{ intros [= <- <- <-]. split; [apply R | intros _; now apply R]. }
    monitored_step okm s5 Rm.
    pose proof (reports_and _ _ _ _ _ R Rm) as R'. simpl in R'.
    destruct okm; cbn [negb]; intros [= <- <- <-].
    + split; [apply R' | discriminate].
    + split; [apply R' | intros _; now apply R'].
  - (* SIMULATEREACH *)
    change (SIMULATEREACH =k SIMULATEREACH) with true. cbv iota.
    runs_step ok0 s0 R0. runCount_step s ok0 R0 ok1 s2 R1.
    boundType_step ok2 s3 R2. bound_step ok3 s4 R3.
    pose proof (reports_and _ _ _ _ _ (reports_and _ _ _ _ _ R1 R2) R3)
      as R.
    destruct (ok1 && ok2 && ok3); cbn [negb].
    2:{ intros [= <- <- <-]. split; [apply R | intros _; now apply R]. }
    predicate_step ok4 s5 R4. runs_step ok5 s6 R5.
    pose proof (reports_and _ _ _ _ _ (reports_and _ _ _ _ _ R R4) R5)
      as R'. simpl in R'.
    destruct (ok4 && ok5); cbn [negb].
    2:{ intros [= <- <- <-]. split; [apply R' | intros _; now apply R']. }
    monitored_step okm s7 Rm.
    pose proof (reports_and _ _ _ _ _ R' Rm) as R''. simpl in R''.
    destruct okm; cbn [negb]; intros [= <- <- <-].
    + split; [apply R'' | discriminate].
    + split; [apply R'' | intros _; now apply R''].
Qed.

Lemma checkSubExpressions_reports
      (rec : expression_t -> system_t -> checkResult)
      (cs cs' : list expression_t) (s s' : system_t) (ok : bool) :
  (forall c sa okc c' sb, rec c sa = Some (okc, c', sb) ->
                          reports okc sa sb) ->
  checkSubExpressions rec cs s = Some (ok, cs', s') -> reports ok s s'.
Proof.
  intros Hrec. revert s ok cs' s'.
  induction cs as [|c cs IH]; intros s ok cs' s'; simpl.
  - intros [= <- <- <-]. auto with diagnostics.
  - destruct (rec c s) as [[[okc c1] s1]|] eqn:Ec; [|discriminate].
    destruct (checkSubExpressions rec cs s1) as [[[oks cs1] s2]|] eqn:Es;
      [|discriminate].
    intros [= <- <- <-]. eapply reports_and; eauto.
Qed.

Lemma checkExpression_reports_rec (fuel : nat) :
  forall expr s ok e' s',
    check fuel expr s = Some (ok, e', s') -> reports ok s s'.
Proof.
  unfold check.
  induction fuel as [|fuel IH]; intros expr s ok e' s'; cbn [checkExpression].
  - destruct (Expr.empty expr); [|discriminate].
    intros [= <- <- <-]. auto with diagnostics.
  - destruct (Expr.empty expr).
    { intros [= <- <- <-]. auto with diagnostics. }
    destruct (checkSubExpressions _ _ s) as [[[oks cs] s1]|] eqn:Es;
      [|discriminate].
    apply checkSubExpressions_reports in Es; [|exact IH].
    destruct oks; cbn [negb]; [|intros [= <- <- <-]; exact Es].
    destruct (checkKind _ _ _ _ _ _ s1) as [[[o e1] s2]|] eqn:Ek;
      [|discriminate].
    apply checkKind_reports in Ek;
      [|intros c sa okc c' sb Hc; apply (IH _ _ _ _ _ Hc)].
    destruct Es as [As _]. destruct Ek as [Ak Gk].
    destruct o as [type|okk].
    + destruct (Ty.unknown type); intros [= <- <- <-].
      * apply reports_false, grown_handleError.
        eapply appended_trans; eauto.
      * apply reports_true. eapply appended_trans; eauto.
    + intros [= <- <- <-]. split; [eapply appended_trans; eauto|].
      intros ->. eapply grown_trans_r; eauto.
Qed.

(** X10: [checkExpression] never fails silently and never touches the errors
    already reported.  On an expression whose calls are calls of declared
    functions it returns; the errors of the system afterwards are those
    before followed by the ones it reports, and when it returns false it
    has reported at least one. *)
Theorem checkExpression_reports (fuel : nat) (expr : expression_t)
        (s : system_t) :
  wellFormedCalls expr = true ->
  (expression_height expr < fuel)%nat ->
  exists ok e' s' more,
    checkExpression changesAnyVariable collectPossibleReads
                    compileTimeComputableValues checkType fuel expr s
    = Some (ok, e', s')
    /\ errors s' = errors s ++ more
    /\ (ok = false -> more <> []).
Proof.
  intros Hcalls Hfuel.
  destruct (checkExpression_returns
              changesAnyVariable collectPossibleReads
              compileTimeComputableValues checkType fuel expr s
              Hcalls Hfuel) as [[[ok e'] s'] Hr].
  destruct (checkExpression_reports_rec fuel _ _ _ _ _ Hr)
    as [[more Hmore] Hgrown].
  exists ok, e', s', more. repeat split; [exact Hr | exact Hmore |].
  intros Hok. destruct (Hgrown Hok) as (more' & Hne & Hmore').
  rewrite Hmore in Hmore'. apply app_inv_head in Hmore'. now subst.
Qed.

End Diagnostics.

(** ** The checker only annotates *)

Lemma erase_setType (e : expression_t) (t : type_t) :
  erase (Expr.setType e t) = erase e.
Proof. now destruct e. Qed.

Lemma erase_setSub (e : expression_t) (cs : list expression_t) :
  map erase cs = map erase (Expr.sub e) -> erase (Expr.setSub e cs) = erase e.
Proof. destruct e; [reflexivity|]. simpl. now intros ->. Qed.

Ltac split_lets :=
  repeat match goal with
         | |- context [let (_, _) := ?p in _] => destruct p
         | |- context [if ?c then _ else _] => destruct c
         end.

Section Annotation.

Variable changesAnyVariable : expression_t -> bool.
Variable collectPossibleReads : expression_t -> list symbol_t.
Variable compileTimeComputableValues : symbol_t -> bool.
Variable checkType : type_t -> system_t -> system_t.

Let check :=
  checkExpression changesAnyVariable collectPossibleReads
                  compileTimeComputableValues checkType.

(** The switch returns the expression it was given, but for the callee
    of a call, which it checks again. *)
Lemma checkKind_expr (recheck : expression_t -> system_t -> checkResult)
      (expr expr1 : expression_t) (s s1 : system_t) (o : outcome) :
  checkKind changesAnyVariable collectPossibleReads
            compileTimeComputableValues checkType recheck expr s
  = Some (o, expr1, s1) ->
  if Expr.getKind expr =k FUNCALL
  then exists ok0 e0 s0,
      recheck expr.[0] s = Some (ok0, e0, s0)
      /\ expr1 = Expr.setSub expr (<[O := e0]> (Expr.sub expr))
  else expr1 = expr.
Proof.
  unfold checkKind.
  destruct (Expr.getKind expr) eqn:Hkind;
    try (change (_ =k FUNCALL) with false; cbv iota;
         split_lets; now intros [= <- <- <-]).
  change (FUNCALL =k FUNCALL) with true. cbv iota.
  destruct (recheck expr.[0] s) as [[[ok0 e0] s0]|] eqn:E0; [|discriminate].
  match goal with |- context [Ty.size ?t] => destruct (Ty.size t) end;
    [discriminate|].
  split_lets. intros [= <- <- <-]. eauto.
Qed.

Lemma checkSubExpressions_erase
      (rec : expression_t -> system_t -> checkResult)
      (cs cs' : list expression_t) (s s' : system_t) (ok : bool) :
  (forall c sa okc c' sb, rec c sa = Some (okc, c', sb) ->
                          erase c' = erase c) ->
  checkSubExpressions rec cs s = Some (ok, cs', s') ->
  map erase cs' = map erase cs.
Proof.
  intros Hrec. revert s ok cs' s'.
  induction cs as [|c cs IH]; intros s ok cs' s'; simpl.
  - now intros [= <- <- <-].
  - destruct (rec c s) as [[[okc c1] s1]|] eqn:Ec; [|discriminate].
    destruct (checkSubExpressions rec cs s1) as [[[oks cs1] s2]|] eqn:Es;
      [|discriminate].
    intros [= <- <- <-]. simpl. f_equal; eauto.
Qed.

Lemma checkExpression_erase_rec (fuel : nat) :
  forall expr s ok e' s',
    check fuel expr s = Some (ok, e', s') -> erase e' = erase expr.
Proof.
  unfold check.
  induction fuel as [|fuel IH]; intros expr s ok e' s'; cbn [checkExpression].
  - destruct (Expr.empty expr); [|discriminate]. now intros [= <- <- <-].
  - destruct (Expr.empty expr) eqn:Hempty; [now intros [= <- <- <-]|].
    destruct (checkSubExpressions _ _ s) as [[[oks cs] s1]|] eqn:Es;
      [|discriminate].
    apply checkSubExpressions_erase in Es; [|exact IH].
    pose proof (erase_setSub expr cs Es) as Hsub.
    destruct oks; cbn [negb]; [|now intros [= <- <- <-]].
    destruct (checkKind _ _ _ _ _ _ s1) as [[[o e1] s2]|] eqn:Ek;
      [|discriminate].
    apply checkKind_expr in Ek.
    assert (erase e1 = erase expr) as He1.
    { destruct (_ =k FUNCALL); [|now subst e1].
      destruct Ek as (ok0 & e0 & s0 & E0 & ->).
      apply IH in E0. rewrite <- Hsub.
      destruct expr as [|k p v sy t cs0]; [discriminate|].
      simpl. f_equal. unfold Expr.get in E0. simpl in E0.
      destruct cs as [|c cs]; [reflexivity|]. simpl in *.
      now rewrite E0. }
    destruct o as [type|okk].
    + destruct (Ty.unknown type); intros [= <- <- <-]; [exact He1|].
      now rewrite erase_setType.
    + now intros [= <- <- <-].
Qed.

(** X11: [checkExpression] only annotates.  The expression it leaves is the
    expression it was given up to the types attached to the nodes: no node
    is added, removed, reordered or given another kind, value or symbol. *)
Theorem checkExpression_annotates (fuel : nat) (expr : expression_t)
        (s : system_t) :
  wellFormedCalls expr = true ->
  (expression_height expr < fuel)%nat ->
  exists ok e' s',
    checkExpression changesAnyVariable collectPossibleReads
                    compileTimeComputableValues checkType fuel expr s
    = Some (ok, e', s')
    /\ erase e' = erase expr.
Proof.
  intros Hcalls Hfuel.
  destruct (checkExpression_returns
              changesAnyVariable collectPossibleReads
              compileTimeComputableValues checkType fuel expr s
              Hcalls Hfuel) as [[[ok e'] s'] Hr].
  exists ok, e', s'. split; [exact Hr|].
  exact (checkExpression_erase_rec fuel _ _ _ _ _ Hr).
Qed.

End Annotation.

(** ** The verdict does not depend on the diagnostics *)

Section Frame.

Variable changesAnyVariable : expression_t -> bool.
Variable collectPossibleReads : expression_t -> list symbol_t.
Variable compileTimeComputableValues : symbol_t -> bool.
Variable checkType : type_t -> system_t -> system_t.

Let check :=
  checkExpression changesAnyVariable collectPossibleReads
                  compileTimeComputableValues checkType.

Ltac split_ifs :=
  repeat match goal with
         | |- context [if ?c then _ else _] => destruct c
         end.

Lemma checkMonitoredExprs_frame (es : list expression_t)
      (sa sb : system_t) :
  fst (checkMonitoredExprs changesAnyVariable es sa)
  = fst (checkMonitoredExprs changesAnyVariable es sb).
Proof.
  revert sa sb. induction es as [|e es IH]; intros sa sb; [reflexivity|].
  simpl. unfold checkMonitoredExpr. split_ifs; simpl; auto.
Qed.

Lemma checkArguments_frame (type : type_t) (expr : expression_t)
      (n i : nat) (result : bool) (sa sb : system_t) :
  fst (checkArguments type expr n i result sa)
  = fst (checkArguments type expr n i result sb).
Proof.
  revert i result sa sb.
  induction n as [|n IH]; intros i result sa sb; [reflexivity|].
  simpl. unfold checkParameterCompatible. split_ifs; simpl; auto.
Qed.

Lemma checkKind_frame (recheck : expression_t -> system_t -> checkResult)
      (expr : expression_t) (sa sb : system_t) :
  (forall c s1 s2, verdict (recheck c s1) = verdict (recheck c s2)) ->
  verdict (checkKind changesAnyVariable collectPossibleReads
                     compileTimeComputableValues checkType recheck expr sa)
  = verdict (checkKind changesAnyVariable collectPossibleReads
                       compileTimeComputableValues checkType recheck expr
                       sb).
Proof.
  intros Hrec. unfold checkKind.
  destruct (Expr.getKind expr) eqn:Hkind;
    try (split_ifs; reflexivity).
  - (* FUNCALL *)
    specialize (Hrec expr.[0] sa sb).
    destruct (recheck expr.[0] sa) as [[[oka ea] sa1]|],
             (recheck expr.[0] sb) as [[[okb eb] sb1]|];
      try discriminate; [|reflexivity].
    injection Hrec as -> ->.
    match goal with |- context [Ty.size ?t] => destruct (Ty.size t) end;
      [reflexivity|].
    match goal with
    | |- context [checkArguments ?t ?e ?n ?i ?r sa1] =>
        pose proof (checkArguments_frame t e n i r sa1 sb1) as Ha;
        destruct (checkArguments t e n i r sa1),
                 (checkArguments t e n i r sb1)
    end.
    simpl in Ha. now subst.
  - (* SIMULATE *)
    unfold checkNrOfRuns, checkBoundTypeOrBoundedExpr, checkBound,
      checkPredicate.
    match goal with |- context [take ?n ?l] => set (es := take n l) end.
    split_ifs; cbn [negb andb]; cbv iota; try reflexivity;
      match goal with
      | |- context [checkMonitoredExprs _ _ ?s1] =>
          match goal with
          | |- verdict _ = verdict ?rhs =>
              match rhs with
              | context [checkMonitoredExprs _ _ ?s2] =>
                  pose proof (checkMonitoredExprs_frame es s1 s2) as Hm;
                  destruct (checkMonitoredExprs changesAnyVariable es s1),
                           (checkMonitoredExprs changesAnyVariable es s2)
              end
          end
      end; simpl in Hm; subst; split_ifs; reflexivity.
  - (* SIMULATEREACH *)
    unfold checkNrOfRuns, checkBoundTypeOrBoundedExpr, checkBound,
      checkPredicate.
    match goal with |- context [take ?n ?l] => set (es := take n l) end.
    split_ifs; cbn [negb andb]; cbv iota; try reflexivity;
      match goal with
      | |- context [checkMonitoredExprs _ _ ?s1] =>
          match goal with
          | |- verdict _ = verdict ?rhs =>
              match rhs with
              | context [checkMonitoredExprs _ _ ?s2] =>
                  pose proof (checkMonitoredExprs_frame es s1 s2) as Hm;
                  destruct (checkMonitoredExprs changesAnyVariable es s1),
                           (checkMonitoredExprs changesAnyVariable es s2)
              end
          end
      end; simpl in Hm; subst; split_ifs; reflexivity.
Qed.

Lemma checkSubExpressions_frame
      (rec : expression_t -> system_t -> checkResult)
      (cs : list expression_t) (sa sb : system_t) :
  (forall c s1 s2, verdict (rec c s1) = verdict (rec c s2)) ->
  verdict (checkSubExpressions rec cs sa)
  = verdict (checkSubExpressions rec cs sb).
Proof.
  intros Hrec. revert sa sb.
  induction cs as [|c cs IH]; intros sa sb; [reflexivity|].
  simpl. specialize (Hrec c sa sb).
  destruct (rec c sa) as [[[oka ca] sa1]|], (rec c sb) as [[[okb cb] sb1]|];
    try discriminate; [|reflexivity].
  injection Hrec as -> ->.
  specialize (IH sa1 sb1).
  destruct (checkSubExpressions rec cs sa1) as [[[oksa csa] sa2]|],
           (checkSubExpressions rec cs sb1) as [[[oksb csb] sb2]|];
    try discriminate; [|reflexivity].
  injection IH as -> ->. reflexivity.
Qed.

Lemma checkExpression_frame_rec (fuel : nat) :
  forall expr sa sb,
    verdict (check fuel expr sa) = verdict (check fuel expr sb).
Proof.
  unfold check.
  induction fuel as [|fuel IH]; intros expr sa sb; cbn [checkExpression].
  - now destruct (Expr.empty expr).
  - destruct (Expr.empty expr); [reflexivity|].
    pose proof (checkSubExpressions_frame _ (Expr.sub expr) sa sb IH) as Hs.
    destruct (checkSubExpressions _ _ sa) as [[[oka csa] sa1]|],
             (checkSubExpressions _ _ sb) as [[[okb csb] sb1]|];
      try discriminate; [|reflexivity].
    injection Hs as -> ->.
    destruct okb; cbn [negb]; [|reflexivity].
    pose proof (checkKind_frame _ (Expr.setSub expr csb) sa1 sb1 IH) as Hk.
    destruct (checkKind _ _ _ _ _ _ sa1) as [[[oa ea] sa2]|],
             (checkKind _ _ _ _ _ _ sb1) as [[[ob eb] sb2]|];
      try discriminate; [|reflexivity].
    injection Hk as -> ->.
    destruct ob as [type|ok]; [|reflexivity].
    now destruct (Ty.unknown type).
Qed.

(** X12: what [checkExpression] returns and the types it attaches do not
    depend on the errors and warnings reported before: in two systems the
    value returned and the annotated expression are the same. *)
Theorem checkExpression_frame (fuel : nat) (expr : expression_t)
        (s1 s2 : system_t) :
  verdict (checkExpression changesAnyVariable collectPossibleReads
                           compileTimeComputableValues checkType
                           fuel expr s1)
  = verdict (checkExpression changesAnyVariable collectPossibleReads
                             compileTimeComputableValues checkType
                             fuel expr s2).
Proof. apply checkExpression_frame_rec. Qed.

End Frame.

(** ** Checking twice *)

Lemma verdict_Some {A : Type} (r : option (A * system_t)) (a : A) :
  verdict r = Some a <-> exists s, r = Some (a, s).
Proof.
  unfold verdict. destruct r as [[a' s]|]; simpl; split.
  - intros [= ->]. eauto.
  - now intros [s' [= -> _]].
  - discriminate.
  - now intros [s' H].
Qed.

Section Switch.

Variable changesAnyVariable : expression_t -> bool.
Variable collectPossibleReads : expression_t -> list symbol_t.
Variable compileTimeComputableValues : symbol_t -> bool.
Variable checkType : type_t -> system_t -> system_t.

Let check :=
  checkExpression changesAnyVariable collectPossibleReads
                  compileTimeComputableValues checkType.

Lemma checkArguments_sub (type : type_t) (e1 e2 : expression_t)
      (n i : nat) (result : bool) (s : system_t) :
  Expr.sub e1 = Expr.sub e2 ->
  checkArguments type e1 n i result s = checkArguments type e2 n i result s.
Proof.
  intros H. revert i result s.
  induction n as [|n IH]; intros i result s; [reflexivity|].
  simpl. unfold Expr.get. rewrite H.
  destruct (checkParameterCompatible _ _ s). apply IH.
Qed.

(** The switch does not look at the type of the node it is given. *)
Lemma checkKind_setType (recheck : expression_t -> system_t -> checkResult)
      (expr : expression_t) (t : type_t) (s : system_t) :
  checkKind changesAnyVariable collectPossibleReads
            compileTimeComputableValues checkType recheck
            (Expr.setType expr t) s
  = match checkKind changesAnyVariable collectPossibleReads
                    compileTimeComputableValues checkType recheck expr s with
    | Some (o, e1, s1) => Some (o, Expr.setType e1 t, s1)
    | None => None
    end.
Proof.
  destruct expr as [|k p v sy t0 cs]; [reflexivity|].
  unfold checkKind, handleError, Expr.get, Expr.getSize.
  cbn [Expr.setType Expr.getKind Expr.sub Expr.getPosition].
  destruct k; try (split_lets; reflexivity).
  (* FUNCALL *)
  destruct (recheck _ s) as [[[ok0 e0] s0]|]; [|reflexivity].
  cbn [Expr.setSub Expr.sub Expr.getType].
  match goal with |- context [Ty.size ?t] => destruct (Ty.size t) end;
    [reflexivity|].
  unfold Expr.get. cbn [Expr.sub].
  rewrite (checkArguments_sub _ (expression_data FUNCALL p v sy t _)
                              (expression_data FUNCALL p v sy t0
                                               (<[O := e0]> cs)))
    by reflexivity.
  now destruct (checkArguments _ _ _ _ _ _).
Qed.

End Switch.

Section Idempotence.

Variable changesAnyVariable : expression_t -> bool.
Variable collectPossibleReads : expression_t -> list symbol_t.
Variable compileTimeComputableValues : symbol_t -> bool.
Variable checkType : type_t -> system_t -> system_t.

Let check :=
  checkExpression changesAnyVariable collectPossibleReads
                  compileTimeComputableValues checkType.

(** [stable rec c]: checking [c] again succeeds and leaves it as it is. *)
Let stable (rec : expression_t -> system_t -> checkResult)
    (c : expression_t) : Prop :=
  forall s, verdict (rec c s) = Some (true, c).

Lemma checkSubExpressions_Forall (P : expression_t -> Prop)
      (rec : expression_t -> system_t -> checkResult)
      (cs cs' : list expression_t) (s s' : system_t) :
  (forall c sa c' sb, rec c sa = Some (true, c', sb) -> P c') ->
  checkSubExpressions rec cs s = Some (true, cs', s') ->
  Forall P cs'.
Proof.
  intros Hrec. revert s cs' s'.
  induction cs as [|c cs IH]; intros s cs' s'; simpl.
  - intros [= <- <-]. constructor.
  - destruct (rec c s) as [[[okc c1] s1]|] eqn:Ec; [|discriminate].
    destruct (checkSubExpressions rec cs s1) as [[[oks cs1] s2]|] eqn:Es;
      [|discriminate].
    intros [= Hok <- <-]. apply andb_true_iff in Hok.
    destruct Hok as [-> ->]. constructor; eauto.
Qed.

Lemma checkSubExpressions_again
      (rec : expression_t -> system_t -> checkResult)
      (cs : list expression_t) :
  Forall (stable rec) cs ->
  forall s, verdict (checkSubExpressions rec cs s) = Some (true, cs).
Proof.
  induction 1 as [|c cs Hc _ IH]; intros s; [reflexivity|].
  simpl. specialize (Hc s). apply verdict_Some in Hc.
  destruct Hc as [s1 ->].
  specialize (IH s1). apply verdict_Some in IH. destruct IH as [s2 ->].
  reflexivity.
Qed.

(** Once the operands are stable, the switch returns the expression it
    was given: the second check of the callee of a call changes nothing. *)
Lemma checkKind_same (rec : expression_t -> system_t -> checkResult)
      (E e1 : expression_t) (s1 s2 : system_t) (o : outcome) :
  Forall (stable rec) (Expr.sub E) ->
  checkKind changesAnyVariable collectPossibleReads
            compileTimeComputableValues checkType rec E s1
  = Some (o, e1, s2) ->
  e1 = E.
Proof.
  intros Hcs Ek. apply checkKind_expr in Ek.
  destruct (Expr.getKind E =k FUNCALL); [|exact Ek].
  destruct Ek as (ok0 & e0 & s0 & E0 & ->).
  destruct E as [|k p v sy t cs]; [reflexivity|].
  cbn [Expr.setSub Expr.sub] in *. f_equal.
  unfold Expr.get in E0. cbn [Expr.sub] in E0.
  destruct cs as [|c cs]; [reflexivity|]. simpl in E0 |- *.
  inversion Hcs as [|? ? Hc _]; subst.
  specialize (Hc s1). rewrite E0 in Hc. now injection Hc as _ ->.
Qed.

Lemma checkExpression_stable_rec (fuel : nat) :
  forall expr s e' s',
    check fuel expr s = Some (true, e', s') -> stable (check fuel) e'.
Proof.
  unfold check, stable.
  induction fuel as [|fuel IH]; intros expr s e' s' H;
    cbn [checkExpression] in H.
  - destruct (Expr.empty expr) eqn:He; [|discriminate].
    injection H as <- <-. intros s2. simpl. now rewrite He.
  - destruct (Expr.empty expr) eqn:He.
    { injection H as <- <-. intros s2. cbn [checkExpression].
      now rewrite He. }
    destruct expr as [|k p v sy t cs0]; [discriminate|].
    cbn [Expr.sub] in H.
    destruct (checkSubExpressions _ cs0 s) as [[[oks cs] s1]|] eqn:Es;
      [|discriminate].
    destruct oks; cbn [negb] in H; [|discriminate].
    apply (checkSubExpressions_Forall (stable (check fuel))) in Es;
      [|exact IH].
    pose proof (checkSubExpressions_again _ cs Es) as Hcs.
    unfold check in Hcs.
    cbn [Expr.setSub] in H.
    set (E := expression_data k p v sy t cs) in *.
    destruct (checkKind _ _ _ _ _ E s1) as [[[o e1] s2]|] eqn:Ek;
      [|discriminate].
    assert (e1 = E) as -> by (apply (checkKind_same _ E _ _ _ _ Es Ek)).
    assert (forall type s3,
               verdict
                 (checkExpression changesAnyVariable collectPossibleReads
                    compileTimeComputableValues checkType (S fuel)
                    (Expr.setType E type) s3)
               = match o with
                 | Break type' =>
                     if Ty.unknown type' then Some (false, Expr.setType E type)
                     else Some (true, Expr.setType E type')
                 | Return ok => Some (ok, Expr.setType E type)
                 end) as Hagain.
    { intros type s3. cbn [checkExpression Expr.setType E Expr.empty Expr.sub].
      specialize (Hcs s3). apply verdict_Some in Hcs. destruct Hcs as [s4 ->].
      cbn [negb Expr.setSub].
      change (expression_data k p v sy type cs) with (Expr.setType E type).
      rewrite checkKind_setType.
      pose proof (checkKind_frame
                    changesAnyVariable collectPossibleReads
                    compileTimeComputableValues checkType
                    _ E s1 s4
                    (checkExpression_frame_rec
                       changesAnyVariable collectPossibleReads
                       compileTimeComputableValues checkType fuel))
        as Hk.
      rewrite Ek in Hk. cbn [verdict option_map fst] in Hk.
      symmetry in Hk. apply verdict_Some in Hk.
      destruct Hk as [s5 ->].
      destruct o as [type'|ok]; [|reflexivity].
      destruct (Ty.unknown type'); reflexivity. }
    destruct o as [type'|ok].
    + destruct (Ty.unknown type') eqn:Hu; [discriminate|].
      injection H as <- <-. intros s3.
      change (expression_data k p v sy type' cs)
        with (Expr.setType E type').
      apply Hagain.
    + injection H as -> <- <-. intros s3.
      exact (Hagain t s3).
Qed.

(** The switch returns true at once only for the kinds without typing
    rule and for calls. *)
Lemma checkKind_return_true
      (rec : expression_t -> system_t -> checkResult)
      (E e1 : expression_t) (s1 s2 : system_t) :
  checkKind changesAnyVariable collectPossibleReads
            compileTimeComputableValues checkType rec E s1
  = Some (Return true, e1, s2) ->
  hasTypingRule (Expr.getKind E) = false.
Proof.
  unfold checkKind.
  destruct (Expr.getKind E); try reflexivity;
    split_lets; intros [= ]; discriminate.
Qed.

Lemma checkExpression_wellTyped_rec (fuel : nat) :
  forall expr s e' s',
    check fuel expr s = Some (true, e', s') -> wellTyped e' = true.
Proof.
  unfold check.
  induction fuel as [|fuel IH]; intros expr s e' s' H;
    cbn [checkExpression] in H.
  - destruct expr; [|discriminate]. now injection H as <- <-.
  - destruct expr as [|k p v sy t cs0]; [now injection H as <- <-|].
    cbn [Expr.empty Expr.sub] in H.
    destruct (checkSubExpressions _ cs0 s) as [[[oks cs] s1]|] eqn:Es;
      [|discriminate].
    destruct oks; cbn [negb] in H; [|discriminate].
    pose proof (checkSubExpressions_Forall
                  (stable (check fuel)) _ _ _ _ _
                  (checkExpression_stable_rec fuel) Es) as Hstable.
    apply (checkSubExpressions_Forall (fun c => wellTyped c = true)) in Es;
      [|exact IH].
    assert (forallb wellTyped cs = true) as Hcs
      by (apply forallb_forall; intros c Hc;
          now apply (proj1 (Forall_forall _ _) Es), list_elem_of_In).
    cbn [Expr.setSub] in H.
    set (E := expression_data k p v sy t cs) in *.
    destruct (checkKind _ _ _ _ _ E s1) as [[[o e1] s2]|] eqn:Ek;
      [|discriminate].
    assert (e1 = E) as -> by (apply (checkKind_same _ E _ _ _ _ Hstable Ek)).
    destruct o as [type|ok].
    + destruct (Ty.unknown type) eqn:Hu; [discriminate|].
      injection H as <- <-. simpl. rewrite Hu, Hcs.
      now destruct (hasTypingRule k).
    + injection H as -> <- <-.
      apply checkKind_return_true in Ek. simpl in Ek.
      simpl. now rewrite Ek, Hcs.
Qed.

(** X13: checking again changes nothing.  An expression accepted by
    [checkExpression] is accepted again, in any system, and the second
    check leaves every type as the first one attached it. *)
Theorem checkExpression_idempotent (fuel : nat) (expr : expression_t)
        (s : system_t) :
  wellFormedCalls expr = true ->
  (expression_height expr < fuel)%nat ->
  exists ok e' s',
    checkExpression changesAnyVariable collectPossibleReads
                    compileTimeComputableValues checkType fuel expr s
    = Some (ok, e', s')
    /\ (ok = true ->
        forall s2, exists s2',
          checkExpression changesAnyVariable collectPossibleReads
                          compileTimeComputableValues checkType fuel e' s2
          = Some (true, e', s2')).
Proof.
  intros Hcalls Hfuel.
  destruct (checkExpression_returns
              changesAnyVariable collectPossibleReads
              compileTimeComputableValues checkType fuel expr s
              Hcalls Hfuel) as [[[ok e'] s'] Hr].
  exists ok, e', s'. split; [exact Hr|]. intros -> s2.
  apply verdict_Some. exact (checkExpression_stable_rec fuel _ _ _ _ Hr s2).
Qed.

(** X14: [checkExpression] assigns a type to every subexpression.  In an
    expression it accepts, every node that has a typing rule, at any
    depth, has a known type. *)
Theorem checkExpression_types_every_node (fuel : nat) (expr : expression_t)
        (s : system_t) :
  wellFormedCalls expr = true ->
  (expression_height expr < fuel)%nat ->
  exists ok e' s',
    checkExpression changesAnyVariable collectPossibleReads
                    compileTimeComputableValues checkType fuel expr s
    = Some (ok, e', s')
    /\ (ok = true -> wellTyped e' = true).
Proof.
  intros Hcalls Hfuel.
  destruct (checkExpression_returns
              changesAnyVariable collectPossibleReads
              compileTimeComputableValues checkType fuel expr s
              Hcalls Hfuel) as [[[ok e'] s'] Hr].
  exists ok, e', s'. split; [exact Hr|]. intros ->.
  exact (checkExpression_wellTyped_rec fuel _ _ _ _ Hr).
Qed.

End Idempotence.

(** ** Typing rules *)

(** The cases for the kind a type has below its wrappers, among the
    kinds of the semantic categories. *)
Ltac category_cases t :=
  destruct (Ty.is_ t INT) eqn:?H;
  [ match goal with H : Ty.is_ t INT = true |- _ => other_kind H end
  | destruct (Ty.is_ t BOOL) eqn:?H;
    [ match goal with H : Ty.is_ t BOOL = true |- _ => other_kind H end
    | destruct (Ty.is_ t INVARIANT) eqn:?H;
      [ match goal with
        | H : Ty.is_ t INVARIANT = true |- _ => other_kind H
        end
      | destruct (Ty.is_ t INVARIANT_WR) eqn:?H;
        [ match goal with
          | H : Ty.is_ t INVARIANT_WR = true |- _ => other_kind H
          end
        | destruct (Ty.is_ t GUARD) eqn:?H;
          [ match goal with
            | H : Ty.is_ t GUARD = true |- _ => other_kind H
            end
          | destruct (Ty.is_ t CONSTRAINT) eqn:?H;
            [ match goal with
              | H : Ty.is_ t CONSTRAINT = true |- _ => other_kind H
              end
            | destruct (Ty.is_ t FORMULA) eqn:?H ] ] ] ] ] ].

Ltac unfold_categories :=
  unfold isFormula, isConstraint, isGuard, isInvariantWR, isInvariant,
    isIntegral, Ty.isFormula, Ty.isConstraint, Ty.isGuard, Ty.isInvariant,
    Ty.isIntegral, Ty.isInteger, Ty.isBoolean in *.

Lemma areEquivalent_clocks (a b : type_t) :
  Ty.isClock a = true -> Ty.isClock b = true -> areEquivalent a b = true.
Proof.
  intros Ha Hb.
  rewrite areEquivalent_unfold, areEquivalent_rec_S
    by (apply (is_not_null a CLOCK); [discriminate | exact Ha]).
  unfold Ty.isClock in *. only_kind Ha. now rewrite Ha, Hb.
Qed.

Lemma areEquivalent_scalars (a b : type_t) :
  Ty.isScalar a = true -> Ty.isScalar b = true ->
  areEquivalent a b = isSameScalarType a b.
Proof.
  intros Ha Hb.
  rewrite areEquivalent_unfold, areEquivalent_rec_S
    by (apply (is_not_null a SCALAR); [discriminate | exact Ha]).
  unfold Ty.isScalar in *. only_kind Ha. now rewrite Ha, Hb.
Qed.

(** The slip in [isSameScalarType]: a reference is stripped from the first
    argument only. *)
Lemma isSameScalarType_reference (S : type_t) :
  scalarSet S -> strippedLeft S = false ->
  isSameScalarType (Ty.createPrefix REF S) S = true
  /\ isSameScalarType S (Ty.createPrefix REF S) = false.
Proof.
  intros HS Hroot. unfold isSameScalarType. split.
  - rewrite isSameScalarType_rec_S. cbn [strippedLeft Ty.createPrefix
      Ty.getKind orb]. change (REF =k REF) with true. cbn [orb].
    apply isSameScalarType_rec_refl; [exact HS|]. simpl. lia.
  - rewrite isSameScalarType_rec_S, Hroot.
    destruct HS as [r cs | r l c cs _ | r l c cs _ | k r l c cs [-> | ->] _];
      try discriminate Hroot; reflexivity.
Qed.

Section TypingRules.

Variable changesAnyVariable : expression_t -> bool.
Variable collectPossibleReads : expression_t -> list symbol_t.
Variable compileTimeComputableValues : symbol_t -> bool.
Variable checkType : type_t -> system_t -> system_t.

Let check :=
  checkExpression changesAnyVariable collectPossibleReads
                  compileTimeComputableValues checkType.
Let kindOf :=
  checkKind changesAnyVariable collectPossibleReads
            compileTimeComputableValues checkType.

(** X15: a conjunction is accepted exactly when both operands are formulas
    or both are invariants with rates, and it is then integral, an
    invariant, an invariant with rates, a guard, a constraint or a formula
    exactly when both operands are. *)
Theorem conjunction_categories (fuel : nat) (expr a b : expression_t)
        (cs : list expression_t) (s s1 : system_t) :
  Expr.getKind expr = AND ->
  checkSubExpressions (check fuel) (Expr.sub expr) s
  = Some (true, a :: b :: cs, s1) ->
  let accepted :=
    (isInvariantWR a && isInvariantWR b) || (isFormula a && isFormula b) in
  exists e' s',
    check (S fuel) expr s = Some (accepted, e', s')
    /\ Expr.sub e' = a :: b :: cs
    /\ (accepted = true ->
        s' = s1
        /\ isIntegral e' = isIntegral a && isIntegral b
        /\ isInvariant e' = isInvariant a && isInvariant b
        /\ isInvariantWR e' = isInvariantWR a && isInvariantWR b
        /\ isGuard e' = isGuard a && isGuard b
        /\ isConstraint e' = isConstraint a && isConstraint b
        /\ isFormula e' = isFormula a && isFormula b).
Proof.
  intros Hk Hcs accepted.
  destruct expr as [|k p v sy t cs0]; [discriminate|].
  simpl in Hk. subst k.
  unfold check.
  rewrite (checkExpression_step
             changesAnyVariable collectPossibleReads
             compileTimeComputableValues checkType
             fuel (expression_data AND p v sy t cs0) s s1 _ eq_refl Hcs).
  switch.
  match goal with
  | |- context [Ty.unknown ?ty] => set (type := ty)
  end.
  assert (Ty.unknown type = negb accepted
          /\ (accepted = true ->
              Ty.isIntegral type = isIntegral a && isIntegral b
              /\ Ty.isInvariant type = isInvariant a && isInvariant b
              /\ Ty.isInvariant type || Ty.is_ type INVARIANT_WR
                 = isInvariantWR a && isInvariantWR b
              /\ Ty.isGuard type = isGuard a && isGuard b
              /\ Ty.isConstraint type = isConstraint a && isConstraint b
              /\ Ty.isFormula type = isFormula a && isFormula b))
    as [Hu Hc].
  { subst type accepted. unfold_categories.
    category_cases (Expr.getType a); category_cases (Expr.getType b);
      simpl; (split; [reflexivity|]); intros; try discriminate;
      repeat split; reflexivity. }
  rewrite Hu.
  destruct accepted eqn:Hf; cbn [negb];
    eexists _, _; (split; [reflexivity|]); (split; [reflexivity|]);
    [|discriminate].
  intros _. split; [reflexivity|]. apply Hc. reflexivity.
Qed.

(** X16: a disjunction with a clock constraint on both sides is at most a
    constraint.  A disjunction is accepted when both operands are
    constraints, or one is integral and the other an invariant with
    rates; it is an invariant, an invariant with rates or a guard only
    when both operands are and one of them is integral. *)
Theorem disjunction_categories (fuel : nat) (expr a b : expression_t)
        (cs : list expression_t) (s s1 : system_t) :
  Expr.getKind expr = OR ->
  checkSubExpressions (check fuel) (Expr.sub expr) s
  = Some (true, a :: b :: cs, s1) ->
  let accepted :=
    (isConstraint a && isConstraint b)
    || (isIntegral a && isInvariantWR b)
    || (isInvariantWR a && isIntegral b) in
  let oneIntegral := isIntegral a || isIntegral b in
  exists e' s',
    check (S fuel) expr s = Some (accepted, e', s')
    /\ Expr.sub e' = a :: b :: cs
    /\ (accepted = true ->
        s' = s1
        /\ isIntegral e' = isIntegral a && isIntegral b
        /\ isInvariant e' = isInvariant a && isInvariant b && oneIntegral
        /\ isInvariantWR e'
           = isInvariantWR a && isInvariantWR b && oneIntegral
        /\ isGuard e' = isGuard a && isGuard b && oneIntegral
        /\ isConstraint e' = isConstraint a && isConstraint b
        /\ isFormula e' = isConstraint a && isConstraint b).
Proof.
  intros Hk Hcs accepted oneIntegral.
  destruct expr as [|k p v sy t cs0]; [discriminate|].
  simpl in Hk. subst k.
  unfold check.
  rewrite (checkExpression_step
             changesAnyVariable collectPossibleReads
             compileTimeComputableValues checkType
             fuel (expression_data OR p v sy t cs0) s s1 _ eq_refl Hcs).
  switch.
  match goal with
  | |- context [Ty.unknown ?ty] => set (type := ty)
  end.
  assert (Ty.unknown type = negb accepted
          /\ (accepted = true ->
              Ty.isIntegral type = isIntegral a && isIntegral b
              /\ Ty.isInvariant type
                 = isInvariant a && isInvariant b && oneIntegral
              /\ Ty.isInvariant type || Ty.is_ type INVARIANT_WR
                 = isInvariantWR a && isInvariantWR b && oneIntegral
              /\ Ty.isGuard type = isGuard a && isGuard b && oneIntegral
              /\ Ty.isConstraint type = isConstraint a && isConstraint b
              /\ Ty.isFormula type = isConstraint a && isConstraint b))
    as [Hu Hc].
  { subst type accepted oneIntegral. unfold_categories.
    category_cases (Expr.getType a); category_cases (Expr.getType b);
      simpl; (split; [reflexivity|]); intros; try discriminate;
      repeat split; reflexivity. }
  rewrite Hu.
  destruct accepted eqn:Hf; cbn [negb];
    eexists _, _; (split; [reflexivity|]); (split; [reflexivity|]);
    [|discriminate].
  intros _. split; [reflexivity|]. apply Hc. reflexivity.
Qed.

(** X17: [x != y] for two clocks is typed bool, not constraint: the test
    for types compatible for equality comes first and holds for two
    clocks.  A clock compared with an integer by [!=] is a constraint. *)
Theorem clock_inequality (fuel : nat) (expr a b : expression_t)
        (cs : list expression_t) (s s1 : system_t) :
  Expr.getKind expr = NEQ ->
  checkSubExpressions (check fuel) (Expr.sub expr) s
  = Some (true, a :: b :: cs, s1) ->
  isClock a = true ->
  let typed k :=
    check (S fuel) expr s
    = Some (true,
            Expr.setType (Expr.setSub expr (a :: b :: cs)) (primitive k),
            s1) in
  (isClock b = true -> typed BOOL)
  /\ (isInteger b = true -> typed CONSTRAINT).
Proof.
  intros Hk Hcs Ha typed.
  destruct expr as [|k p v sy t cs0]; [discriminate|].
  simpl in Hk. subst k. unfold typed, check.
  rewrite (checkExpression_step
             changesAnyVariable collectPossibleReads
             compileTimeComputableValues checkType
             fuel (expression_data NEQ p v sy t cs0) s s1 _ eq_refl Hcs).
  switch. split; intros Hb.
  - unfold areEqCompatible.
    rewrite (areEquivalent_clocks _ _ Ha Hb).
    destruct (Ty.isIntegral _ && Ty.isIntegral _); [reflexivity|].
    destruct (Ty.is_ _ PROCESSVAR && Ty.is_ _ PROCESSVAR); reflexivity.
  - assert (Ty.isIntegral (Expr.getType b) = true) as Hb'
      by (unfold Ty.isIntegral; unfold isInteger in Hb; now rewrite Hb).
    destruct (areEquivalent_clock_integral _ _ Ha Hb') as [He _].
    unfold areEqCompatible. rewrite He.
    unfold isClock, Ty.isClock in Ha.
    replace (Ty.isIntegral (Expr.getType a)) with false
      by (symmetry; now only_kind Ha).
    replace (Ty.is_ (Expr.getType a) PROCESSVAR) with false
      by (symmetry; now other_kind Ha).
    unfold isClock, isInteger, Ty.isClock, Ty.isInteger in *.
    other_kind Hb. rewrite Ha, Hb. reflexivity.
Qed.

(** X18: an array subscript whose index has the wrong type is reported, but
    the subscript is rejected only when the array is indexed by a scalar
    set and the index is a scalar of another set; in the other cases the
    expression is accepted with the type of the elements. *)
Theorem subscript_index (fuel : nat) (expr a b : expression_t)
        (cs : list expression_t) (s s1 : system_t) :
  Expr.getKind expr = ARRAY ->
  checkSubExpressions (check fuel) (Expr.sub expr) s
  = Some (true, a :: b :: cs, s1) ->
  Ty.isArray (Expr.getType a) = true ->
  let size := Ty.getArraySize (Expr.getType a) in
  let element := Ty.getSub (Expr.getType a) in
  let index := Expr.getType b in
  let expr' := Expr.setSub expr (a :: b :: cs) in
  Ty.isInteger size && Ty.isIntegral index = false ->
  (Ty.isScalar size && Ty.isScalar index = true ->
   isSameScalarType size index = false ->
   check (S fuel) expr s
   = Some (false, expr', handleError b "$Incompatible_type" s1))
  /\ (Ty.isScalar size && Ty.isScalar index = false ->
      Ty.unknown element = false ->
      check (S fuel) expr s
      = Some (true, Expr.setType expr' element,
              handleError b "$Incompatible_type" s1)).
Proof.
  intros Hk Hcs Harr size element index expr' Hint.
  destruct expr as [|k p v sy t cs0]; [discriminate|].
  simpl in Hk. subst k. unfold check.
  rewrite (checkExpression_step
             changesAnyVariable collectPossibleReads
             compileTimeComputableValues checkType
             fuel (expression_data ARRAY p v sy t cs0) s s1 _ eq_refl Hcs).
  switch. fold size element index. rewrite Harr, Hint. cbn [negb].
  split.
  - intros -> ->. reflexivity.
  - intros -> ->. reflexivity.
Qed.

(** X19: equality of scalars depends on the order of the operands when one
    of them is a reference.  For a scalar set [S], comparing a reference
    to [S] with an [S] by [==] or [!=] is accepted with type bool, and
    comparing the [S] with the reference is a type error. *)
Theorem equality_of_reference_scalars (fuel : nat)
        (expr a b : expression_t) (s s1 : system_t) (S : type_t) :
  Expr.getKind expr = EQ \/ Expr.getKind expr = NEQ ->
  checkSubExpressions (check fuel) (Expr.sub expr) s
  = Some (true, [a; b], s1) ->
  scalarSet S -> strippedLeft S = false ->
  let expr' := Expr.setSub expr [a; b] in
  (Expr.getType a = Ty.createPrefix REF S -> Expr.getType b = S ->
   check (Datatypes.S fuel) expr s
   = Some (true, Expr.setType expr' (primitive BOOL), s1))
  /\ (Expr.getType a = S -> Expr.getType b = Ty.createPrefix REF S ->
      check (Datatypes.S fuel) expr s
      = Some (false, expr', handleError expr' "$Type_error" s1)).
Proof.
  intros Hk Hcs HS Hroot expr'.
  destruct expr as [|k p v sy t cs0]; [now destruct Hk|].
  simpl in Hk. unfold check.
  rewrite (checkExpression_step
             changesAnyVariable collectPossibleReads
             compileTimeComputableValues checkType
             fuel (expression_data k p v sy t cs0) s s1 _ eq_refl Hcs).
  pose proof (scalarSet_isScalar S HS) as Hscalar.
  assert (Ty.isScalar (Ty.createPrefix REF S) = true) as Href
    by (unfold Ty.isScalar in *; simpl; exact Hscalar).
  destruct (isSameScalarType_reference S HS Hroot) as [Hyes Hno].
  assert (forall x y,
             Ty.isScalar (Expr.getType x) = true ->
             Ty.isScalar (Expr.getType y) = true ->
             areEqCompatible (Expr.getType x) (Expr.getType y)
             = isSameScalarType (Expr.getType x) (Expr.getType y)
             /\ isClock x = false /\ isInteger x = false
             /\ isDiff x = false /\ isIntegral x = false
             /\ isDoubleValue x = false /\ isNumber x = false
             /\ Ty.is_ (Expr.getType x) RATE = false) as Hfacts.
  { intros x y Hx Hy. unfold areEqCompatible.
    rewrite (areEquivalent_scalars _ _ Hx Hy).
    unfold isNumber, isDoubleValue, isClock, isInteger, isDiff, isIntegral,
      isDouble.
    unfold Ty.isScalar in Hx. only_kind Hx. simpl. repeat split. }
  split; intros Hta Htb.
  - destruct (Hfacts a b) as (He & Hc & Hi & Hd & _);
      [now rewrite Hta | now rewrite Htb |].
    replace (isSameScalarType _ _) with true in He
      by (now rewrite Hta, Htb).
    destruct Hk as [-> | ->]; switch; rewrite ?He, ?Hc, ?Hi, ?Hd; simpl;
      reflexivity.
  - destruct (Hfacts a b) as (He & Hc & Hi & Hd & Hin & Hdv & Hn & Hr);
      [now rewrite Hta | now rewrite Htb |].
    destruct (Hfacts b a) as (_ & Hc' & Hi' & Hd' & Hin' & Hdv' & Hn' & Hr');
      [now rewrite Htb | now rewrite Hta |].
    replace (isSameScalarType _ _) with false in He
      by (now rewrite Hta, Htb).
    destruct Hk as [-> | ->]; switch;
      rewrite ?He, ?Hc, ?Hi, ?Hd, ?Hin, ?Hdv, ?Hn, ?Hr,
        ?Hc', ?Hi', ?Hd', ?Hin', ?Hdv', ?Hn', ?Hr'; simpl;
      reflexivity.
Qed.

End TypingRules.

Section Commutativity.

Variable changesAnyVariable : expression_t -> bool.
Variable collectPossibleReads : expression_t -> list symbol_t.
Variable compileTimeComputableValues : symbol_t -> bool.
Variable checkType : type_t -> system_t -> system_t.

Let check :=
  checkExpression changesAnyVariable collectPossibleReads
                  compileTimeComputableValues checkType.

(** The type computed by the switch for a commutative operator. *)
Lemma checkKind_commutative
      (rec : expression_t -> system_t -> checkResult)
      (k : kind_t) p v sy t (a b : expression_t) (s1 s2 : system_t) :
  commutative k = true ->
  exists type,
    checkKind changesAnyVariable collectPossibleReads
              compileTimeComputableValues checkType rec
              (expression_data k p v sy t [a; b]) s1
    = Some (Break type, expression_data k p v sy t [a; b], s1)
    /\ checkKind changesAnyVariable collectPossibleReads
                 compileTimeComputableValues checkType rec
                 (expression_data k p v sy t [b; a]) s2
       = Some (Break type, expression_data k p v sy t [b; a], s2).
Proof.
  intros Hk.
  destruct k; try discriminate Hk; switch; eexists; split;
    try reflexivity; f_equal; f_equal; f_equal;
    repeat match goal with
           | |- context [?f a] =>
               match type of (f a) with bool => destruct (f a) end
           | |- context [?f b] =>
               match type of (f b) with bool => destruct (f b) end
           end; reflexivity.
Qed.

(** X20: the type of a commutative operator does not depend on the order of
    its operands.  For [+], [*], [min], [max], [&&], [||], xor and the
    bitwise and, or and xor, the expression with the operands exchanged
    is accepted if and only if the expression is, and with the same
    type. *)
Theorem commutative_operands (fuel : nat) (k : kind_t) (p : position_t)
        (v : Z) (sy : symbol_t) (t : type_t) (a b : expression_t)
        (s : system_t) :
  commutative k = true ->
  wellFormedCalls a = true -> wellFormedCalls b = true ->
  (expression_height a < fuel)%nat -> (expression_height b < fuel)%nat ->
  exists ok e1 e2 s1 s2,
    check (S fuel) (expression_data k p v sy t [a; b]) s = Some (ok, e1, s1)
    /\ check (S fuel) (expression_data k p v sy t [b; a]) s
       = Some (ok, e2, s2)
    /\ Expr.getType e1 = Expr.getType e2.
Proof.
  intros Hk Hwa Hwb Hha Hhb. unfold check. cbn [checkExpression Expr.empty
    Expr.sub checkSubExpressions].
  pose proof (fun s => checkExpression_returns
                changesAnyVariable collectPossibleReads
                compileTimeComputableValues checkType fuel a s Hwa Hha)
    as Ra.
  pose proof (fun s => checkExpression_returns
                changesAnyVariable collectPossibleReads
                compileTimeComputableValues checkType fuel b s Hwb Hhb)
    as Rb.
  pose proof (checkExpression_frame_rec
                changesAnyVariable collectPossibleReads
                compileTimeComputableValues checkType fuel) as Hframe.
  destruct (Ra s) as [[[oka a'] sa] Ea]. rewrite Ea.
  destruct (Rb sa) as [[[okb b'] sab] Eb]. rewrite Eb.
  destruct (Rb s) as [[[okb2 b2] sb] Eb2]. rewrite Eb2.
  destruct (Ra sb) as [[[oka2 a2] sba] Ea2]. rewrite Ea2.
  pose proof (Hframe a s sb) as Fa. rewrite Ea, Ea2 in Fa.
  injection Fa as <- <-.
  pose proof (Hframe b sa s) as Fb. rewrite Eb, Eb2 in Fb.
  injection Fb as <- <-.
  rewrite !andb_true_r, (andb_comm okb oka).
  destruct (oka && okb); cbn [negb Expr.setSub].
  2:{ eexists _, _, _, _, _. split; [reflexivity|].
      split; reflexivity. }
  destruct (checkKind_commutative
              (checkExpression changesAnyVariable collectPossibleReads
                               compileTimeComputableValues checkType fuel)
              k p v sy t a' b' sab sba Hk) as (type & -> & ->).
  destruct (Ty.unknown type); eexists _, _, _, _, _;
    (split; [reflexivity|]); split; reflexivity.
Qed.

End Commutativity.

(** ** Access paths *)

Section AccessPaths.

Variable collectPossibleReads : expression_t -> list symbol_t.
Variable compileTimeComputableValues : symbol_t -> bool.

(** X21: on an access path, a variable followed by field selections and
    subscripts, the three l-value analyses agree with the declaration.
    The path is an l-value; it is modifiable exactly when the variable
    is not constant; and it refers to a unique variable exactly when
    every subscript is computable at compile time. *)
Theorem access_paths (e : expression_t) :
  accessPath e = true ->
  isLValue e = true
  /\ isModifiableLValue e = Ty.isNonConstant (Expr.getType (root e))
  /\ isUniqueReference collectPossibleReads compileTimeComputableValues e
     = forallb (isCompileTimeComputable collectPossibleReads
                                        compileTimeComputableValues)
               (subscripts e).
Proof.
  induction e as [|k p v sy t cs IH] using expression_rect';
    [discriminate|].
  destruct k; try discriminate.
  - (* ARRAY *)
    destruct cs as [|e0 rest]; [discriminate|].
    inversion IH as [|? ? IH0 _]; subst.
    cbn [accessPath isLValue isModifiableLValue isUniqueReference root
         subscripts].
    intros H. destruct (IH0 H) as (Hl & Hm & Hu).
    rewrite Hl, Hm, Hu, forallb_app. simpl. rewrite andb_true_r.
    repeat split.
  - (* DOT *)
    destruct cs as [|e0 rest]; [discriminate|].
    inversion IH as [|? ? IH0 _]; subst.
    cbn [accessPath isLValue isModifiableLValue isUniqueReference root
         subscripts].
    intros H. apply andb_true_iff in H. destruct H as [Hp H].
    apply negb_true_iff in Hp. rewrite Hp.
    destruct (IH0 H) as (Hl & Hm & Hu). now rewrite Hl, Hm, Hu.
  - (* IDENTIFIER *)
    intros _. repeat split.
Qed.

End AccessPaths.

(** ** States without rates *)

Section PureInvariants.

Variable changesAnyVariable : expression_t -> bool.
Variable collectPossibleReads : expression_t -> list symbol_t.
Variable compileTimeComputableValues : symbol_t -> bool.
Variable checkType : type_t -> system_t -> system_t.
Variable toString : type_t -> string.

Let check :=
  checkExpression changesAnyVariable collectPossibleReads
                  compileTimeComputableValues checkType.


End PureInvariants.

(** ** Initialisers of arrays *)

Lemma areEquivalent_array_record (a b : type_t) :
  Ty.isArray a = true -> Ty.isRecord b = true -> areEquivalent a b = false.
Proof.
  intros Ha Hb.
  rewrite areEquivalent_unfold, areEquivalent_rec_S
    by (apply (is_not_null a ARRAY); [discriminate | exact Ha]).
  unfold Ty.isArray, Ty.isRecord in *. only_kind Ha. only_kind Hb.
  now rewrite Ha, Hb.
Qed.

Section ArrayInitialiser.

Variable rec : type_t -> expression_t -> system_t -> initResult.
Variable subtype : type_t.
Variable init : expression_t.

Lemma arrayInitialiser_entries (n : nat) :
  forall i result s result' s',
    arrayInitialiser rec subtype init n i result s = Some (result', s') ->
    (i + n <= length result)%nat ->
    length result' = length result
    /\ (forall j, (j < i)%nat -> result' !! j = result !! j)
    /\ (forall j, (i <= j < i + n)%nat ->
                  exists sa sb r,
                    rec subtype init.[j] sa = Some (r, sb)
                    /\ result' !! j = Some r).
Proof.
  induction n as [|n IH]; intros i result s result' s'; simpl.
  - intros [= <- <-] _. repeat split; intros; lia.
  - match goal with
    | |- context [rec subtype init.[i] ?s1] =>
        destruct (rec subtype init.[i] s1) as [[r s2]|] eqn:Hrec;
        [|discriminate]
    end.
    intros H Hlen. apply IH in H; [|rewrite length_insert; lia].
    rewrite length_insert in H. destruct H as (Hl & Hbefore & Hafter).
    split; [exact Hl|]. split.
    + intros j Hj. rewrite Hbefore by lia.
      apply list_lookup_insert_ne. lia.
    + intros j Hj. destruct (decide (j = i)) as [->|Hne].
      * eexists _, _, r. split; [exact Hrec|].
        rewrite Hbefore by lia. apply list_lookup_insert_eq. lia.
      * apply Hafter. lia.
Qed.

Lemma arrayInitialiser_compatible (n : nat) :
  forall i result s,
    (forall j, (i <= j < i + n)%nat ->
               Ty.getLabel (Expr.getType init) j = ""
               /\ forall s, rec subtype init.[j] s = Some (init.[j], s)) ->
    (i + n <= length result)%nat ->
    exists result',
      arrayInitialiser rec subtype init n i result s = Some (result', s)
      /\ length result' = length result
      /\ (forall j, (j < i)%nat -> result' !! j = result !! j)
      /\ (forall j, (i <= j < i + n)%nat -> result' !! j = Some init.[j]).
Proof.
  induction n as [|n IH]; intros i result s Hall Hlen; simpl.
  - exists result. repeat split; intros; lia.
  - destruct (Hall i ltac:(lia)) as [-> Hrec]. simpl. rewrite Hrec.
    destruct (IH (S i) (<[i := init.[i]]> result) s) as
      (result' & -> & Hl & Hbefore & Hafter).
    { intros j Hj. apply Hall. lia. }
    { rewrite length_insert. lia. }
    rewrite length_insert in Hl.
    exists result'. split; [reflexivity|]. split; [exact Hl|]. split.
    + intros j Hj. rewrite Hbefore by lia.
      apply list_lookup_insert_ne. lia.
    + intros j Hj. destruct (decide (j = i)) as [->|Hne].
      * rewrite Hbefore by lia. apply list_lookup_insert_eq. lia.
      * apply Hafter. lia.
Qed.

End ArrayInitialiser.

(** X23: an array is initialised element by element.  For an array type and
    a list initialiser the result is a LIST of the type of the array with
    one child per entry, the i-th child being the checked initialiser of
    the i-th entry for the type of the elements; when the entries have no
    field names and are compatible with the type of the elements, nothing
    is reported and the entries are kept.  The number of entries is not
    compared with the size of the array. *)
Theorem checkInitialiser_array (fuel : nat) (type : type_t)
        (init : expression_t) (s : system_t) :
  Ty.isArray type = true ->
  listInitialiser init ->
  (expression_height init < fuel)%nat ->
  exists r s',
    checkInitialiser fuel type init s = Some (r, s')
    /\ Expr.getKind r = LIST /\ Expr.getType r = type
    /\ Expr.getSize r = Expr.getSize init
    /\ (forall i, (i < Expr.getSize init)%nat ->
                  exists fuel' sa sb,
                    checkInitialiser fuel' (Ty.getSub type) init.[i] sa
                    = Some (r.[i], sb))
    /\ ((forall i, (i < Expr.getSize init)%nat ->
                   Ty.getLabel (Expr.getType init) i = ""
                   /\ areAssignmentCompatible
                        (Ty.getSub type) (Expr.getType init.[i]) true
                      = true) ->
        Expr.sub r = Expr.sub init /\ s' = s).
Proof.
  intros Harr (Hkind & fields & Hty & Hmap) Hfuel.
  destruct fuel as [|fuel]; [lia|].
  assert (0 < expression_height init)%nat as Hpos
    by (destruct init; [discriminate | simpl; lia]).
  assert (Ty.size (Expr.getType init) = Expr.getSize init) as Hsize.
  { rewrite Hty. unfold Ty.size, Expr.getSize. simpl.
    rewrite <- (length_map snd fields), Hmap. apply length_map. }
  assert (areAssignmentCompatible type (Expr.getType init) true = false)
    as Hcompat.
  { unfold areAssignmentCompatible.
    rewrite (areEquivalent_array_record type (Expr.getType init) Harr)
      by (now rewrite Hty).
    unfold Ty.isArray in Harr. only_kind Harr. reflexivity. }
  cbn [checkInitialiser]. rewrite Hcompat, Harr, Hkind, Hsize.
  change (LIST =k LIST) with true. cbn [andb].
  destruct (arrayInitialiser (checkInitialiser fuel) (Ty.getSub type) init
              (Expr.getSize init) 0
              (replicate (Expr.getSize init) expression_null) s)
    as [[result s1]|] eqn:Hloop.
  2:{ exfalso.
      destruct (arrayInitialiser_returns
                  (checkInitialiser fuel) (Ty.getSub type) init)
        with (n := Expr.getSize init) (i := O)
             (result := replicate (Expr.getSize init) expression_null)
             (s := s) as (r' & s' & Hr').
      - intros t i s0. apply checkInitialiser_returns.
        pose proof (height_sub init i). lia.
      - congruence. }
  exists (Expr.createNary LIST result (Expr.getPosition init) type), s1.
  split; [reflexivity|].
  pose proof (arrayInitialiser_entries
                (checkInitialiser fuel) (Ty.getSub type) init
                _ _ _ _ _ _ Hloop) as Hentries.
  rewrite length_replicate in Hentries.
  destruct (Hentries ltac:(lia)) as (Hlen & _ & Heach).
  repeat split.
  - exact Hlen.
  - intros i Hi. destruct (Heach i ltac:(lia)) as (sa & sb & r & Hr & Hres).
    exists fuel, sa, sb. unfold Expr.get at 2. simpl. now rewrite Hres.
  - destruct (arrayInitialiser_compatible
                (checkInitialiser fuel) (Ty.getSub type) init
                (Expr.getSize init) O
                (replicate (Expr.getSize init) expression_null) s)
      as (result' & Hloop' & Hlen' & _ & Hsame).
    + intros j Hj. destruct (H j ltac:(lia)) as [Hlabel Hc].
      split; [exact Hlabel|]. intros s0.
      destruct fuel as [|fuel']; [lia|].
      cbn [checkInitialiser]. now rewrite Hc.
    + rewrite length_replicate. lia.
    + rewrite Hloop' in Hloop. injection Hloop as <- <-.
      simpl. apply list_eq. intros j.
      rewrite length_replicate in Hlen'.
      destruct (decide (j < Expr.getSize init)%nat) as [Hj|Hj].
      * rewrite Hsame by lia. unfold Expr.get, Expr.getSize in *.
        destruct (Expr.sub init !! j) eqn:E; [reflexivity|].
        apply lookup_ge_None in E. lia.
      * rewrite !lookup_ge_None_2; [reflexivity | | ];
          unfold Expr.getSize in *; lia.
  - destruct (arrayInitialiser_compatible
                (checkInitialiser fuel) (Ty.getSub type) init
                (Expr.getSize init) O
                (replicate (Expr.getSize init) expression_null) s)
      as (result' & Hloop' & _).
    + intros j Hj. destruct (H j ltac:(lia)) as [Hlabel Hc].
      split; [exact Hlabel|]. intros s0.
      destruct fuel as [|fuel']; [lia|].
      cbn [checkInitialiser]. now rewrite Hc.
    + rewrite length_replicate. lia.
    + rewrite Hloop' in Hloop. now injection Hloop as _ <-.
Qed.

(** ** Assignment expressions *)

Section AssignmentExpressionProperties.

Variable changesAnyVariable : expression_t -> bool.
Variable collectPossibleReads : expression_t -> list symbol_t.
Variable compileTimeComputableValues : symbol_t -> bool.
Variable checkType : type_t -> system_t -> system_t.

Hypothesis checkType_appended : forall t s, appended s (checkType t s).

(** X24: [checkAssignmentExpression] returns false only after reporting an
    error, and an expression it accepts has an assignable type or the
    type void; the errors reported before are left as they are. *)
Theorem checkAssignmentExpression_reports (fuel : nat)
        (expr : expression_t) (s : system_t) :
  wellFormedCalls expr = true ->
  (expression_height expr < fuel)%nat ->
  exists ok e' s' more,
    checkAssignmentExpression changesAnyVariable collectPossibleReads
                              compileTimeComputableValues checkType
                              fuel expr s
    = Some (ok, e', s')
    /\ errors s' = errors s ++ more
    /\ (ok = false -> more <> [])
    /\ (ok = true ->
        isAssignable (Expr.getType e') || isVoid e' = true).
Proof.
  intros Hcalls Hfuel.
  destruct (checkExpression_returns
              changesAnyVariable collectPossibleReads
              compileTimeComputableValues checkType fuel expr s
              Hcalls Hfuel) as [[[ok e'] s1] Hr].
  destruct (checkExpression_reports_rec
              changesAnyVariable collectPossibleReads
              compileTimeComputableValues checkType checkType_appended
              fuel _ _ _ _ _ Hr) as [[more Hmore] Hgrown].
  assert (Hne : ok = false -> more <> []).
  { intros Hok. destruct (Hgrown Hok) as (more' & Hne & Hmore').
    rewrite Hmore in Hmore'. apply app_inv_head in Hmore'. now subst. }
  unfold checkAssignmentExpression. rewrite Hr.
  destruct ok; cbn [negb].
  2:{ exists false, e', s1, more. repeat split; auto. discriminate. }
  destruct (isAssignable (Expr.getType e')) eqn:Ha; cbn [negb andb orb].
  2:destruct (isVoid e') eqn:Hv; cbn [negb andb orb].
  3:{ eexists false, e', _, (more ++ [_]). split; [reflexivity|].
      split; [now rewrite errors_handleError, Hmore, app_assoc|].
      split; [intros _; now destruct more | discriminate]. }
  all: destruct (_ || _);
    eexists true, e', _, more; (split; [reflexivity|]);
    rewrite ?checkIgnoredValue_errors;
    (split; [exact Hmore|]); (split; [discriminate|]); intros _;
    rewrite ?Ha, ?Hv; reflexivity.
Qed.

End AssignmentExpressionProperties.

(** ** Targets of assignments *)

Section AssignmentTargets.

Variable changesAnyVariable : expression_t -> bool.
Variable collectPossibleReads : expression_t -> list symbol_t.
Variable compileTimeComputableValues : symbol_t -> bool.
Variable checkType : type_t -> system_t -> system_t.

Let check :=
  checkExpression changesAnyVariable collectPossibleReads
                  compileTimeComputableValues checkType.

(** The switch is left without an error at an assignment only when the
    target is a modifiable l-value. *)
Lemma checkKind_target (rec : expression_t -> system_t -> checkResult)
      (E e1 : expression_t) (s1 s2 : system_t) (o : outcome) :
  checkKind changesAnyVariable collectPossibleReads
            compileTimeComputableValues checkType rec E s1
  = Some (o, e1, s2) ->
  o <> Return false ->
  assigns (Expr.getKind E) = true ->
  isModifiableLValue E.[0] = true.
Proof.
  unfold checkKind.
  destruct (Expr.getKind E); intros H Ho Hk; try discriminate Hk;
    destruct (isModifiableLValue E.[0]); try reflexivity;
    exfalso; apply Ho; revert H; cbn [negb];
    repeat match goal with
           | |- context [if ?c then _ else _] => destruct c
           end;
    now intros [= <- _ _].
Qed.

Lemma checkExpression_targets_rec (fuel : nat) :
  forall expr s e' s',
    check fuel expr s = Some (true, e', s') -> targetsModifiable e' = true.
Proof.
  unfold check.
  induction fuel as [|fuel IH]; intros expr s e' s' H;
    cbn [checkExpression] in H.
  - destruct expr; [|discriminate]. now injection H as <- <-.
  - destruct expr as [|k p v sy t cs0]; [now injection H as <- <-|].
    cbn [Expr.empty Expr.sub] in H.
    destruct (checkSubExpressions _ cs0 s) as [[[oks cs] s1]|] eqn:Es;
      [|discriminate].
    destruct oks; cbn [negb] in H; [|discriminate].
    pose proof (checkSubExpressions_Forall
                  _ _ _ _ _ _
                  (checkExpression_stable_rec
                     changesAnyVariable collectPossibleReads
                     compileTimeComputableValues checkType fuel) Es)
      as Hstable.
    apply (checkSubExpressions_Forall
             (fun c => targetsModifiable c = true)) in Es; [|exact IH].
    assert (forallb targetsModifiable cs = true) as Hcs
      by (apply forallb_forall; intros c Hc;
          now apply (proj1 (Forall_forall _ _) Es), list_elem_of_In).
    cbn [Expr.setSub] in H.
    set (E := expression_data k p v sy t cs) in *.
    destruct (checkKind _ _ _ _ _ E s1) as [[[o e1] s2]|] eqn:Ek;
      [|discriminate].
    assert (e1 = E) as ->
        by (apply (checkKind_same
                     changesAnyVariable collectPossibleReads
                     compileTimeComputableValues checkType
                     _ E _ _ _ _ Hstable Ek)).
    assert (o <> Return false) as Ho.
    { destruct o as [type|[|]]; discriminate. }
    pose proof (checkKind_target _ E _ _ _ _ Ek Ho) as Ht.
    assert (targetsModifiable E = true) as HE.
    { cbn [targetsModifiable E]. rewrite Hcs, andb_true_r.
      destruct (assigns k) eqn:Hk; [|reflexivity]. now apply Ht. }
    destruct o as [type|ok].
    + destruct (Ty.unknown type); [discriminate|].
      injection H as <- <-. exact HE.
    + injection H as _ <- <-. exact HE.
Qed.

(** X25: [checkExpression] accepts no assignment to something that cannot
    be assigned.  In an expression it accepts, at any depth, the target
    of [=], of the compound assignments other than [+=] and of the
    increments and decrements is a modifiable l-value. *)
Theorem accepted_assignment_targets (fuel : nat) (expr : expression_t)
        (s : system_t) :
  wellFormedCalls expr = true ->
  (expression_height expr < fuel)%nat ->
  exists ok e' s',
    checkExpression changesAnyVariable collectPossibleReads
                    compileTimeComputableValues checkType fuel expr s
    = Some (ok, e', s')
    /\ (ok = true -> targetsModifiable e' = true).
Proof.
  intros Hcalls Hfuel.
  destruct (checkExpression_returns
              changesAnyVariable collectPossibleReads
              compileTimeComputableValues checkType fuel expr s
              Hcalls Hfuel) as [[[ok e'] s'] Hr].
  exists ok, e', s'. split; [exact Hr|]. intros ->.
  exact (checkExpression_targets_rec fuel _ _ _ _ Hr).
Qed.

End AssignmentTargets.

(** ** Further typing rules *)

Lemma inlineIf_compatible (t1 t2 : type_t) :
  areInlineIfCompatible t1 t2 = true ->
  areEqCompatible t1 t2 = true
  /\ forall init, areAssignmentCompatible t1 t2 init = true.
Proof.
  unfold areInlineIfCompatible, areEqCompatible, areAssignmentCompatible.
  destruct (Ty.isIntegral t1 && Ty.isIntegral t2) eqn:Hi.
  - intros _. split; [reflexivity|]. intros init.
    now destruct (if init then _ else _).
  - intros ->. split.
    + now destruct (Ty.is_ t1 PROCESSVAR && Ty.is_ t2 PROCESSVAR).
    + intros init. now destruct (if init then _ else _).
Qed.

Section FurtherTypingRules.

Variable changesAnyVariable : expression_t -> bool.
Variable collectPossibleReads : expression_t -> list symbol_t.
Variable compileTimeComputableValues : symbol_t -> bool.
Variable checkType : type_t -> system_t -> system_t.

Let check :=
  checkExpression changesAnyVariable collectPossibleReads
                  compileTimeComputableValues checkType.

(** X26: an inline-if has the type of its second operand.  [c ? a : b] is
    accepted exactly when [c] is integral and the types of [a] and [b]
    are compatible; its type is then the type of [a], range and prefixes
    included, whatever the type of [b], and [a] and [b] can be compared
    by [==] and assigned to one another. *)
Theorem inline_if_type (fuel : nat) (expr c a b : expression_t)
        (cs : list expression_t) (s s1 : system_t) :
  Expr.getKind expr = INLINEIF ->
  checkSubExpressions (check fuel) (Expr.sub expr) s
  = Some (true, c :: a :: b :: cs, s1) ->
  let ta := Expr.getType a in
  let tb := Expr.getType b in
  let accepted :=
    isIntegral c && areInlineIfCompatible ta tb && negb (Ty.unknown ta) in
  exists e' s',
    check (S fuel) expr s = Some (accepted, e', s')
    /\ Expr.sub e' = c :: a :: b :: cs
    /\ (accepted = true ->
        s' = s1 /\ Expr.getType e' = ta
        /\ areEqCompatible ta tb = true
        /\ areAssignmentCompatible ta tb false = true
        /\ areAssignmentCompatible ta tb true = true).
Proof.
  intros Hk Hcs ta tb accepted.
  destruct expr as [|k p v sy t cs0]; [discriminate|].
  simpl in Hk. subst k. unfold check.
  rewrite (checkExpression_step
             changesAnyVariable collectPossibleReads
             compileTimeComputableValues checkType
             fuel (expression_data INLINEIF p v sy t cs0) s s1 _
             eq_refl Hcs).
  switch. fold ta tb. subst accepted.
  destruct (isIntegral c); cbn [negb andb];
    [|eexists _, _; repeat split; try reflexivity; discriminate].
  destruct (areInlineIfCompatible ta tb) eqn:Hc; cbn [negb andb];
    [|eexists _, _; repeat split; try reflexivity; discriminate].
  destruct (Ty.unknown ta); cbn [negb];
    [eexists _, _; repeat split; try reflexivity; discriminate|].
  destruct (inlineIf_compatible _ _ Hc) as [Heq Has].
  eexists _, _. repeat split; try reflexivity; auto.
Qed.

(** X27: the negation of a clock constraint is a constraint.  [!a] is
    accepted exactly when [a] is a constraint; it is integral when [a]
    is, and otherwise it is a constraint that is neither an invariant nor
    a guard, even when [a] is one. *)
Theorem negation_categories (fuel : nat) (expr a : expression_t)
        (cs : list expression_t) (s s1 : system_t) :
  Expr.getKind expr = NOT ->
  checkSubExpressions (check fuel) (Expr.sub expr) s
  = Some (true, a :: cs, s1) ->
  exists e' s',
    check (S fuel) expr s = Some (isConstraint a, e', s')
    /\ Expr.sub e' = a :: cs
    /\ (isConstraint a = true ->
        s' = s1
        /\ isIntegral e' = isIntegral a
        /\ isInvariant e' = isIntegral a
        /\ isInvariantWR e' = isIntegral a
        /\ isGuard e' = isIntegral a
        /\ isConstraint e' = true).
Proof.
  intros Hk Hcs.
  destruct expr as [|k p v sy t cs0]; [discriminate|].
  simpl in Hk. subst k. unfold check.
  rewrite (checkExpression_step
             changesAnyVariable collectPossibleReads
             compileTimeComputableValues checkType
             fuel (expression_data NOT p v sy t cs0) s s1 _
             eq_refl Hcs).
  switch.
  match goal with
  | |- context [Ty.unknown ?ty] => set (type := ty)
  end.
  assert (Ty.unknown type = negb (isConstraint a)
          /\ (isConstraint a = true ->
              Ty.isIntegral type = isIntegral a
              /\ Ty.isInvariant type = isIntegral a
              /\ Ty.isInvariant type || Ty.is_ type INVARIANT_WR
                 = isIntegral a
              /\ Ty.isGuard type = isIntegral a
              /\ Ty.isConstraint type = true))
    as [Hu Hc].
  { subst type. unfold_categories.
    category_cases (Expr.getType a);
      simpl; (split; [reflexivity|]); intros; try discriminate;
      repeat split; reflexivity. }
  rewrite Hu.
  destruct (isConstraint a) eqn:Hf; cbn [negb];
    eexists _, _; (split; [reflexivity|]); (split; [reflexivity|]);
    [|discriminate].
  intros _. split; [reflexivity|]. apply Hc. reflexivity.
Qed.

(** X28: a universal quantifier keeps the category of its body and an
    existential one does not.  [forall (v : t) b] is accepted when [b] is
    an invariant with rates or a constraint and is then integral, an
    invariant, an invariant with rates, a guard or a constraint exactly
    when [b] is; [exists (v : t) b] is accepted when [b] is a constraint
    and is then, unless integral, a constraint that is no invariant and
    no guard.  A body with side effects is reported, and the quantified
    expression is accepted all the same. *)
Theorem quantifier_categories (fuel : nat) (expr v b : expression_t)
        (cs : list expression_t) (s s1 : system_t) :
  Expr.getKind expr = FORALL \/ Expr.getKind expr = EXISTS ->
  checkSubExpressions (check fuel) (Expr.sub expr) s
  = Some (true, v :: b :: cs, s1) ->
  let universal := Expr.getKind expr =k FORALL in
  let accepted :=
    if universal then isInvariantWR b || isConstraint b
    else isConstraint b in
  let s2 :=
    checkType (match Expr.getSymbol v with
               | symbol_null => type_null
               | symbol_data _ t => t
               end) s1 in
  exists e' s',
    check (S fuel) expr s = Some (accepted, e', s')
    /\ Expr.sub e' = v :: b :: cs
    /\ (accepted = true ->
        s' = (if changesAnyVariable b
              then handleError b "$Expression_must_be_side-effect_free" s2
              else s2)
        /\ isIntegral e' = isIntegral b
        /\ isInvariant e' = (if universal then isInvariant b
                             else isIntegral b)
        /\ isInvariantWR e' = (if universal then isInvariantWR b
                               else isIntegral b)
        /\ isGuard e' = (if universal then isGuard b else isIntegral b)
        /\ isConstraint e' = isConstraint b).
Proof.
  intros Hk Hcs universal accepted s2.
  destruct expr as [|k p v0 sy t cs0]; [now destruct Hk|].
  simpl in Hk. unfold check.
  rewrite (checkExpression_step
             changesAnyVariable collectPossibleReads
             compileTimeComputableValues checkType
             fuel (expression_data k p v0 sy t cs0) s s1 _
             eq_refl Hcs).
  subst universal accepted. cbn [Expr.getKind].
  destruct Hk as [-> | ->]; switch; fold s2;
    change (FORALL =k FORALL) with true;
    change (EXISTS =k FORALL) with false; cbv iota;
    set (s3 := if changesAnyVariable b then _ else s2);
    unfold_categories;
    category_cases (Expr.getType b); simpl;
    eexists _, _; (split; [reflexivity|]); (split; [reflexivity|]);
    intros; try discriminate; repeat split; reflexivity.
Qed.

End FurtherTypingRules.

(** ** Invariants the decomposer does not handle *)

Section DisjunctionsWithRates.

Variable changesAnyVariable : expression_t -> bool.
Variable collectPossibleReads : expression_t -> list symbol_t.
Variable compileTimeComputableValues : symbol_t -> bool.
Variable checkType : type_t -> system_t -> system_t.
Variable toString : type_t -> string.

Let check :=
  checkExpression changesAnyVariable collectPossibleReads
                  compileTimeComputableValues checkType.

(** X29: a disjunction with a rate is accepted as an invariant and then
    fails an assertion.  For an integral [a] and an invariant with rates
    [b] that is no pure invariant, [checkExpression] accepts [a || b]
    with the type invariant with rates; [visitState] then hands it to
    [RateDecomposer::decompose], which handles conjunctions, rate
    equations and universal quantifiers only and fails its assertion
    [expr.getKind() == FORALL]. *)
Theorem visitState_disjunction_with_rates (fuel : nat) (state : state_t)
        (a b : expression_t) (cs : list expression_t) (s s1 : system_t) :
  Expr.getKind (invariant state) = OR ->
  checkSubExpressions (check fuel) (Expr.sub (invariant state)) s
  = Some (true, a :: b :: cs, s1) ->
  isIntegral a = true -> isInvariantWR b = true -> isInvariant b = false ->
  let inv :=
    Expr.setType (Expr.setSub (invariant state) (a :: b :: cs))
                 (primitive INVARIANT_WR) in
  changesAnyVariable inv = false ->
  check (S fuel) (invariant state) s = Some (true, inv, s1)
  /\ visitState changesAnyVariable collectPossibleReads
                compileTimeComputableValues checkType toString
                (S fuel) state s
     = None.
Proof.
  intros Hk Hcs Ha Hwr Hb inv Hpure.
  destruct state as [expr rate cost]. cbn [invariant] in *.
  destruct expr as [|k p v sy t cs0]; [discriminate|].
  simpl in Hk. subst k.
  assert (check (S fuel) (expression_data OR p v sy t cs0) s
          = Some (true, inv, s1)) as Hcheck.
  { unfold check.
    rewrite (checkExpression_step
               changesAnyVariable collectPossibleReads
               compileTimeComputableValues checkType
               fuel (expression_data OR p v sy t cs0) s s1 _ eq_refl Hcs).
    switch.
    assert (isIntegral b = false) as Hib.
    { unfold isInvariant, Ty.isInvariant, isIntegral in *.
      now apply orb_false_iff in Hb. }
    rewrite Ha, Hib, Hb, Hwr. cbn [andb]. rewrite andb_false_r.
    reflexivity. }
  split; [exact Hcheck|].
  unfold visitState, visitStateInvariant. cbn [invariant Expr.empty negb].
  unfold check in Hcheck. rewrite Hcheck.
  unfold visitInvariant. cbn [invariant].
  rewrite Hpure. subst inv. reflexivity.
Qed.

End DisjunctionsWithRates.

(** ** Examples *)

Lemma assignment_is_directional_witness :
  areAssignmentCompatible (primitive CLOCK) (primitive INT) false = true
  /\ areAssignmentCompatible (primitive INT) (primitive CLOCK) false = false
  /\ areAssignmentCompatible (primitive CLOCK) (primitive INT) true = false.
Proof.
  apply (assignment_is_directional (primitive CLOCK) (primitive INT));
    reflexivity.
Defined.

Lemma areEquivalent_not_transitive_witness :
  areEquivalent Samples.bit (primitive INT) = true
  /\ areEquivalent (primitive INT) Samples.trit = true
  /\ areEquivalent Samples.bit Samples.trit = false.
Proof.
  apply (areEquivalent_not_transitive
           Samples.bit (primitive INT) Samples.trit); reflexivity.
Defined.

Lemma isAssignable_types_witness :
  isAssignable Samples.ints = isAssignable (primitive INT).
Proof.
  apply (proj1 (proj2 (isAssignable_types Samples.ints))). reflexivity.
Defined.

Lemma validReturnType_sound_witness :
  isAssignable Scenario.point = true
  /\ Ty.isClock Scenario.point = false
  /\ Ty.isChannel Scenario.point = false
  /\ Ty.isArray Scenario.point = false /\ Ty.isVoid Scenario.point = false
  /\ Ty.isConstant Scenario.point = false
  /\ Ty.is_ Scenario.point REF = false.
Proof. apply (validReturnType_sound Scenario.point). reflexivity. Defined.

Lemma reference_parameter_witness :
  isModifiableLValue Scenario.i = true /\ isLValue Scenario.i = true
  /\ areEquivalent (Expr.getType Scenario.i) Samples.intRef = true.
Proof.
  apply (reference_parameter Samples.intRef Scenario.i); reflexivity.
Defined.

Lemma returns_sound_witness : hasReturn Samples.body = true.
Proof. apply (proj1 (returns_sound Samples.body)). reflexivity. Defined.

Lemma observation_lower_bounds_weak_witness :
  hasStrictLowerBound Samples.strictBound = false.
Proof.
  apply (proj2 (observation_lower_bounds_weak
                  Samples.strictBound Scenario.system0)).
  reflexivity.
Defined.

Lemma checkExpression_reports_witness :
  exists ok e' s' more,
    Scenario.check 3 Scenario.clockIncrement Scenario.system0
    = Some (ok, e', s')
    /\ errors s' = errors Scenario.system0 ++ more
    /\ (ok = false -> more <> []).
Proof.
  apply (checkExpression_reports
           Scenario.noChange Scenario.noReads Scenario.noValues
           Scenario.typesOk).
  - intros t s. exists []. symmetry. apply app_nil_r.
  - reflexivity.
  - simpl. lia.
Defined.

Lemma checkExpression_annotates_witness :
  exists ok e' s',
    Scenario.check 3 Scenario.clockBound Scenario.system0
    = Some (ok, e', s')
    /\ erase e' = erase Scenario.clockBound.
Proof.
  apply (checkExpression_annotates
           Scenario.noChange Scenario.noReads Scenario.noValues
           Scenario.typesOk).
  - reflexivity.
  - simpl. lia.
Defined.

Lemma checkExpression_idempotent_witness :
  exists ok e' s',
    Scenario.check 3 Scenario.clockBound Scenario.system0
    = Some (ok, e', s')
    /\ (ok = true ->
        forall s2, exists s2',
          Scenario.check 3 e' s2 = Some (true, e', s2')).
Proof.
  apply (checkExpression_idempotent
           Scenario.noChange Scenario.noReads Scenario.noValues
           Scenario.typesOk).
  - reflexivity.
  - simpl. lia.
Defined.

Lemma checkExpression_types_every_node_witness :
  exists ok e' s',
    Scenario.check 5 Scenario.invariant2 Scenario.system0
    = Some (ok, e', s')
    /\ (ok = true -> wellTyped e' = true).
Proof.
  apply (checkExpression_types_every_node
           Scenario.noChange Scenario.noReads Scenario.noValues
           Scenario.typesOk).
  - reflexivity.
  - simpl. lia.
Defined.

Lemma conjunction_categories_witness :
  exists e' s',
    Scenario.check 3 (Scenario.binary AND Scenario.i Samples.strictBound)
                   Scenario.system0
    = Some (true, e', s')
    /\ Expr.sub e' = [Scenario.i; Samples.strictBound]
    /\ (true = true ->
        s' = Scenario.system0
        /\ isIntegral e' = false
        /\ isInvariant e' = true
        /\ isInvariantWR e' = true
        /\ isGuard e' = true
        /\ isConstraint e' = true
        /\ isFormula e' = true).
Proof.
  apply (conjunction_categories
           Scenario.noChange Scenario.noReads Scenario.noValues
           Scenario.typesOk 2
           (Scenario.binary AND Scenario.i Samples.strictBound)
           Scenario.i Samples.strictBound [] Scenario.system0
           Scenario.system0);
    reflexivity.
Defined.

Lemma disjunction_categories_witness :
  exists e' s',
    Scenario.check 2 (Scenario.binary OR Scenario.i Scenario.i)
                   Scenario.system0
    = Some (true, e', s')
    /\ Expr.sub e' = [Scenario.i; Scenario.i]
    /\ (true = true ->
        s' = Scenario.system0
        /\ isIntegral e' = true
        /\ isInvariant e' = true
        /\ isInvariantWR e' = true
        /\ isGuard e' = true
        /\ isConstraint e' = true
        /\ isFormula e' = true).
Proof.
  apply (disjunction_categories
           Scenario.noChange Scenario.noReads Scenario.noValues
           Scenario.typesOk 1
           (Scenario.binary OR Scenario.i Scenario.i)
           Scenario.i Scenario.i [] Scenario.system0 Scenario.system0);
    reflexivity.
Defined.

Lemma clock_inequality_witness :
  Scenario.check 2 (Scenario.binary NEQ Scenario.x Scenario.x)
                 Scenario.system0
  = Some (true,
          Expr.setType (Scenario.binary NEQ Scenario.x Scenario.x)
                       (primitive BOOL),
          Scenario.system0).
Proof.
  apply (proj1 (clock_inequality
                  Scenario.noChange Scenario.noReads Scenario.noValues
                  Scenario.typesOk 1
                  (Scenario.binary NEQ Scenario.x Scenario.x)
                  Scenario.x Scenario.x [] Scenario.system0
                  Scenario.system0 eq_refl eq_refl eq_refl)).
  reflexivity.
Defined.

Lemma subscript_index_witness :
  Scenario.check 2 Samples.clockSubscript Scenario.system0
  = Some (true,
          Expr.setType Samples.clockSubscript (primitive INT),
          handleError Scenario.x "$Incompatible_type" Scenario.system0).
Proof.
  apply (proj2 (subscript_index
                  Scenario.noChange Scenario.noReads Scenario.noValues
                  Scenario.typesOk 1 Samples.clockSubscript
                  Samples.a Scenario.x [] Scenario.system0
                  Scenario.system0 eq_refl eq_refl eq_refl eq_refl));
    reflexivity.
Defined.

Lemma equality_of_reference_scalars_witness :
  Scenario.check 2 (Scenario.binary EQ Samples.t Samples.r)
                 Scenario.system0
  = Some (false, Scenario.binary EQ Samples.t Samples.r,
          handleError (Scenario.binary EQ Samples.t Samples.r)
                      "$Type_error" Scenario.system0).
Proof.
  apply (proj2 (equality_of_reference_scalars
                  Scenario.noChange Scenario.noReads Scenario.noValues
                  Scenario.typesOk 1
                  (Scenario.binary EQ Samples.t Samples.r)
                  Samples.t Samples.r Scenario.system0 Scenario.system0
                  Scenario.scalars (or_introl eq_refl) eq_refl
                  (scalarSet_label _ _ _ _
                     (scalarSet_range _ _ _ _ (scalarSet_scalar _ _)))
                  eq_refl));
    reflexivity.
Defined.

Lemma commutative_operands_witness :
  exists ok e1 e2 s1 s2,
    Scenario.check 3 (Scenario.binary PLUS Scenario.x (Scenario.const 1))
                   Scenario.system0
    = Some (ok, e1, s1)
    /\ Scenario.check 3 (Scenario.binary PLUS (Scenario.const 1) Scenario.x)
                      Scenario.system0
       = Some (ok, e2, s2)
    /\ Expr.getType e1 = Expr.getType e2.
Proof.
  apply (commutative_operands
           Scenario.noChange Scenario.noReads Scenario.noValues
           Scenario.typesOk 2 PLUS (O, O) 0 symbol_null type_null
           Scenario.x (Scenario.const 1) Scenario.system0);
    try reflexivity; simpl; lia.
Defined.

Lemma access_paths_witness :
  isLValue Samples.subscript = true
  /\ isModifiableLValue Samples.subscript
     = Ty.isNonConstant (Expr.getType Samples.a)
  /\ isUniqueReference Scenario.noReads Scenario.noValues Samples.subscript
     = forallb (isCompileTimeComputable Scenario.noReads Scenario.noValues)
               [Scenario.const 1].
Proof.
  apply (access_paths Scenario.noReads Scenario.noValues
                      Samples.subscript).
  reflexivity.
Defined.


Lemma checkInitialiser_array_witness :
  exists r s',
    checkInitialiser 3 Samples.ints Samples.pair Scenario.system0
    = Some (r, s')
    /\ Expr.getKind r = LIST /\ Expr.getType r = Samples.ints
    /\ Expr.getSize r = 2%nat
    /\ (forall i, (i < 2)%nat ->
                  exists fuel' sa sb,
                    checkInitialiser fuel' (primitive INT) Samples.pair.[i]
                                     sa
                    = Some (r.[i], sb))
    /\ ((forall i, (i < 2)%nat ->
                   Ty.getLabel (Expr.getType Samples.pair) i = ""
                   /\ areAssignmentCompatible
                        (primitive INT) (Expr.getType Samples.pair.[i]) true
                      = true) ->
        Expr.sub r = Expr.sub Samples.pair /\ s' = Scenario.system0).
Proof.
  apply (checkInitialiser_array 3 Samples.ints Samples.pair
                                Scenario.system0).
  - reflexivity.
  - split; [reflexivity|]. eexists. split; reflexivity.
  - simpl. lia.
Defined.

Lemma checkAssignmentExpression_reports_witness :
  exists ok e' s' more,
    checkAssignmentExpression
      Scenario.noChange Scenario.noReads Scenario.noValues Scenario.typesOk
      3 Scenario.intIncrement Scenario.system0
    = Some (ok, e', s')
    /\ errors s' = errors Scenario.system0 ++ more
    /\ (ok = false -> more <> [])
    /\ (ok = true -> isAssignable (Expr.getType e') || isVoid e' = true).
Proof.
  apply (checkAssignmentExpression_reports
           Scenario.noChange Scenario.noReads Scenario.noValues
           Scenario.typesOk).
  - intros t s. exists []. symmetry. apply app_nil_r.
  - reflexivity.
  - simpl. lia.
Defined.

Lemma accepted_assignment_targets_witness :
  exists ok e' s',
    Scenario.check 3 Samples.assignment Scenario.system0
    = Some (ok, e', s')
    /\ (ok = true -> targetsModifiable e' = true).
Proof.
  apply (accepted_assignment_targets
           Scenario.noChange Scenario.noReads Scenario.noValues
           Scenario.typesOk).
  - reflexivity.
  - simpl. lia.
Defined.

Lemma inline_if_type_witness :
  exists e' s',
    Scenario.check 2 Samples.choice Scenario.system0
    = Some (true, e', s')
    /\ Expr.sub e' = [Scenario.const 1; Samples.b; Scenario.i]
    /\ (true = true ->
        s' = Scenario.system0 /\ Expr.getType e' = Samples.bit
        /\ areEqCompatible Samples.bit (primitive INT) = true
        /\ areAssignmentCompatible Samples.bit (primitive INT) false = true
        /\ areAssignmentCompatible Samples.bit (primitive INT) true = true).
Proof.
  apply (inline_if_type
           Scenario.noChange Scenario.noReads Scenario.noValues
           Scenario.typesOk 1 Samples.choice
           (Scenario.const 1) Samples.b Scenario.i []
           Scenario.system0 Scenario.system0);
    reflexivity.
Defined.

Lemma negation_categories_witness :
  exists e' s',
    Scenario.check 3 Samples.negation Scenario.system0
    = Some (true, e', s')
    /\ Expr.sub e' = [Samples.strictBound]
    /\ (true = true ->
        s' = Scenario.system0
        /\ isIntegral e' = false
        /\ isInvariant e' = false
        /\ isInvariantWR e' = false
        /\ isGuard e' = false
        /\ isConstraint e' = true).
Proof.
  apply (negation_categories
           Scenario.noChange Scenario.noReads Scenario.noValues
           Scenario.typesOk 2 Samples.negation
           Samples.strictBound [] Scenario.system0 Scenario.system0);
    reflexivity.
Defined.

Lemma quantifier_categories_witness :
  exists e' s',
    Scenario.check 3 Samples.universal Scenario.system0
    = Some (true, e', s')
    /\ Expr.sub e' = [Samples.k; Samples.strictBound]
    /\ (true = true ->
        s' = Scenario.system0
        /\ isIntegral e' = false
        /\ isInvariant e' = true
        /\ isInvariantWR e' = true
        /\ isGuard e' = true
        /\ isConstraint e' = true).
Proof.
  apply (quantifier_categories
           Scenario.noChange Scenario.noReads Scenario.noValues
           Scenario.typesOk 2 Samples.universal
           Samples.k Samples.strictBound [] Scenario.system0
           Scenario.system0);
    [left|]; reflexivity.
Defined.

Lemma visitState_disjunction_with_rates_witness :
  Scenario.check 4 Samples.rateDisjunction Scenario.system0
  = Some (true,
          Expr.setType
            (Scenario.binary OR Scenario.i Samples.checkedRateEquation)
            (primitive INVARIANT_WR),
          Scenario.system0)
  /\ Scenario.visit 4 Samples.rateDisjunction = None.
Proof.
  apply (visitState_disjunction_with_rates
           Scenario.noChange Scenario.noReads Scenario.noValues
           Scenario.typesOk Scenario.kindName 3
           (mkState Samples.rateDisjunction
                    expression_null expression_null)
           Scenario.i Samples.checkedRateEquation []
           Scenario.system0 Scenario.system0);
    reflexivity.
Defined.
